(** * Multi-Taxi-Collaboration: shortest-path planning, transfer points and
      passenger allocation

    A shallow embedding of [TaxiWrapper/taxi_wrapper.py] ([EnvGraph], [Taxi]),
    [ControllerWrapper/controller_wrapper.py] ([Controller]),
    [Collaboration_Experiment.py] ([no_collaboration_case] and the part of
    [collaboration_case] before the simulation) and the allocation rounds of
    [Decentralized_Control_Example.py].

    Python integers are [Z]; a coordinate [[row, col]] is a pair of [Z];
    Python lists are [list], indexed with Python's rules (a negative index
    counts from the end, an index out of range raises).  A computation that
    can raise returns [option]: [None] stands for any exception
    ([IndexError], [KeyError], [NetworkXNoPath], [NodeNotFound], ...).

    [networkx.shortest_path] is a library function.  The program is
    modelled over any function that meets its contract
    ([shortest_path_spec]); [search_shortest_path] is an executable function
    that is proved to meet it and runs the model on concrete maps. *)

From Stdlib Require Import DecimalString DecimalZ DecimalPos String Ascii ZArith List Bool Lia Permutation.
Import ListNotations.

Open Scope Z_scope.

(** ** Python primitives *)

Notation "x <- c ;; k" := (match c with Some x => k | None => None end)
  (at level 61, c at next level, right associativity).
Notation "' pat <- c ;; k" := (match c with Some pat => k | None => None end)
  (at level 61, pat pattern, c at next level, right associativity).

(** [len(l)] *)
Definition len {A : Type} (l : list A) : Z := Z.of_nat (List.length l).

(** [l[i]]: a negative [i] counts from the end; out of range raises [IndexError]. *)
Definition py_index {A : Type} (l : list A) (i : Z) : option A :=
  if i <? 0
  then (if i + len l <? 0 then None else nth_error l (Z.to_nat (i + len l)))
  else nth_error l (Z.to_nat i).

(** [range(n)], empty when [n <= 0]. *)
Definition range (n : Z) : list Z := map Z.of_nat (seq 0 (Z.to_nat n)).

(** A loop whose body can raise: the results of the body, in order. *)
Fixpoint mapM {A B : Type} (f : A -> option B) (l : list A) : option (list B) :=
  match l with
  | [] => Some []
  | a :: l' => b <- f a ;; bs <- mapM f l' ;; Some (b :: bs)
  end.

(** [min(l, key=...)]: the first element whose key is minimal;
    [ValueError] on the empty list. *)
Fixpoint min_from {A : Type} (key : A -> Z) (best : A) (l : list A) : A :=
  match l with
  | [] => best
  | a :: l' => min_from key (if key a <? key best then a else best) l'
  end.

Definition py_min_by {A : Type} (key : A -> Z) (l : list A) : option A :=
  match l with
  | [] => None
  | a :: l' => Some (min_from key a l')
  end.

(** [np.inf] next to the integers: the initial value of a running minimum. *)
Inductive ext : Type :=
| Fin (z : Z)
| Inf.

(** [z < e] for an integer [z] and a running minimum [e]. *)
Definition lt_ext (z : Z) (e : ext) : bool :=
  match e with
  | Fin m => z <? m
  | Inf => true
  end.

(** ** EnvGraph *)

Definition cors : Type := (Z * Z)%type.

(** The part of a [networkx.Graph] the program uses: its nodes and its
    undirected edges. *)
Record nxGraph : Type := mk_nxGraph {
  nodes : list Z;
  edges : list (Z * Z)
}.

Definition has_node (g : nxGraph) (n : Z) : bool :=
  existsb (Z.eqb n) (nodes g).

Definition has_edge (g : nxGraph) (u v : Z) : bool :=
  existsb (fun e => ((fst e =? u) && (snd e =? v)) || ((fst e =? v) && (snd e =? u)))
          (edges g).

Record EnvGraph : Type := mk_EnvGraph {
  rows : Z;
  cols : Z;
  graph : nxGraph
}.

(** The map description, [taxi_env.desc.astype(str)]: a rectangular array of
    characters. *)
Definition Desc : Type := list (list ascii).

Definition desc_of (l : list string) : Desc := map list_ascii_of_string l.

(** [desc[r][c]] *)
Definition desc_at (desc : Desc) (r c : Z) : option ascii :=
  line <- py_index desc r ;; py_index line c.

(** [node_to_cors]: [[node // cols, node % cols]].  [Z.div] and [Z.modulo]
    round like Python's [//] and [%].  The program only calls it on nodes of
    the graph, which has none when [cols = 0]. *)
Definition node_to_cors (n_cols : Z) (node : Z) : cors :=
  (node / n_cols, node mod n_cols).

(** [cors_to_node]: [row * cols + col]. *)
Definition cors_to_node (n_cols : Z) (p : cors) : Z :=
  fst p * n_cols + snd p.

(** The edges one iteration of the constructor's loop adds for node [i].
    [add_edge] towards a node that is not in the graph would add it while
    the loop iterates over the nodes, which raises; so does an index out of
    the description. *)
Definition node_edges (desc : Desc) (n_rows n_cols : Z) (i : Z) : option (list (Z * Z)) :=
  let '(row, col) := node_to_cors n_cols i in
  s <- desc_at desc (row + 2) (col * 2 + 1) ;;
  let south :=
    if negb (Ascii.eqb s "-"%char) then [(i, cors_to_node n_cols (row + 1, col))] else [] in
  e <- desc_at desc (row + 1) (col * 2 + 2) ;;
  let east :=
    if Ascii.eqb e ":"%char then [(i, cors_to_node n_cols (row, col + 1))] else [] in
  let added := south ++ east in
  if forallb (fun e => (0 <=? snd e) && (snd e <? n_rows * n_cols)) added
  then Some added else None.

(** [EnvGraph.__init__] *)
Definition EnvGraph_init (desc : Desc) : option EnvGraph :=
  let n_rows := len desc - 2 in
  first <- py_index desc 0 ;;
  let n_cols := len first / 2 in
  let ns := range (n_rows * n_cols) in
  es <- mapM (node_edges desc n_rows n_cols) ns ;;
  Some {| rows := n_rows; cols := n_cols;
          graph := {| nodes := ns; edges := concat es |} |}.

(** *** Walks, and what [nx.shortest_path] promises *)

(** [is_walk g s t p]: [p] lists nodes of [g] from [s] to [t], each joined
    to the next by an edge. *)
Fixpoint is_walk (g : nxGraph) (s t : Z) (p : list Z) : bool :=
  match p with
  | [] => false
  | u :: rest =>
      (u =? s) && has_node g u &&
      match rest with
      | [] => u =? t
      | v :: _ => has_edge g u v && is_walk g v t rest
      end
  end.

(** [networkx.shortest_path(G, source, target)] is a library function: it
    returns one shortest path as a list of nodes from [source] to [target],
    and raises when there is none.  Which one of several shortest paths it
    returns is left open. *)
Definition shortest_path_spec
    (sp : nxGraph -> Z -> Z -> option (list Z)) (g : nxGraph) : Prop :=
  (forall s t p, sp g s t = Some p -> is_walk g s t p = true) /\
  (forall s t w, is_walk g s t w = true ->
     exists p, sp g s t = Some p /\ (List.length p <= List.length w)%nat).

(** The four directional actions, as indices into the environment's action
    list. *)
Definition SOUTH : Z := 0.
Definition NORTH : Z := 1.
Definition EAST : Z := 2.
Definition WEST : Z := 3.

(** The body of the loop of [get_path] that turns a step into an action. *)
Definition action_of_delta (n_cols delta : Z) : Z :=
  if delta =? -1 then WEST
  else if delta =? 1 then EAST
  else if delta =? - n_cols then NORTH
  else SOUTH.

(** [for node in range(len(path) - 1)]: one action per consecutive pair. *)
Fixpoint path_actions (n_cols : Z) (path : list Z) : list Z :=
  match path with
  | [] => []
  | u :: rest =>
      match rest with
      | [] => []
      | v :: _ => action_of_delta n_cols (v - u) :: path_actions n_cols rest
      end
  end.

(** What a directional action does to a position on the grid. *)
Definition apply_action (a : Z) (p : cors) : cors :=
  if a =? SOUTH then (fst p + 1, snd p)
  else if a =? NORTH then (fst p - 1, snd p)
  else if a =? EAST then (fst p, snd p + 1)
  else if a =? WEST then (fst p, snd p - 1)
  else p.

(** The cells visited by applying [actions] one at a time from [p]
    (without [p] itself). *)
Fixpoint replay (p : cors) (actions : list Z) : list cors :=
  match actions with
  | [] => []
  | a :: rest => let q := apply_action a p in q :: replay q rest
  end.

Definition in_grid (G : EnvGraph) (p : cors) : Prop :=
  0 <= fst p < rows G /\ 0 <= snd p < cols G.

(** Every two cells of the grid are joined by a walk. *)
Definition connected (G : EnvGraph) : Prop :=
  forall a b, in_grid G a -> in_grid G b ->
    exists w, is_walk (graph G) (cors_to_node (cols G) a) (cors_to_node (cols G) b) w = true.

(** ** The environment state and the taxis *)

(** [taxi_env.state]: five lists, named as the constants that index them. *)
Record State : Type := mk_State {
  TAXIS_LOCATIONS : list cors;
  FUELS : list Z;
  PASSENGERS_START_LOCATION : list cors;
  PASSENGERS_DESTINATIONS : list cors;
  PASSENGERS_STATUS : list Z
}.

(** The values a message carries. *)
Inductive pyval : Type :=
| VInt (z : Z)
| VStr (s : string)
| VPoint (p : cors)
| VPath (l : list cors).

(** A message is a [dict] with string keys. *)
Definition message : Type := list (string * pyval).

(** [d[key]], [KeyError] when the key is absent. *)
Fixpoint dict_get {V : Type} (d : list (string * V)) (key : string) : option V :=
  match d with
  | [] => None
  | (k, v) :: d' => if String.eqb k key then Some v else dict_get d' key
  end.

(** An integer where the program needs one. *)
Definition as_int (v : pyval) : option Z :=
  match v with
  | VInt z => Some z
  | _ => None
  end.

(** [v == n] for a message value and an integer. *)
Definition val_eq_int (v : pyval) (n : Z) : bool :=
  match v with
  | VInt z => z =? n
  | _ => false
  end.

(** The dictionary [passenger_allocation_message] builds. *)
Definition allocation_message (taxi_index passenger_index pickup_cost : Z) : message :=
  [("taxi_index"%string, VInt taxi_index);
   ("passenger_index"%string, VInt passenger_index);
   ("pickup_cost"%string, VInt pickup_cost)].

(** The mutable part of a [Taxi] object.  Its [taxi_env] is the one shared
    environment and its [env_graph] is built from that environment's map, so
    both are passed to the methods. *)
Record Taxi : Type := mk_Taxi {
  taxi_index : Z;
  communication_channel : list message;
  actions_queue : list Z;
  assigned_passengers : list Z
}.

Definition set_actions_queue (t : Taxi) (q : list Z) : Taxi :=
  {| taxi_index := taxi_index t;
     communication_channel := communication_channel t;
     actions_queue := q;
     assigned_passengers := assigned_passengers t |}.

Definition set_assigned_passengers (t : Taxi) (l : list Z) : Taxi :=
  {| taxi_index := taxi_index t;
     communication_channel := communication_channel t;
     actions_queue := actions_queue t;
     assigned_passengers := l |}.

Definition set_communication_channel (t : Taxi) (c : list message) : Taxi :=
  {| taxi_index := taxi_index t;
     communication_channel := c;
     actions_queue := actions_queue t;
     assigned_passengers := assigned_passengers t |}.

(** [taxi_env]: the state and the table of action indices. *)
Record TaxiEnv : Type := mk_TaxiEnv {
  state : State;
  action_index_dictionary : list (string * Z)
}.

(** All cells of the grid in the order of
    [for row in range(rows): for col in range(cols)]. *)
Definition all_cells (G : EnvGraph) : list cors :=
  flat_map (fun row => map (fun col => (row, col)) (range (cols G))) (range (rows G)).

Section Planning.

(** [nx.shortest_path] *)
Variable nx_shortest_path : nxGraph -> Z -> Z -> option (list Z).

(** [EnvGraph.get_path] *)
Definition get_path (G : EnvGraph) (origin target : cors) : option (list cors * list Z) :=
  let node_origin := cors_to_node (cols G) origin in
  let node_target := cors_to_node (cols G) target in
  if node_origin =? node_target then Some ([], [])
  else
    path <- nx_shortest_path (graph G) node_origin node_target ;;
    let cord_path := map (node_to_cors (cols G)) path in
    let actions := path_actions (cols G) path in
    Some (tl cord_path, actions).

(** [EnvGraph.path_cost] *)
Definition path_cost (G : EnvGraph) (origin dest : cors) : option Z :=
  r <- get_path G origin dest ;; Some (len (snd r)).

(** [Taxi.get_location] *)
Definition Taxi_get_location (st : State) (t : Taxi) : option cors :=
  py_index (TAXIS_LOCATIONS st) (taxi_index t).

(** [Taxi.get_fuel] *)
Definition Taxi_get_fuel (st : State) (t : Taxi) : option Z :=
  py_index (FUELS st) (taxi_index t).

(** [Taxi.compute_shortest_path] *)
Definition Taxi_compute_shortest_path (st : State) (G : EnvGraph) (t : Taxi)
    (dest : cors) (origin : option cors) : option (list cors * list Z) :=
  o <- match origin with
       | Some o => Some o
       | None => py_index (TAXIS_LOCATIONS st) (taxi_index t)
       end ;;
  get_path G o dest.

(** [Taxi.path_cost]; a given origin [[row, col]] is a non-empty list, hence
    true in [origin if origin else ...]. *)
Definition Taxi_path_cost (st : State) (G : EnvGraph) (t : Taxi)
    (dest : cors) (origin : option cors) : option Z :=
  o <- match origin with
       | Some o => Some o
       | None => py_index (TAXIS_LOCATIONS st) (taxi_index t)
       end ;;
  r <- get_path G o dest ;;
  Some (len (snd r)).

(** [Taxi.send_taxi_to_point] *)
Definition Taxi_send_taxi_to_point (st : State) (G : EnvGraph) (t : Taxi)
    (point : cors) : option Taxi :=
  r <- Taxi_compute_shortest_path st G t point None ;;
  Some (set_actions_queue t (actions_queue t ++ snd r)).

(** [Taxi.send_taxi_to_pickup]; [passenger_index] is [None] or an integer,
    and the integer 0 is false in [passenger_index if passenger_index else ...]. *)
Definition Taxi_send_taxi_to_pickup (env : TaxiEnv) (G : EnvGraph) (t : Taxi)
    (passenger_index : option Z) : option Taxi :=
  if match assigned_passengers t, passenger_index with
     | [], None => true
     | _, _ => false
     end
  then Some t
  else
    pickup_passenger <-
      match passenger_index with
      | Some i => if i =? 0 then py_index (assigned_passengers t) 0 else Some i
      | None => py_index (assigned_passengers t) 0
      end ;;
    passenger_location <- py_index (PASSENGERS_START_LOCATION (state env)) pickup_passenger ;;
    t' <- Taxi_send_taxi_to_point (state env) G t passenger_location ;;
    pickup <- dict_get (action_index_dictionary env) "pickup"%string ;;
    Some (set_actions_queue t' (actions_queue t' ++ [pickup])).

(** [Taxi.pickup_cost]: from the location of the last assigned passenger when
    there is one, else from the taxi's location. *)
Definition Taxi_pickup_cost (st : State) (G : EnvGraph) (t : Taxi)
    (passenger_index : Z) : option Z :=
  passenger_location <- py_index (PASSENGERS_START_LOCATION st) passenger_index ;;
  origin <- match assigned_passengers t with
            | [] => Some None
            | _ :: _ =>
                last_assigned <- py_index (assigned_passengers t) (-1) ;;
                o <- py_index (PASSENGERS_START_LOCATION st) last_assigned ;;
                Some (Some o)
            end ;;
  Taxi_path_cost st G t passenger_location origin.

(** [Taxi.passenger_allocation_message] *)
Definition Taxi_passenger_allocation_message (st : State) (G : EnvGraph) (t : Taxi)
    (passenger_index : Z) : option (list message) :=
  pickup_cost <- Taxi_pickup_cost st G t passenger_index ;;
  Some [allocation_message (taxi_index t) passenger_index pickup_cost].

(** [Taxi.listen] *)
Definition Taxi_listen (t : Taxi) (msg : list message) : Taxi :=
  set_communication_channel t (communication_channel t ++ msg).

(** The state of the loop of [Taxi.decide_assignments]: [pickup_cost],
    [assigned_taxi] and [passenger_index], which is unbound before the first
    message. *)
Record bid_state : Type := mk_bid_state {
  bs_pickup_cost : ext;
  bs_assigned_taxi : pyval;
  bs_passenger_index : option pyval
}.

Definition decide_step (acc : option bid_state) (m : message) : option bid_state :=
  s <- acc ;;
  passenger_index <- dict_get m "passenger_index"%string ;;
  taxi_index <- dict_get m "taxi_index"%string ;;
  cost <- (v <- dict_get m "pickup_cost"%string ;; as_int v) ;;
  if lt_ext cost (bs_pickup_cost s)
  then Some (mk_bid_state (Fin cost) taxi_index (Some passenger_index))
  else Some (mk_bid_state (bs_pickup_cost s) (bs_assigned_taxi s) (Some passenger_index)).

(** [Taxi.decide_assignments]; the assigned passengers are indices. *)
Definition Taxi_decide_assignments (t : Taxi) : option Taxi :=
  s <- fold_left decide_step (communication_channel t)
         (Some (mk_bid_state Inf (VInt (-1)) None)) ;;
  t' <- (if val_eq_int (bs_assigned_taxi s) (taxi_index t)
         then v <- bs_passenger_index s ;; p <- as_int v ;;
              Some (set_assigned_passengers t (assigned_passengers t ++ [p]))
         else Some t) ;;
  Some (set_communication_channel t' []).

(** ** Controller *)

(** [Controller.get_passenger_cors] *)
Definition get_passenger_cors (st : State) (passenger_index : Z) : option cors :=
  py_index (PASSENGERS_START_LOCATION st) passenger_index.

(** [Controller.get_destination_cors] *)
Definition get_destination_cors (st : State) (passenger_index : Z) : option cors :=
  py_index (PASSENGERS_DESTINATIONS st) passenger_index.

(** The body of the loop of [find_transfer_point_h1] for one candidate
    [point]: the pair appended to [off_road_distances]. *)
Definition h1_entry (st : State) (G : EnvGraph) (from_taxi : Taxi)
    (from_taxi_remaining_fuel : Z) (point : cors) : option (Z * cors) :=
  r <- Taxi_compute_shortest_path st G from_taxi point None ;;
  loc <- Taxi_get_location st from_taxi ;;
  let path_cords := loc :: fst r in
  let path_actions := snd r in
  let remaining_path := Z.max 0 (len path_actions - from_taxi_remaining_fuel) in
  if remaining_path >? 0
  then p <- py_index path_cords (Z.min from_taxi_remaining_fuel (len path_actions)) ;;
       Some (remaining_path, p)
  else Some (0, point).

(** [Controller.find_transfer_point_h1] *)
Definition find_transfer_point_h1 (st : State) (G : EnvGraph) (taxis : list Taxi)
    (from_taxi_index to_taxi_index passenger_index : Z) : option cors :=
  to_taxi <- py_index taxis to_taxi_index ;;
  dest <- get_destination_cors st passenger_index ;;
  r <- Taxi_compute_shortest_path st G to_taxi dest None ;;
  to_loc <- Taxi_get_location st to_taxi ;;
  let to_taxi_shortest_path := to_loc :: fst r in
  fuel <- py_index (FUELS st) from_taxi_index ;;
  let from_taxi_remaining_fuel := fuel - 1 in
  from_taxi <- py_index taxis from_taxi_index ;;
  off_road_distances <-
    mapM (h1_entry st G from_taxi from_taxi_remaining_fuel) to_taxi_shortest_path ;;
  best <- py_min_by fst off_road_distances ;;
  Some (snd best).

(** [Controller.find_transfer_point_h2] *)
Definition find_transfer_point_h2 (st : State) (G : EnvGraph) (taxis : list Taxi)
    (from_taxi_index passenger_index : Z) : option cors :=
  from_taxi <- py_index taxis from_taxi_index ;;
  dest <- get_destination_cors st passenger_index ;;
  r <- Taxi_compute_shortest_path st G from_taxi dest None ;;
  loc <- Taxi_get_location st from_taxi ;;
  let shortest_path := loc :: fst r in
  fuel <- Taxi_get_fuel st from_taxi ;;
  py_index shortest_path (Z.max 0 (Z.min (fuel - 1) (len shortest_path - 1))).

(** The [else] branch of the loop body of [find_optimal_transfer_point]:
    [dist_from_dest] of a transfer point the sender can reach. *)
Definition dist_from_dest_at (st : State) (G : EnvGraph) (from_taxi to_taxi : Taxi)
    (passenger_destination transfer_point : cors) : option Z :=
  path_to_point_cost <- Taxi_path_cost st G to_taxi transfer_point None ;;
  to_fuel <- Taxi_get_fuel st to_taxi ;;
  if path_to_point_cost >? to_fuel - 1
  then Taxi_path_cost st G from_taxi passenger_destination (Some transfer_point)
  else
    c <- Taxi_path_cost st G to_taxi passenger_destination (Some transfer_point) ;;
    let total_path_cost := path_to_point_cost + c in
    Some (Z.max 0 (total_path_cost - (to_fuel - 1))).

(** One iteration of the loops of [find_optimal_transfer_point] on
    [(best_transfer_point, min_dist_from_dest)]. *)
Definition optimal_step (st : State) (G : EnvGraph) (from_taxi to_taxi : Taxi)
    (passenger_destination : cors) (acc : option (list Z * ext)) (transfer_point : cors)
    : option (list Z * ext) :=
  a <- acc ;;
  path_to_point_cost <- Taxi_path_cost st G from_taxi transfer_point None ;;
  from_fuel <- Taxi_get_fuel st from_taxi ;;
  if path_to_point_cost >? from_fuel - 1 then Some a
  else
    dist_from_dest <- dist_from_dest_at st G from_taxi to_taxi passenger_destination
                        transfer_point ;;
    if lt_ext dist_from_dest (snd a)
    then Some ([fst transfer_point; snd transfer_point], Fin dist_from_dest)
    else Some a.

(** [Controller.find_optimal_transfer_point]: the Python list it returns,
    [[]] or [[row, col]]. *)
Definition find_optimal_transfer_point (st : State) (G : EnvGraph) (taxis : list Taxi)
    (from_taxi_index to_taxi_index passenger_index : Z) : option (list Z) :=
  from_taxi <- py_index taxis from_taxi_index ;;
  to_taxi <- py_index taxis to_taxi_index ;;
  passenger_destination <- get_destination_cors st passenger_index ;;
  r <- fold_left (optimal_step st G from_taxi to_taxi passenger_destination)
         (all_cells G) (Some ([], Inf)) ;;
  Some (fst r).

(** One iteration of the loop of [find_closest_taxi] on
    [(closest_taxi_distance, closest_taxi_index)]. *)
Definition closest_step (st : State) (G : EnvGraph) (dest : cors)
    (acc : option (ext * Z)) (taxi : Taxi) : option (ext * Z) :=
  a <- acc ;;
  loc <- Taxi_get_location st taxi ;;
  taxi_distance <- path_cost G loc dest ;;
  taxi_fuel <- Taxi_get_fuel st taxi ;;
  if lt_ext taxi_distance (fst a) && (taxi_distance <? taxi_fuel)
  then Some (Fin taxi_distance, taxi_index taxi)
  else Some a.

(** [Controller.find_closest_taxi] *)
Definition find_closest_taxi (st : State) (G : EnvGraph) (taxis : list Taxi)
    (dest : cors) : option Z :=
  r <- fold_left (closest_step st G dest) taxis (Some (Inf, -1)) ;;
  Some (snd r).

(** ** The experiment *)



End Planning.

(** ** A reference shortest-path search

    An executable function with the behaviour [nx.shortest_path] promises:
    a depth-bounded search, tried with bounds 0, 1, 2, ... up to the number
    of nodes.  It is used to run the model on concrete maps. *)

Definition neighbors (g : nxGraph) (u : Z) : list Z :=
  filter (has_edge g u) (nodes g).

Fixpoint first_some {A B : Type} (f : A -> option B) (l : list A) : option B :=
  match l with
  | [] => None
  | a :: l' =>
      match f a with
      | Some b => Some b
      | None => first_some f l'
      end
  end.

(** A walk from [u] to [t] with at most [k] edges, if there is one. *)
Fixpoint walk_upto (g : nxGraph) (k : nat) (u t : Z) : option (list Z) :=
  if u =? t then Some [u]
  else
    match k with
    | O => None
    | S k' => first_some (fun v => option_map (cons u) (walk_upto g k' v t)) (neighbors g u)
    end.

(** Bounds [k], [k+1], ..., [k+n] in turn. *)
Fixpoint deepen (g : nxGraph) (n k : nat) (s t : Z) : option (list Z) :=
  match walk_upto g k s t with
  | Some p => Some p
  | None =>
      match n with
      | O => None
      | S n' => deepen g n' (S k) s t
      end
  end.

Definition search_shortest_path (g : nxGraph) (s t : Z) : option (list Z) :=
  if has_node g s && has_node g t
  then deepen g (List.length (nodes g)) 0 s t
  else None.

(** A check that decides whether every two nodes are joined. *)
Definition all_joined (g : nxGraph) : bool :=
  forallb (fun a =>
    forallb (fun b => match search_shortest_path g a b with Some _ => true | None => false end)
            (nodes g)) (nodes g).

(** ** More of the taxi, of the controller and of the experiment *)

(** [f'{n}'] for an integer [n]. *)
Definition str_of_int (z : Z) : string := NilZero.string_of_int (Z.to_int z).

(** [d[key] = v]: the value of an existing key is replaced in place, a new
    key is added at the end. *)
Fixpoint dict_set {V : Type} (d : list (string * V)) (key : string) (v : V)
    : list (string * V) :=
  match d with
  | [] => [(key, v)]
  | (k, v') :: d' =>
      if String.eqb k key then (k, v) :: d' else (k, v') :: dict_set d' key v
  end.

(** [l[i] = f(l[i])] with Python's indices; [IndexError] out of range. *)
Definition py_update {A : Type} (l : list A) (i : Z) (f : A -> A) : option (list A) :=
  let k := if i <? 0 then i + len l else i in
  if (k <? 0) || (len l <=? k) then None
  else Some (firstn (Z.to_nat k) l ++
             match nth_error l (Z.to_nat k) with
             | Some a => [f a]
             | None => []
             end ++ skipn (S (Z.to_nat k)) l).

(** [min(l)] of integers, [ValueError] on the empty list. *)
Definition py_min (l : list Z) : option Z := py_min_by (fun x => x) l.

(** [l.index(x)]: the first position of [x], [ValueError] when absent. *)
Fixpoint py_list_index (x : Z) (l : list Z) : option Z :=
  match l with
  | [] => None
  | y :: l' => if y =? x then Some 0 else k <- py_list_index x l' ;; Some (k + 1)
  end.

(** A point given as a Python list unpacks into a coordinate when it has
    two elements (the unpacking in [get_path] raises otherwise). *)
Definition cors_of_list (l : list Z) : option cors :=
  match l with
  | [row; col] => Some (row, col)
  | _ => None
  end.

(** [Taxi.get_next_step]: the head of the queue is popped and returned;
    [None] is Python's [None], returned for an empty queue. *)
Definition Taxi_get_next_step (t : Taxi) : option Z * Taxi :=
  match actions_queue t with
  | [] => (None, t)
  | next_action :: q => (Some next_action, set_actions_queue t q)
  end.

(** The dictionary [request_help_message] builds. *)
Definition help_request_message (taxi_index passenger_index : Z) : message :=
  [("type"%string, VStr "help_request");
   ("taxi_index"%string, VInt taxi_index);
   ("passenger_index"%string, VInt passenger_index)].

(** [Controller.any_actions_left] *)
Definition any_actions_left (taxis : list Taxi) : bool :=
  existsb (fun t => match actions_queue t with [] => false | _ :: _ => true end) taxis.

(** [Controller.get_next_step]: every taxi pops its next action; the
    dictionary maps [taxi_<index + 1>] to the action of each taxi that had
    one.  [None] is Python's [None], returned when no queue holds an
    action. *)
Definition Controller_get_next_step (taxis : list Taxi)
    : option (list (string * Z)) * list Taxi :=
  if any_actions_left taxis then
    let steps := map (fun t => (taxi_index t, Taxi_get_next_step t)) taxis in
    let taxis_step :=
      fold_left (fun d s => dict_set d ("taxi_" ++ str_of_int (fst s + 1)) (fst (snd s)))
                steps [] in
    let taxis_step :=
      flat_map (fun item => match snd item with
                            | Some a => [(fst item, a)]
                            | None => []
                            end) taxis_step in
    (Some taxis_step, map (fun s => snd (snd s)) steps)
  else (None, taxis).

Section Execution.

(** The environment and its [step] method belong to the simulation. *)
Variable Env : Type.
Variable env_step : Env -> list (string * Z) -> Env.

(** [Controller.execute_all_actions]: [while next_step: step]; a dictionary
    is false when empty.  [fuel] bounds the number of iterations, [None]
    when it runs out. *)
Fixpoint execute_all_actions (fuel : nat) (env : Env) (taxis : list Taxi)
    : option (Env * list Taxi) :=
  match Controller_get_next_step taxis with
  | (Some (item :: items), taxis') =>
      match fuel with
      | O => None
      | S fuel' => execute_all_actions fuel' (env_step env (item :: items)) taxis'
      end
  | (_, taxis') => Some (env, taxis')
  end.

(** [execute_all_actions] of [Decentralized_Control_Example.py].  [actions]
    holds the queues themselves, which [get_next_step] pops in place, so
    [any(actions)] sees the current queues; the environment is stepped with
    the dictionary of the round even when it is empty.  [render] only
    displays. *)
Fixpoint example_execute_all_actions (fuel : nat) (env : Env) (taxis : list Taxi)
    : option (Env * list Taxi) :=
  if existsb (fun t => match actions_queue t with [] => false | _ :: _ => true end) taxis
  then
    match fuel with
    | O => None
    | S fuel' =>
        let steps := map (fun t => (taxi_index t, Taxi_get_next_step t)) taxis in
        let taxis_step :=
          fold_left (fun d s => dict_set d ("taxi_" ++ str_of_int (fst s + 1)) (fst (snd s)))
                    steps [] in
        let taxis_step :=
          flat_map (fun item => match snd item with
                                | Some a => [(fst item, a)]
                                | None => []
                                end) taxis_step in
        example_execute_all_actions fuel' (env_step env taxis_step)
          (map (fun s => snd (snd s)) steps)
    end
  else Some (env, taxis).

End Execution.

Section PlanningMore.

Variable nx_shortest_path : nxGraph -> Z -> Z -> option (list Z).

(** [Taxi.send_taxi_to_dropoff]; [point] is [None] or a Python list, and an
    empty list is false in [point if point else ...]. *)
Definition Taxi_send_taxi_to_dropoff (env : TaxiEnv) (G : EnvGraph) (t : Taxi)
    (point : option (list Z)) : option Taxi :=
  match assigned_passengers t with
  | [] => Some t
  | first :: rest =>
      destination <-
        match point with
        | Some (x :: l) => cors_of_list (x :: l)
        | _ => py_index (PASSENGERS_DESTINATIONS (state env)) first
        end ;;
      t' <- Taxi_send_taxi_to_point nx_shortest_path (state env) G t destination ;;
      dropoff <- dict_get (action_index_dictionary env)
                   ("dropoff" ++ str_of_int first) ;;
      Some (set_assigned_passengers
              (set_actions_queue t' (actions_queue t' ++ [dropoff])) rest)
  end.

(** One iteration of the loop of [pickup_multiple_passengers] on
    [(origin, actions_queue)]. *)
Definition pickup_multiple_step (env : TaxiEnv) (G : EnvGraph) (t : Taxi)
    (acc : option (cors * list Z)) (passenger : Z) : option (cors * list Z) :=
  a <- acc ;;
  passenger_location <- py_index (PASSENGERS_START_LOCATION (state env)) passenger ;;
  r <- Taxi_compute_shortest_path nx_shortest_path (state env) G t passenger_location
         (Some (fst a)) ;;
  pickup <- dict_get (action_index_dictionary env) "pickup"%string ;;
  Some (passenger_location, snd a ++ snd r ++ [pickup]).

(** [Taxi.pickup_multiple_passengers] *)
Definition Taxi_pickup_multiple_passengers (env : TaxiEnv) (G : EnvGraph) (t : Taxi)
    : option Taxi :=
  origin <- Taxi_get_location (state env) t ;;
  r <- fold_left (pickup_multiple_step env G t) (assigned_passengers t)
         (Some (origin, actions_queue t)) ;;
  Some (set_actions_queue t (snd r)).

(** One iteration of the loop of [request_help_message] on [all_messages]. *)
Definition request_help_step (st : State) (G : EnvGraph) (t : Taxi)
    (acc : option (list message)) (passenger_index : Z) : option (list message) :=
  all_messages <- acc ;;
  passenger_destination <- py_index (PASSENGERS_DESTINATIONS st) passenger_index ;;
  path_cost <- Taxi_path_cost nx_shortest_path st G t passenger_destination None ;;
  fuel <- Taxi_get_fuel st t ;;
  if path_cost >=? fuel
  then Some (all_messages ++ [help_request_message (taxi_index t) passenger_index])
  else Some all_messages.

(** [Taxi.request_help_message] *)
Definition Taxi_request_help_message (st : State) (G : EnvGraph) (t : Taxi)
    : option (list message) :=
  fold_left (request_help_step st G t) (assigned_passengers t) (Some []).

(** [Taxi.find_best_transfer_point]: [(cost, optimal_point,
    distance_from_destination)].  The loop body is the one of
    [find_transfer_point_h1] with this taxi as the sender. *)
Definition Taxi_find_best_transfer_point (st : State) (G : EnvGraph) (t : Taxi)
    (to_taxi_index passenger_index : Z) (path_to_dest : list cors) (to_taxi_fuel : Z)
    : option (Z * cors * Z) :=
  to_loc <- py_index (TAXIS_LOCATIONS st) to_taxi_index ;;
  let path_to_dest := to_loc :: path_to_dest in
  fuel <- py_index (FUELS st) (taxi_index t) ;;
  let from_taxi_remaining_fuel := fuel - 1 in
  off_road_distances <-
    mapM (h1_entry nx_shortest_path st G t from_taxi_remaining_fuel) path_to_dest ;;
  best <- py_min_by fst off_road_distances ;;
  let distance_from_destination :=
    Z.max 0 (fst best * 2 + len path_to_dest - to_taxi_fuel - 1) in
  Some (fst best, snd best, distance_from_destination).

(** One iteration of the loop of [allocate_passengers], for passenger [i]. *)
Definition allocate_step (st : State) (G : EnvGraph)
    (acc : option (list Taxi)) (i : Z) : option (list Taxi) :=
  taxis <- acc ;;
  costs <- mapM (fun taxi => Taxi_pickup_cost nx_shortest_path st G taxi i) taxis ;;
  m <- py_min costs ;;
  assigned_taxi <- py_list_index m costs ;;
  py_update taxis assigned_taxi
    (fun t => set_assigned_passengers t (assigned_passengers t ++ [i])).

(** [Controller.allocate_passengers]; [num_passengers] is the
    environment's. *)
Definition allocate_passengers (st : State) (G : EnvGraph) (taxis : list Taxi)
    (num_passengers : Z) : option (list Taxi) :=
  fold_left (allocate_step st G) (range num_passengers) (Some taxis).

(** [collaboration_case] up to its first [return].  The rest of the function
    drives the simulation: [rest] stands for it.  The passenger is appended
    to [taxis[closest_taxi]] before [closest_taxi == -1] is tested. *)
Definition collaboration_case (st : State) (G : EnvGraph) (taxis : list Taxi)
    (passenger_index h : Z)
    (rest : list Taxi -> Z -> option (Z * Z * list Taxi))
    : option (Z * Z * list Taxi) :=
  passenger_location <- get_passenger_cors st passenger_index ;;
  closest_taxi <- find_closest_taxi nx_shortest_path st G taxis passenger_location ;;
  taxis' <- py_update taxis closest_taxi
              (fun t => set_assigned_passengers t (assigned_passengers t ++ [passenger_index])) ;;
  if closest_taxi =? -1
  then
    passenger_destination <- get_destination_cors st passenger_index ;;
    remaining_dist_to_dest <-
      path_cost nx_shortest_path G passenger_location passenger_destination ;;
    Some (0, remaining_dist_to_dest, taxis')
  else rest taxis' closest_taxi.

(** The allocation rounds of [decentralized_control].  In the round of
    passenger [i] every taxi, in the order of [all_taxis], sends its bid to
    every taxi, itself included; then every taxi decides.  The script builds
    [all_taxis] with [num_taxis] taxis, so [range(num_taxis)] runs over the
    positions of the list.  The bid is the argument of [listen] inside the
    comprehension, so it is computed again for every listener [j]. *)
Definition listen_step (st : State) (G : EnvGraph) (i : Z) (k : nat)
    (acc : option (list Taxi)) (j : Z) : option (list Taxi) :=
  all_taxis <- acc ;;
  taxi <- nth_error all_taxis k ;;
  msg <- Taxi_passenger_allocation_message nx_shortest_path st G taxi i ;;
  py_update all_taxis j (fun t => Taxi_listen t msg).

Definition broadcast_step (st : State) (G : EnvGraph) (i : Z)
    (acc : option (list Taxi)) (k : nat) : option (list Taxi) :=
  all_taxis <- acc ;;
  fold_left (listen_step st G i k) (range (len all_taxis)) (Some all_taxis).

Definition allocation_round (st : State) (G : EnvGraph)
    (acc : option (list Taxi)) (i : Z) : option (list Taxi) :=
  all_taxis <- acc ;;
  heard <- fold_left (broadcast_step st G i) (seq 0 (List.length all_taxis)) (Some all_taxis) ;;
  mapM Taxi_decide_assignments heard.

Definition decentralized_allocation (st : State) (G : EnvGraph)
    (all_taxis : list Taxi) (num_passengers : Z) : option (list Taxi) :=
  fold_left (allocation_round st G) (range num_passengers) (Some all_taxis).

End PlanningMore.

(** ** Notions used to state the properties *)

(** A taxi whose index selects a location on the grid and a fuel level. *)
Definition valid_taxi (st : State) (G : EnvGraph) (t : Taxi) : Prop :=
  exists loc fuel,
    py_index (TAXIS_LOCATIONS st) (taxi_index t) = Some loc /\ in_grid G loc /\
    py_index (FUELS st) (taxi_index t) = Some fuel.

(** The location and the fuel of a valid taxi. *)
Definition location_of (st : State) (t : Taxi) : cors :=
  match py_index (TAXIS_LOCATIONS st) (taxi_index t) with
  | Some loc => loc
  | None => (0, 0)
  end.

Definition fuel_of (st : State) (t : Taxi) : Z :=
  match py_index (FUELS st) (taxi_index t) with
  | Some fuel => fuel
  | None => 0
  end.

(** [a], at position [k] of [l], has score [d]; no scored element of [l] has
    a smaller score and none before position [k] has the same score. *)
Definition is_first_min {A : Type} (score : A -> option Z) (l : list A)
    (k : nat) (a : A) (d : Z) : Prop :=
  nth_error l k = Some a /\ score a = Some d /\
  forall j b e, nth_error l j = Some b -> score b = Some e ->
    d <= e /\ (e = d -> (k <= j)%nat).

(** A scan that keeps the first element of minimal score, skipping the
    elements without a score. *)
Definition scan_step {A : Type} (score : A -> option Z)
    (acc : option (A * Z)) (a : A) : option (A * Z) :=
  match score a with
  | None => acc
  | Some d =>
      match acc with
      | None => Some (a, d)
      | Some (_, m) => if d <? m then Some (a, d) else acc
      end
  end.

Definition first_min {A : Type} (score : A -> option Z) (l : list A) : option (A * Z) :=
  fold_left (scan_step score) l None.

(** The pair the loop of [find_closest_taxi] holds after a scan that kept
    [acc]. *)
Definition closest_acc (acc : option (Taxi * Z)) : ext * Z :=
  match acc with
  | None => (Inf, -1)
  | Some (t, d) => (Fin d, taxi_index t)
  end.

(** The state the loop of [decide_assignments] holds after a scan of bids
    for passenger [p] that kept [acc]. *)
Definition decide_acc (p : Z) (acc : option ((Z * Z) * Z)) : bid_state :=
  match acc with
  | None => mk_bid_state Inf (VInt (-1)) None
  | Some (b, d) => mk_bid_state (Fin d) (VInt (fst b)) (Some (VInt p))
  end.

(** The channel that holds the bids [(taxi, cost)] for passenger [p]. *)
Definition bids_channel (p : Z) (bids : list (Z * Z)) : list message :=
  map (fun b => allocation_message (fst b) p (snd b)) bids.

(** The score of a bid is its cost. *)
Definition bid_cost (b : Z * Z) : option Z := Some (snd b).

(** The pair the loops of [find_optimal_transfer_point] hold after a scan
    that kept [acc]. *)
Definition optimal_acc (acc : option (cors * Z)) : list Z * ext :=
  match acc with
  | None => ([], Inf)
  | Some (c, d) => ([fst c; snd c], Fin d)
  end.

(** The position of a cell in the row-major scan of the grid. *)
Definition row_major (G : EnvGraph) (c : cors) : Z := fst c * cols G + snd c.

Section Costs.

Variable nx_shortest_path : nxGraph -> Z -> Z -> option (list Z).

(** The shortest-path cost between two cells that are joined. *)
Definition cost (G : EnvGraph) (a b : cors) : Z :=
  match path_cost nx_shortest_path G a b with
  | Some c => c
  | None => 0
  end.

(** The cells of the shortest path from [a] to [b], without [a]. *)
Definition path_cells (G : EnvGraph) (a b : cors) : list cors :=
  match get_path nx_shortest_path G a b with
  | Some r => fst r
  | None => []
  end.

(** The score [find_optimal_transfer_point] gives to a cell, [None] for a
    cell it skips: [sender] and [receiver] are the locations of the two
    taxis, [fs] and [fr] their fuel. *)
Definition cell_score (G : EnvGraph) (sender receiver dest : cors) (fs fr : Z)
    (c : cors) : option Z :=
  if cost G sender c >? fs - 1 then None
  else if cost G receiver c >? fr - 1 then Some (cost G c dest)
  else Some (Z.max 0 (cost G receiver c + cost G c dest - (fr - 1))).


(** The sender's shortfall towards a candidate of heuristic 1. *)
Definition shortfall (G : EnvGraph) (sender : cors) (fs : Z) (c : cors) : Z :=
  Z.max 0 (cost G sender c - (fs - 1)).

(** A taxi that reaches [dest] with fuel to spare: its distance. *)
Definition within_fuel (st : State) (G : EnvGraph) (dest : cors) (t : Taxi) : option Z :=
  let d := cost G (location_of st t) dest in
  if d <? fuel_of st t then Some d else None.

End Costs.

(** ** Distances of the graph, and what a hand-over achieves

    These notions do not mention the program: they are stated on the walks
    of the map's graph. *)

(** [d] is the distance between two nodes: some walk between them has [d]
    edges and none has fewer. *)
Definition is_distance (g : nxGraph) (s t d : Z) : Prop :=
  (exists w, is_walk g s t w = true /\ len w = d + 1) /\
  (forall w, is_walk g s t w = true -> d + 1 <= len w).

(** The shortest-path distance between two cells of the grid. *)
Definition cell_distance (G : EnvGraph) (a b : cors) (d : Z) : Prop :=
  in_grid G a /\ in_grid G b /\
  is_distance (graph G) (cors_to_node (cols G) a) (cors_to_node (cols G) b) d.

(** The residual distance of a hand-over at the cell [p]: the distance that
    remains between the passenger and her destination after the attempt.
    A move costs one unit of fuel and a taxi keeps its last unit for the
    hand-over, so a taxi with fuel [f] makes [f - 1] moves.  The sender
    brings the passenger to [p], which it reaches within its moves.  A
    receiver that does not reach [p] within its moves leaves her there;
    one that does carries her on, along a shortest route to the
    destination, for the moves it has left: she ends on a cell [q] of such a
    route, [m] moves from [p]. *)
Definition residual_after_transfer (G : EnvGraph) (sender receiver dest : cors)
    (fs fr : Z) (p : cors) (res : Z) : Prop :=
  exists ds dr D,
    cell_distance G sender p ds /\ ds <= fs - 1 /\
    cell_distance G receiver p dr /\
    cell_distance G p dest D /\
    ((fr - 1 < dr /\ res = D) \/
     (dr <= fr - 1 /\
      exists q m, m = Z.min (fr - 1 - dr) D /\
        cell_distance G p q m /\ cell_distance G q dest res /\ m + res = D)).

(** ** Maps and states used as examples *)

(** One row of three cells. *)
Definition corridor3 : Desc := desc_of ["+-----+"; "| : : |"; "+-----+"]%string.

(** One column of two cells. *)
Definition column2 : Desc := desc_of ["+-+"; "| |"; "| |"; "+-+"]%string.

Definition corridor3_graph : EnvGraph :=
  mk_EnvGraph 1 3 (mk_nxGraph [0; 1; 2] [(0, 1); (1, 2)]).

Definition column2_graph : EnvGraph :=
  mk_EnvGraph 2 1 (mk_nxGraph [0; 1] [(0, 1)]).

(** Three rows of three cells, without walls. *)
Definition grid3 : Desc :=
  desc_of ["+-----+"; "| : : |"; "| : : |"; "| : : |"; "+-----+"]%string.

Definition grid3_graph : EnvGraph :=
  mk_EnvGraph 3 3
    (mk_nxGraph [0; 1; 2; 3; 4; 5; 6; 7; 8]
       [(0, 3); (0, 1); (1, 4); (1, 2); (2, 5); (3, 6); (3, 4); (4, 7); (4, 5); (5, 8);
        (6, 7); (7, 8)]).

(** Three rows of three cells with three walls: between the last two cells
    of the first row, between the first two cells of the second row, and
    none in the third row. *)
Definition walled3 : Desc :=
  desc_of ["+-----+"; "| : | |"; "| | : |"; "| : : |"; "+-----+"]%string.

Definition walled3_graph : EnvGraph :=
  mk_EnvGraph 3 3
    (mk_nxGraph [0; 1; 2; 3; 4; 5; 6; 7; 8]
       [(0, 3); (0, 1); (1, 4); (2, 5); (3, 6); (4, 7); (4, 5); (5, 8); (6, 7); (7, 8)]).

(** Two cells with a wall between them. *)
Definition walled2 : Desc := desc_of ["+---+"; "| | |"; "+---+"]%string.

Definition walled2_graph : EnvGraph := mk_EnvGraph 1 2 (mk_nxGraph [0; 1] []).

Definition two_taxis : list Taxi := [mk_Taxi 0 [] [] []; mk_Taxi 1 [] [] []].

(** Taxi 0 at [sender] and taxi 1 at [receiver], with their fuel; passenger
    0 is with taxi 0 and bound for [dest]. *)
Definition pair_state (sender receiver : cors) (fs fr : Z) (dest : cors) : State :=
  mk_State [sender; receiver] [fs; fr] [sender] [dest] [0].

(** Taxi 0 at the left end, taxi 1 and the passenger's destination at the
    right end; passenger 0 starts at the left end. *)
Definition corridor_state (fuel0 fuel1 : Z) : State :=
  mk_State [(0, 0); (0, 2)] [fuel0; fuel1] [(0, 0)] [(0, 2)] [0].

(** A taxi at the left end of the corridor, passenger 0 at the right end and
    passenger 1 in the middle; the pickup action has index 4. *)
Definition pickup_env : TaxiEnv :=
  mk_TaxiEnv (mk_State [(0, 0)] [5] [(0, 2); (0, 1)] [(0, 2); (0, 2)] [0; 0])
             [("pickup"%string, 4)].

(** ** Notions used to state the further properties *)

(** [n] calls of [get_next_step] in a row: the actions returned, and the
    taxi afterwards. *)
Fixpoint drain (n : nat) (t : Taxi) : list Z * Taxi :=
  match n with
  | O => ([], t)
  | S n' =>
      match Taxi_get_next_step t with
      | (Some a, t') => let r := drain n' t' in (a :: fst r, snd r)
      | (None, t') => drain n' t'
      end
  end.

(** The start location and the destination of a passenger whose index is
    valid. *)
Definition start_of (st : State) (p : Z) : cors :=
  match py_index (PASSENGERS_START_LOCATION st) p with
  | Some loc => loc
  | None => (0, 0)
  end.

Definition destination_of (st : State) (p : Z) : cors :=
  match py_index (PASSENGERS_DESTINATIONS st) p with
  | Some loc => loc
  | None => (0, 0)
  end.

(** A passenger index that selects a start location on the grid. *)
Definition valid_passenger (st : State) (G : EnvGraph) (p : Z) : Prop :=
  exists loc, py_index (PASSENGERS_START_LOCATION st) p = Some loc /\ in_grid G loc.

(** A passenger index that selects a destination on the grid. *)
Definition valid_destination (st : State) (G : EnvGraph) (p : Z) : Prop :=
  exists loc, py_index (PASSENGERS_DESTINATIONS st) p = Some loc /\ in_grid G loc.

(** The taxi with one more assigned passenger. *)
Definition assign (p : Z) (t : Taxi) : Taxi :=
  set_assigned_passengers t (assigned_passengers t ++ [p]).

(** The list with its element at position [k] replaced. *)
Definition replace_nth {A : Type} (k : nat) (a : A) (l : list A) : list A :=
  firstn k l ++ [a] ++ skipn (S k) l.

(** The key of a taxi in the dictionary of a step. *)
Definition step_key (t : Taxi) : string := ("taxi_" ++ str_of_int (taxi_index t + 1))%string.

(** The dictionary that holds, for every taxi whose queue has an action at
    position [r], that action under the taxi's key, in the order of the
    taxis. *)
Definition step_at (r : nat) (taxis : list Taxi) : list (string * Z) :=
  flat_map (fun t => match nth_error (actions_queue t) r with
                     | Some a => [(step_key t, a)]
                     | None => []
                     end) taxis.

(** The length of the longest queue. *)
Definition depth (taxis : list Taxi) : nat :=
  list_max (map (fun t => List.length (actions_queue t)) taxis).

(** ** Further examples *)

(** The corridor with two passengers, at the right end and in the middle,
    both bound for the left end; the taxis stand at the two ends. *)
Definition shared_state : State :=
  mk_State [(0, 0); (0, 2)] [5; 5] [(0, 2); (0, 1)] [(0, 0); (0, 0)] [0; 0].

(** The corridor state with the indices of the pickup action and of the
    drop-off action of passenger 0. *)
Definition dropoff_env : TaxiEnv :=
  mk_TaxiEnv (corridor_state 5 5) [("pickup"%string, 4); ("dropoff0"%string, 5)].

(** Two taxis with queued actions. *)
Definition queued_taxis : list Taxi :=
  [mk_Taxi 0 [] [2; 2] []; mk_Taxi 1 [] [3] []].
Lemma has_node_In g n : has_node g n = true <-> In n (nodes g).
Proof.
  unfold has_node. rewrite existsb_exists. split.
  - intros (x & Hin & Heq). apply Z.eqb_eq in Heq. now subst.
  - intros Hin. exists n. split; [assumption | apply Z.eqb_refl].
Qed.

Lemma neighbors_spec g u v :
  In v (neighbors g u) <-> has_node g v = true /\ has_edge g u v = true.
Proof.
  unfold neighbors. rewrite filter_In, has_node_In. tauto.
Qed.

Lemma is_walk_cons g s t u rest :
  is_walk g s t (u :: rest) = true ->
  u = s /\ has_node g u = true.
Proof.
  simpl. intros H. apply andb_prop in H. destruct H as [H _].
  apply andb_prop in H. destruct H as [H1 H2]. apply Z.eqb_eq in H1. tauto.
Qed.

Lemma is_walk_step g s t v rest :
  is_walk g s t (s :: v :: rest) = true <->
  has_node g s = true /\ has_edge g s v = true /\ is_walk g v t (v :: rest) = true.
Proof.
  cbn [is_walk]. rewrite Z.eqb_refl. rewrite !andb_true_iff. tauto.
Qed.

Lemma is_walk_single g s t :
  is_walk g s t [s] = true <-> has_node g s = true /\ s = t.
Proof.
  cbn [is_walk]. rewrite Z.eqb_refl, !andb_true_iff, Z.eqb_eq. tauto.
Qed.

Lemma is_walk_head g s t p :
  is_walk g s t p = true -> exists rest, p = s :: rest.
Proof.
  destruct p as [|u rest]; [discriminate|].
  intros H. apply is_walk_cons in H. destruct H as [-> _]. now exists rest.
Qed.

Lemma first_some_Some {A B} (f : A -> option B) l b :
  first_some f l = Some b -> exists a, In a l /\ f a = Some b.
Proof.
  induction l as [|a l IH]; simpl; [discriminate|].
  destruct (f a) eqn:E.
  - intros [= <-]. exists a. auto.
  - intros H. destruct (IH H) as (a' & Hin & Hf). exists a'. auto.
Qed.

Lemma first_some_None {A B} (f : A -> option B) l :
  first_some f l = None -> forall a, In a l -> f a = None.
Proof.
  induction l as [|a l IH]; simpl; [tauto|].
  destruct (f a) eqn:E; [discriminate|].
  intros H a' [<-|Hin]; auto.
Qed.

Lemma walk_upto_sound g k : forall u t p,
  has_node g u = true ->
  walk_upto g k u t = Some p ->
  is_walk g u t p = true /\ (List.length p <= S k)%nat.
Proof.
  induction k as [|k IH]; intros u t p Hu; simpl.
  - destruct (Z.eqb_spec u t); [|discriminate].
    intros [= <-]. split; [apply is_walk_single; auto | simpl; lia].
  - destruct (Z.eqb_spec u t).
    + intros [= <-]. split; [apply is_walk_single; auto | simpl; lia].
    + intros H. apply first_some_Some in H. destruct H as (v & Hin & Hv).
      apply neighbors_spec in Hin. destruct Hin as [Hnv Hev].
      destruct (walk_upto g k v t) as [q|] eqn:Eq; [|discriminate].
      simpl in Hv. injection Hv as <-.
      destruct (IH v t q Hnv Eq) as [Hw Hl].
      destruct (is_walk_head _ _ _ _ Hw) as [rest ->].
      split; [apply is_walk_step; auto | simpl in *; lia].
Qed.

Lemma walk_upto_complete g : forall w k u t,
  is_walk g u t w = true -> (List.length w <= S k)%nat ->
  exists p, walk_upto g k u t = Some p.
Proof.
  induction w as [|x rest IH]; intros k u t Hw Hl; [discriminate|].
  destruct (is_walk_cons _ _ _ _ _ Hw) as [-> Hu].
  destruct k as [|k]; simpl.
  - destruct rest as [|v rest]; [|simpl in Hl; lia].
    apply is_walk_single in Hw. destruct Hw as [_ ->].
    rewrite Z.eqb_refl. eauto.
  - destruct (Z.eqb_spec u t); [eauto|].
    destruct rest as [|v rest].
    + apply is_walk_single in Hw. tauto.
    + apply is_walk_step in Hw. destruct Hw as (_ & He & Hw).
      destruct (IH k v t Hw) as [q Hq]; [simpl in *; lia|].
      destruct (is_walk_cons _ _ _ _ _ Hw) as [_ Hv].
      destruct (first_some (fun v0 => option_map (cons u) (walk_upto g k v0 t)) (neighbors g u)) eqn:E; [eauto|].
      exfalso. pose proof (first_some_None _ _ E v) as Hn.
      assert (Hin : In v (neighbors g u)) by (apply neighbors_spec; auto).
      specialize (Hn Hin). cbv beta in Hn. rewrite Hq in Hn. discriminate.
Qed.

Lemma deepen_sound g : forall n k s t p,
  has_node g s = true ->
  deepen g n k s t = Some p ->
  exists k', (k <= k')%nat /\ walk_upto g k' s t = Some p /\
             forall j, (k <= j < k')%nat -> walk_upto g j s t = None.
Proof.
  induction n as [|n IH]; intros k s t p Hs; simpl.
  - destruct (walk_upto g k s t) eqn:E; [|discriminate].
    intros [= <-]. exists k. repeat split; auto. intros; lia.
  - destruct (walk_upto g k s t) eqn:E.
    + intros [= <-]. exists k. repeat split; auto. intros; lia.
    + intros H. destruct (IH _ _ _ _ Hs H) as (k' & Hle & Hk' & Hmin).
      exists k'. repeat split; auto; [lia|].
      intros j Hj. destruct (Nat.eq_dec j k) as [->|]; auto. apply Hmin. lia.
Qed.

Lemma deepen_complete g : forall n k s t j,
  (k <= j <= k + n)%nat -> walk_upto g j s t <> None ->
  deepen g n k s t <> None.
Proof.
  induction n as [|n IH]; intros k s t j Hj Hw; simpl.
  - assert (j = k) by lia. subst. destruct (walk_upto g k s t); congruence.
  - destruct (walk_upto g k s t) eqn:E; [congruence|].
    apply (IH (S k) s t j); auto.
    assert (j <> k) by congruence. lia.
Qed.

(** A walk that passes through [u] continues from [u]. *)
Lemma is_walk_suffix g t : forall l1 s u l2,
  is_walk g s t (l1 ++ u :: l2) = true -> is_walk g u t (u :: l2) = true.
Proof.
  induction l1 as [|x l1 IH]; intros s u l2 H.
  - simpl app in H. destruct (is_walk_cons _ _ _ _ _ H) as [-> _]. exact H.
  - simpl app in H. destruct (is_walk_cons _ _ _ _ _ H) as [-> _].
    destruct (l1 ++ u :: l2) as [|v r] eqn:E.
    + destruct l1; discriminate.
    + apply is_walk_step in H. destruct H as (_ & _ & H).
      rewrite <- E in H. eapply IH; eauto.
Qed.

Lemma is_walk_nodes g s t p :
  is_walk g s t p = true -> forall n, In n p -> In n (nodes g).
Proof.
  revert s. induction p as [|u rest IH]; intros s H n Hin; [contradiction|].
  destruct (is_walk_cons _ _ _ _ _ H) as [-> Hu].
  destruct Hin as [<-|Hin]; [now apply has_node_In|].
  destruct rest as [|v r]; [contradiction|].
  apply is_walk_step in H. destruct H as (_ & _ & H). eapply IH; eauto.
Qed.

(** Every walk contains a walk without a repeated node. *)
Lemma is_walk_simple g t : forall w s,
  is_walk g s t w = true ->
  exists w', is_walk g s t w' = true /\ NoDup w' /\ (List.length w' <= List.length w)%nat.
Proof.
  induction w as [|u rest IH]; intros s H; [discriminate|].
  destruct (is_walk_cons _ _ _ _ _ H) as [-> Hs].
  destruct rest as [|v r].
  - exists [s]. repeat split; auto. constructor; [simpl; tauto | constructor].
  - apply is_walk_step in H. destruct H as (_ & He & H).
    destruct (IH v H) as (w' & Hw' & Hnd & Hl).
    destruct (in_dec Z.eq_dec s w') as [Hin|Hnin].
    + apply in_split in Hin. destruct Hin as (l1 & l2 & ->).
      exists (s :: l2). split; [eapply is_walk_suffix; eauto|].
      split.
      * apply NoDup_app_remove_l in Hnd. exact Hnd.
      * rewrite length_app in Hl. simpl in *. lia.
    + destruct (is_walk_head _ _ _ _ Hw') as [r' ->].
      exists (s :: v :: r'). split; [apply is_walk_step; auto|].
      split; [constructor; auto | simpl in *; lia].
Qed.

Theorem search_shortest_path_spec g : shortest_path_spec search_shortest_path g.
Proof.
  split.
  - intros s t p. unfold search_shortest_path.
    destruct (has_node g s) eqn:Hs; [|discriminate].
    destruct (has_node g t) eqn:Ht; [|discriminate]. simpl.
    intros H. destruct (deepen_sound _ _ _ _ _ _ Hs H) as (k' & _ & Hk' & _).
    eapply walk_upto_sound; eauto.
  - intros s t w Hw.
    destruct (is_walk_simple _ _ _ _ Hw) as (w' & Hw' & Hnd & Hl).
    assert (Hs : has_node g s = true).
    { destruct (is_walk_head _ _ _ _ Hw) as [r ->]. now apply is_walk_cons in Hw. }
    assert (Ht : has_node g t = true).
    { apply has_node_In. eapply is_walk_nodes; [exact Hw|].
      clear - Hw. revert s Hw. induction w as [|u rest IH]; intros s Hw; [discriminate|].
      destruct (is_walk_cons _ _ _ _ _ Hw) as [-> _].
      destruct rest as [|v r].
      - apply is_walk_single in Hw. destruct Hw as [_ ->]. now left.
      - apply is_walk_step in Hw. destruct Hw as (_ & _ & Hw). right. eapply IH; eauto. }
    assert (Hlen : (List.length w' <= List.length (nodes g))%nat).
    { apply NoDup_incl_length; auto. intros n Hn. eapply is_walk_nodes; eauto. }
    assert (Hpos : (1 <= List.length w')%nat).
    { destruct w'; [discriminate | simpl; lia]. }
    destruct (walk_upto_complete g w' (List.length w' - 1) s t Hw') as [q Hq]; [lia|].
    unfold search_shortest_path. rewrite Hs, Ht. simpl.
    destruct (deepen g (List.length (nodes g)) 0 s t) as [p|] eqn:E.
    + exists p. split; auto.
      destruct (deepen_sound _ _ _ _ _ _ Hs E) as (k' & _ & Hk' & Hmin).
      destruct (walk_upto_sound _ _ _ _ _ Hs Hk') as [_ Hlp].
      destruct (le_lt_dec k' (List.length w' - 1)); [lia|].
      rewrite Hmin in Hq by lia. discriminate.
    + exfalso. eapply deepen_complete; [| |exact E].
      2: rewrite Hq; discriminate. lia.
Qed.

(** * Properties *)

(** ** Lists and indices *)

Lemma len_nonneg {A} (l : list A) : 0 <= len l.
Proof. unfold len. lia. Qed.

Lemma len_cons {A} (a : A) l : len (a :: l) = len l + 1.
Proof. unfold len. simpl List.length. lia. Qed.

Lemma py_index_nonneg {A} (l : list A) i :
  0 <= i -> py_index l i = nth_error l (Z.to_nat i).
Proof.
  intros H. unfold py_index. destruct (Z.ltb_spec i 0); [lia | reflexivity].
Qed.

Lemma py_index_in_range {A} (l : list A) i :
  0 <= i < len l -> exists a, py_index l i = Some a.
Proof.
  intros H. rewrite py_index_nonneg by lia.
  destruct (nth_error l (Z.to_nat i)) eqn:E; [eauto|].
  apply nth_error_None in E. unfold len in H. lia.
Qed.

Lemma py_index_In {A} (l : list A) i a : py_index l i = Some a -> In a l.
Proof.
  unfold py_index. destruct (i <? 0).
  - destruct (i + len l <? 0); [discriminate|]. apply nth_error_In.
  - apply nth_error_In.
Qed.

Lemma In_range n N : In n (range N) <-> 0 <= n < N.
Proof.
  unfold range. rewrite in_map_iff. split.
  - intros (k & <- & Hk). apply in_seq in Hk. lia.
  - intros H. exists (Z.to_nat n). split; [lia|]. apply in_seq. lia.
Qed.

Lemma mapM_Some {A B} (f : A -> option B) l :
  (forall a, In a l -> exists b, f a = Some b) ->
  exists bs, mapM f l = Some bs.
Proof.
  induction l as [|a l IH]; intros H; simpl; [eauto|].
  destruct (H a) as [b ->]; [now left|].
  destruct IH as [bs ->]; [intros; apply H; now right|]. eauto.
Qed.

Lemma mapM_total {A B} (f : A -> option B) (g : A -> B) l :
  (forall a, In a l -> f a = Some (g a)) -> mapM f l = Some (map g l).
Proof.
  induction l as [|a l IH]; intros H; simpl; [reflexivity|].
  rewrite (H a) by now left. rewrite IH; [reflexivity|]. intros; apply H; now right.
Qed.

Lemma mapM_In {A B} (f : A -> option B) l bs :
  mapM f l = Some bs -> forall b, In b bs -> exists a, In a l /\ f a = Some b.
Proof.
  revert bs. induction l as [|a l IH]; intros bs; simpl.
  - intros [= <-] b [].
  - destruct (f a) as [b0|] eqn:E; [|discriminate].
    destruct (mapM f l) as [bs0|]; [|discriminate].
    intros [= <-] b [<-|Hin]; [eauto|].
    destruct (IH _ eq_refl b Hin) as (a' & Ha' & Hf). eauto.
Qed.

(** ** The grid and its graph *)

Lemma EnvGraph_init_nodes desc G :
  EnvGraph_init desc = Some G -> nodes (graph G) = range (rows G * cols G).
Proof.
  unfold EnvGraph_init. destruct (py_index desc 0); [|discriminate].
  destruct (mapM _ _); [|discriminate]. intros [= <-]. reflexivity.
Qed.

Lemma EnvGraph_init_has_node desc G n :
  EnvGraph_init desc = Some G ->
  (has_node (graph G) n = true <-> 0 <= n < rows G * cols G).
Proof.
  intros H. rewrite has_node_In, (EnvGraph_init_nodes _ _ H). apply In_range.
Qed.

Lemma cors_to_node_range G p :
  in_grid G p -> 0 <= cors_to_node (cols G) p < rows G * cols G.
Proof.
  unfold in_grid, cors_to_node. destruct p as [r c]; simpl. intros [Hr Hc]. nia.
Qed.

Lemma Z_mod_add_l' a b c : b <> 0 -> (a * b + c) mod b = c mod b.
Proof. intros H. rewrite Z.add_comm. now apply Z.mod_add. Qed.

Lemma node_to_cors_to_node n_cols p :
  0 <= snd p < n_cols -> node_to_cors n_cols (cors_to_node n_cols p) = p.
Proof.
  destruct p as [r c]; unfold node_to_cors, cors_to_node; simpl. intros H.
  rewrite Z.div_add_l, Z_mod_add_l' by lia.
  rewrite Z.div_small, Z.mod_small by lia.
  f_equal. lia.
Qed.

Lemma EnvGraph_init_cols desc G :
  EnvGraph_init desc = Some G -> 0 <= cols G.
Proof.
  unfold EnvGraph_init. destruct (py_index desc 0) as [first|]; [|discriminate].
  destruct (mapM _ _); [|discriminate]. intros [= <-]. simpl.
  apply Z.div_pos; [apply len_nonneg | lia].
Qed.

Lemma node_to_cors_in_grid G n :
  0 <= cols G ->
  0 <= n < rows G * cols G ->
  in_grid G (node_to_cors (cols G) n) /\
  cors_to_node (cols G) (node_to_cors (cols G) n) = n.
Proof.
  intros Hc0 H.
  assert (Hc : 0 < cols G).
  { destruct (Z.eq_dec (cols G) 0) as [E|]; [rewrite E, Z.mul_0_r in H|]; lia. }
  unfold in_grid, node_to_cors, cors_to_node; simpl.
  pose proof (Z.mod_pos_bound n (cols G) Hc) as Hm.
  assert (Hdm : n = cols G * (n / cols G) + n mod cols G) by (apply Z.div_mod; lia).
  assert (Hq : 0 <= n / cols G) by (apply Z.div_pos; lia).
  assert (Hq' : n / cols G < rows G).
  { apply Z.div_lt_upper_bound; [assumption|]. rewrite Z.mul_comm. apply H. }
  repeat split; lia.
Qed.

Lemma cors_to_node_inj G a b :
  in_grid G a -> in_grid G b ->
  cors_to_node (cols G) a = cors_to_node (cols G) b -> a = b.
Proof.
  intros Ha Hb H.
  rewrite <- (node_to_cors_to_node (cols G) a), <- (node_to_cors_to_node (cols G) b), H;
    [reflexivity | apply Hb | apply Ha].
Qed.

(** ** Walks *)

Lemma is_walk_prefix g t : forall p s i u,
  is_walk g s t p = true -> nth_error p i = Some u ->
  is_walk g s u (firstn (S i) p) = true.
Proof.
  induction p as [|x rest IH]; intros s i u Hw Hi; [discriminate|].
  destruct (is_walk_cons _ _ _ _ _ Hw) as [-> Hs].
  destruct i as [|i].
  - simpl in Hi. injection Hi as <-. simpl firstn. apply is_walk_single. auto.
  - destruct rest as [|v r]; [destruct i; discriminate|].
    apply is_walk_step in Hw. destruct Hw as (_ & He & Hw).
    simpl in Hi. specialize (IH v i u Hw Hi).
    change (firstn (S (S i)) (s :: v :: r)) with (s :: firstn (S i) (v :: r)).
    simpl firstn in *. apply is_walk_step. auto.
Qed.

Lemma is_walk_last g s t p :
  is_walk g s t p = true -> nth_error p (List.length p - 1) = Some t.
Proof.
  revert s. induction p as [|x rest IH]; intros s Hw; [discriminate|].
  destruct (is_walk_cons _ _ _ _ _ Hw) as [-> Hs].
  destruct rest as [|v r].
  - apply is_walk_single in Hw. destruct Hw as [_ ->]. reflexivity.
  - apply is_walk_step in Hw. destruct Hw as (_ & _ & Hw).
    specialize (IH v Hw). simpl in *. rewrite Nat.sub_0_r in IH. exact IH.
Qed.

Lemma path_actions_length n_cols p :
  List.length (path_actions n_cols p) = (List.length p - 1)%nat.
Proof.
  induction p as [|u rest IH]; [reflexivity|].
  destruct rest as [|v r]; [reflexivity|].
  change (path_actions n_cols (u :: v :: r))
    with (action_of_delta n_cols (v - u) :: path_actions n_cols (v :: r)).
  simpl List.length in *. lia.
Qed.

(** ** Paths on the grid *)

Section PlanningFacts.

Variable sp : nxGraph -> Z -> Z -> option (list Z).
Variable desc : Desc.
Variable G : EnvGraph.

Hypothesis Hsp : shortest_path_spec sp (graph G).
Hypothesis Hinit : EnvGraph_init desc = Some G.

Lemma get_path_same x : get_path sp G x x = Some ([], []).
Proof. unfold get_path. now rewrite Z.eqb_refl. Qed.

Lemma cost_same x : cost sp G x x = 0.
Proof. unfold cost, path_cost. now rewrite get_path_same. Qed.

Lemma in_grid_has_node a : in_grid G a -> has_node (graph G) (cors_to_node (cols G) a) = true.
Proof.
  intros H. apply (EnvGraph_init_has_node _ _ _ Hinit). now apply cors_to_node_range.
Qed.

Lemma walk_node_in_grid s t p n :
  is_walk (graph G) s t p = true -> In n p ->
  in_grid G (node_to_cors (cols G) n) /\
  cors_to_node (cols G) (node_to_cors (cols G) n) = n.
Proof.
  intros Hw Hin. apply node_to_cors_in_grid; [eapply EnvGraph_init_cols; eauto|].
  apply (EnvGraph_init_has_node _ _ _ Hinit), has_node_In. eapply is_walk_nodes; eauto.
Qed.

(** The shape of a path between two different cells. *)
Lemma get_path_walk a b cells acts :
  in_grid G a ->
  cors_to_node (cols G) a <> cors_to_node (cols G) b ->
  get_path sp G a b = Some (cells, acts) ->
  exists p,
    is_walk (graph G) (cors_to_node (cols G) a) (cors_to_node (cols G) b) p = true /\
    a :: cells = map (node_to_cors (cols G)) p /\
    acts = path_actions (cols G) p.
Proof.
  intros Ha Hne. unfold get_path.
  destruct (Z.eqb_spec (cors_to_node (cols G) a) (cors_to_node (cols G) b)); [contradiction|].
  destruct (sp _ _ _) as [p|] eqn:E; [|discriminate].
  intros [= <- <-]. exists p. destruct Hsp as [Hwalk _].
  specialize (Hwalk _ _ _ E). split; [assumption|]. split; [|reflexivity].
  destruct (is_walk_head _ _ _ _ Hwalk) as [rest ->]. simpl.
  rewrite node_to_cors_to_node; [reflexivity | apply Ha].
Qed.

Lemma get_path_lengths a b cells acts :
  in_grid G a -> get_path sp G a b = Some (cells, acts) -> len cells = len acts.
Proof.
  intros Ha H.
  destruct (Z.eq_dec (cors_to_node (cols G) a) (cors_to_node (cols G) b)) as [E|E].
  - unfold get_path in H. rewrite E, Z.eqb_refl in H. now injection H as <- <-.
  - destruct (get_path_walk _ _ _ _ Ha E H) as (p & _ & Hc & ->).
    unfold len. f_equal. rewrite path_actions_length.
    apply (f_equal (@List.length _)) in Hc. rewrite length_map in Hc. simpl in Hc. lia.
Qed.

(** A walk between two cells bounds their cost. *)
Lemma cost_le_walk a b w :
  is_walk (graph G) (cors_to_node (cols G) a) (cors_to_node (cols G) b) w = true ->
  exists c, path_cost sp G a b = Some c /\ c = cost sp G a b /\ 0 <= c <= len w - 1.
Proof.
  intros Hw. unfold cost, path_cost, get_path.
  assert (1 <= len w) by (destruct w; [discriminate | rewrite len_cons; pose proof (len_nonneg w); lia]).
  destruct (Z.eqb_spec (cors_to_node (cols G) a) (cors_to_node (cols G) b)).
  - exists 0. simpl. split; [reflexivity|]. split; [reflexivity | lia].
  - destruct Hsp as [_ Hmin]. destruct (Hmin _ _ _ Hw) as (p & -> & Hl).
    simpl. eexists. split; [reflexivity|]. split; [reflexivity|].
    unfold len in *. rewrite path_actions_length. lia.
Qed.

(** The cell at position [i] of a path, counted from the origin, is on the
    grid and costs at most [i] from the origin. *)
Lemma path_point a b cells acts i q :
  in_grid G a ->
  get_path sp G a b = Some (cells, acts) ->
  nth_error (a :: cells) i = Some q ->
  in_grid G q /\ path_cost sp G a q = Some (cost sp G a q) /\ 0 <= cost sp G a q <= Z.of_nat i.
Proof.
  intros Ha H Hi.
  destruct (Z.eq_dec (cors_to_node (cols G) a) (cors_to_node (cols G) b)) as [E|E].
  - unfold get_path in H. rewrite E, Z.eqb_refl in H. injection H as <- <-.
    destruct i as [|[|i]]; try discriminate. injection Hi as <-.
    split; [assumption|]. rewrite cost_same. unfold path_cost.
    rewrite get_path_same. simpl. split; [reflexivity | lia].
  - destruct (get_path_walk _ _ _ _ Ha E H) as (p & Hw & Hc & _).
    rewrite Hc in Hi. rewrite nth_error_map in Hi.
    destruct (nth_error p i) as [n|] eqn:En; [|discriminate]. injection Hi as <-.
    destruct (walk_node_in_grid _ _ _ n Hw (nth_error_In _ _ En)) as [Hg Hn].
    split; [assumption|].
    pose proof (is_walk_prefix _ _ _ _ _ _ Hw En) as Hpre.
    rewrite <- Hn in Hpre.
    destruct (cost_le_walk _ _ _ Hpre) as (c & Hc1 & Hc2 & Hc3).
    rewrite <- Hc2. split; [assumption|].
    assert (len (firstn (S i) p) <= Z.of_nat (S i)).
    { unfold len. rewrite length_firstn. lia. }
    lia.
Qed.

(** The path ends at its target. *)
Lemma path_end a b cells acts :
  in_grid G a -> in_grid G b ->
  get_path sp G a b = Some (cells, acts) ->
  nth_error (a :: cells) (List.length acts) = Some b.
Proof.
  intros Ha Hb H.
  destruct (Z.eq_dec (cors_to_node (cols G) a) (cors_to_node (cols G) b)) as [E|E].
  - unfold get_path in H. rewrite E, Z.eqb_refl in H. injection H as <- <-.
    simpl. f_equal. eapply cors_to_node_inj; eauto.
  - destruct (get_path_walk _ _ _ _ Ha E H) as (p & Hw & Hc & ->).
    rewrite Hc, nth_error_map, path_actions_length, (is_walk_last _ _ _ _ Hw). simpl.
    f_equal. apply node_to_cors_to_node. apply Hb.
Qed.

Hypothesis Hconn : connected G.

Lemma path_cost_total a b :
  in_grid G a -> in_grid G b ->
  path_cost sp G a b = Some (cost sp G a b) /\ 0 <= cost sp G a b.
Proof.
  intros Ha Hb. destruct (Hconn a b Ha Hb) as [w Hw].
  destruct (cost_le_walk _ _ _ Hw) as (c & Hc1 & Hc2 & Hc3). subst c.
  split; [assumption | lia].
Qed.

Lemma get_path_total a b :
  in_grid G a -> in_grid G b ->
  exists cells acts, get_path sp G a b = Some (cells, acts) /\
    cells = path_cells sp G a b /\ len acts = cost sp G a b.
Proof.
  intros Ha Hb. destruct (path_cost_total a b Ha Hb) as [H _].
  unfold path_cost in H. unfold path_cells, cost, path_cost.
  destruct (get_path sp G a b) as [[cells acts]|]; [|discriminate].
  exists cells, acts. simpl. auto.
Qed.

End PlanningFacts.

(** ** Keeping the first minimum *)

Lemma first_min_snoc {A} (score : A -> option Z) l a :
  first_min score (l ++ [a]) = scan_step score (first_min score l) a.
Proof. unfold first_min. now rewrite fold_left_app. Qed.

Lemma first_min_spec {A} (score : A -> option Z) l :
  match first_min score l with
  | None => forall a, In a l -> score a = None
  | Some (a, d) => exists k, is_first_min score l k a d
  end.
Proof.
  induction l as [|x l IH] using rev_ind.
  - simpl. intros a [].
  - rewrite first_min_snoc. unfold scan_step.
    destruct (score x) as [dx|] eqn:Ex.
    + destruct (first_min score l) as [[a m]|].
      * destruct IH as (k & Hk & Ha & Hmin).
        assert (Hlt : (k < List.length l)%nat) by (apply nth_error_Some; congruence).
        destruct (Z.ltb_spec dx m).
        -- exists (List.length l). split; [|split; [assumption|]].
           { rewrite nth_error_app2, Nat.sub_diag by lia. reflexivity. }
           intros j b e Hj Hb.
           destruct (Nat.lt_ge_cases j (List.length l)) as [Hjl|Hjl].
           ++ rewrite nth_error_app1 in Hj by assumption.
              destruct (Hmin _ _ _ Hj Hb). lia.
           ++ split; [|lia]. rewrite nth_error_app2 in Hj by assumption.
              destruct (j - List.length l)%nat as [|[|n]]; try discriminate.
              injection Hj as <-. rewrite Ex in Hb. injection Hb as <-. lia.
        -- exists k. split; [|split; [assumption|]].
           { rewrite nth_error_app1 by assumption. assumption. }
           intros j b e Hj Hb.
           destruct (Nat.lt_ge_cases j (List.length l)) as [Hjl|Hjl].
           ++ rewrite nth_error_app1 in Hj by assumption. eauto.
           ++ rewrite nth_error_app2 in Hj by assumption.
              destruct (j - List.length l)%nat as [|[|n]]; try discriminate.
              injection Hj as <-. rewrite Ex in Hb. injection Hb as <-. lia.
      * exists (List.length l). split; [|split; [assumption|]].
        { rewrite nth_error_app2, Nat.sub_diag by lia. reflexivity. }
        intros j b e Hj Hb.
        destruct (Nat.lt_ge_cases j (List.length l)) as [Hjl|Hjl].
        -- rewrite nth_error_app1 in Hj by assumption.
           rewrite (IH b (nth_error_In _ _ Hj)) in Hb. discriminate.
        -- split; [|lia]. rewrite nth_error_app2 in Hj by assumption.
           destruct (j - List.length l)%nat as [|[|n]]; try discriminate.
           injection Hj as <-. rewrite Ex in Hb. injection Hb as <-. lia.
    + destruct (first_min score l) as [[a m]|].
      * destruct IH as (k & Hk & Ha & Hmin).
        assert (Hlt : (k < List.length l)%nat) by (apply nth_error_Some; congruence).
        exists k. split; [|split; [assumption|]].
        { rewrite nth_error_app1 by assumption. assumption. }
        intros j b e Hj Hb.
        destruct (Nat.lt_ge_cases j (List.length l)) as [Hjl|Hjl].
        -- rewrite nth_error_app1 in Hj by assumption. eauto.
        -- rewrite nth_error_app2 in Hj by assumption.
           destruct (j - List.length l)%nat as [|[|n]]; try discriminate.
           injection Hj as <-. congruence.
      * intros a Hin. apply in_app_or in Hin. destruct Hin as [Hin|[<-|[]]]; auto.
Qed.

Lemma is_first_min_unique {A} (score : A -> option Z) l k a d k' a' d' :
  is_first_min score l k a d -> is_first_min score l k' a' d' ->
  k = k' /\ a = a' /\ d = d'.
Proof.
  intros (Hk & Ha & Hmin) (Hk' & Ha' & Hmin').
  destruct (Hmin _ _ _ Hk' Ha') as [H1 H2].
  destruct (Hmin' _ _ _ Hk Ha) as [H3 H4].
  assert (d = d') by lia. subst d'.
  assert (k = k') by (specialize (H2 eq_refl); specialize (H4 eq_refl); lia). subst k'.
  split; [reflexivity|]. split; [congruence | reflexivity].
Qed.

Lemma first_min_Some {A} (score : A -> option Z) l k a d :
  is_first_min score l k a d -> first_min score l = Some (a, d).
Proof.
  intros H. pose proof (first_min_spec score l) as Hs.
  destruct (first_min score l) as [[a' d']|].
  - destruct Hs as [k' Hk']. destruct (is_first_min_unique _ _ _ _ _ _ _ _ Hk' H) as (_ & -> & ->).
    reflexivity.
  - destruct H as (Hk & Ha & _). rewrite (Hs a (nth_error_In _ _ Hk)) in Ha. discriminate.
Qed.

Lemma first_min_none {A} (score : A -> option Z) l :
  (forall a, In a l -> score a = None) -> first_min score l = None.
Proof.
  intros H. pose proof (first_min_spec score l) as Hs.
  destruct (first_min score l) as [[a d]|]; [|reflexivity].
  destruct Hs as (k & Hk & Ha & _). rewrite (H a) in Ha; [discriminate|].
  eapply nth_error_In; eauto.
Qed.

(** ** Connected maps *)

Lemma all_joined_connected desc G :
  EnvGraph_init desc = Some G -> all_joined (graph G) = true -> connected G.
Proof.
  intros Hinit Hall a b Ha Hb. unfold all_joined in Hall.
  rewrite forallb_forall in Hall.
  assert (Hna : In (cors_to_node (cols G) a) (nodes (graph G))).
  { apply has_node_In, (EnvGraph_init_has_node _ _ _ Hinit). now apply cors_to_node_range. }
  assert (Hnb : In (cors_to_node (cols G) b) (nodes (graph G))).
  { apply has_node_In, (EnvGraph_init_has_node _ _ _ Hinit). now apply cors_to_node_range. }
  specialize (Hall _ Hna). rewrite forallb_forall in Hall. specialize (Hall _ Hnb).
  destruct (search_shortest_path _ _ _) as [p|] eqn:E; [|discriminate].
  exists p. now apply (proj1 (search_shortest_path_spec (graph G))).
Qed.

Lemma corridor3_init : EnvGraph_init corridor3 = Some corridor3_graph.
Proof. reflexivity. Qed.

Lemma corridor3_connected : connected corridor3_graph.
Proof. apply (all_joined_connected corridor3); reflexivity. Qed.

Lemma corridor_valid_taxis f0 f1 :
  Forall (valid_taxi (corridor_state f0 f1) corridor3_graph) two_taxis.
Proof.
  repeat constructor.
  - exists (0, 0), f0. repeat split; simpl; lia.
  - exists (0, 2), f1. repeat split; simpl; lia.
Qed.

(** ** [min] with a key *)

Lemma min_from_scan {A} (key : A -> Z) l : forall best,
  fold_left (scan_step (fun a => Some (key a))) l (Some (best, key best)) =
  Some (min_from key best l, key (min_from key best l)).
Proof.
  induction l as [|a l IH]; intros best; [reflexivity|].
  cbn [fold_left min_from]. unfold scan_step at 2.
  destruct (key a <? key best); apply IH.
Qed.

Lemma py_min_by_first_min {A} (key : A -> Z) l :
  py_min_by key l = option_map fst (first_min (fun a => Some (key a)) l).
Proof.
  destruct l as [|a l]; [reflexivity|].
  unfold first_min. cbn [fold_left py_min_by]. unfold scan_step at 2.
  now rewrite min_from_scan.
Qed.

Lemma scan_map {A B} (g : A -> B) (score : B -> option Z) l : forall acc,
  fold_left (scan_step score) (map g l) (option_map (fun r => (g (fst r), snd r)) acc) =
  option_map (fun r => (g (fst r), snd r))
             (fold_left (scan_step (fun a => score (g a))) l acc).
Proof.
  induction l as [|a l IH]; intros acc; [reflexivity|].
  cbn [map fold_left]. rewrite <- IH. f_equal.
  unfold scan_step. destruct (score (g a)) as [d|]; [|reflexivity].
  destruct acc as [[b m]|]; simpl; [|reflexivity].
  now destruct (d <? m).
Qed.

Lemma py_min_by_map {A B} (g : A -> B) (key : B -> Z) l :
  py_min_by key (map g l) =
  option_map (fun r => g (fst r)) (first_min (fun a => Some (key (g a))) l).
Proof.
  rewrite py_min_by_first_min. unfold first_min.
  change (@None (B * Z)) with (option_map (fun r : A * Z => (g (fst r), snd r)) None).
  rewrite scan_map. now destruct (fold_left _ l None).
Qed.

(** ** Allocation: the closest taxi and the case without collaboration *)

Lemma fold_left_None {A B} (f : option B -> A -> option B) l :
  (forall a, f None a = None) -> fold_left f l None = None.
Proof. intros H. induction l as [|a l IH]; simpl; [reflexivity | now rewrite H]. Qed.




Section AllocationFacts.

Variable sp : nxGraph -> Z -> Z -> option (list Z).
Variable desc : Desc.
Variable G : EnvGraph.

Hypothesis Hsp : shortest_path_spec sp (graph G).
Hypothesis Hinit : EnvGraph_init desc = Some G.
Hypothesis Hconn : connected G.

Lemma valid_taxi_location st t :
  valid_taxi st G t ->
  Taxi_get_location st t = Some (location_of st t) /\ in_grid G (location_of st t) /\
  Taxi_get_fuel st t = Some (fuel_of st t).
Proof.
  intros (loc & fuel & Hl & Hg & Hf).
  unfold Taxi_get_location, Taxi_get_fuel, location_of, fuel_of. rewrite Hl, Hf. auto.
Qed.

Lemma Taxi_path_cost_total st t dest :
  valid_taxi st G t -> in_grid G dest ->
  Taxi_path_cost sp st G t dest None = Some (cost sp G (location_of st t) dest).
Proof.
  intros Hv Hd. destruct (valid_taxi_location _ _ Hv) as (Hl & Hg & _).
  unfold Taxi_path_cost. unfold Taxi_get_location in Hl. rewrite Hl.
  destruct (path_cost_total sp G Hsp Hconn _ _ Hg Hd) as [H _].
  unfold path_cost in H. exact H.
Qed.

Lemma Taxi_path_cost_from st t origin dest :
  in_grid G origin -> in_grid G dest ->
  Taxi_path_cost sp st G t dest (Some origin) = Some (cost sp G origin dest).
Proof.
  intros Ho Hd. unfold Taxi_path_cost.
  destruct (path_cost_total sp G Hsp Hconn _ _ Ho Hd) as [H _].
  unfold path_cost in H. exact H.
Qed.

Lemma closest_step_scan st dest acc t :
  in_grid G dest -> valid_taxi st G t ->
  closest_step sp st G dest (Some (closest_acc acc)) t =
  Some (closest_acc (scan_step (within_fuel sp st G dest) acc t)).
Proof.
  intros Hd Hv. destruct (valid_taxi_location _ _ Hv) as (Hl & Hg & Hf).
  unfold closest_step. rewrite Hl, Hf.
  destruct (path_cost_total sp G Hsp Hconn _ _ Hg Hd) as [-> _].
  unfold scan_step, within_fuel.
  destruct (cost sp G (location_of st t) dest <? fuel_of st t).
  - destruct acc as [[t0 m]|]; simpl.
    + rewrite andb_true_r. now destruct (_ <? m).
    + reflexivity.
  - now rewrite andb_false_r.
Qed.

Lemma closest_fold_scan st dest taxis : forall acc,
  in_grid G dest -> Forall (valid_taxi st G) taxis ->
  fold_left (closest_step sp st G dest) taxis (Some (closest_acc acc)) =
  Some (closest_acc (fold_left (scan_step (within_fuel sp st G dest)) taxis acc)).
Proof.
  induction taxis as [|t taxis IH]; intros acc Hd Hv; [reflexivity|].
  inversion Hv as [|? ? Ht Hrest]; subst. cbn [fold_left].
  rewrite closest_step_scan by assumption. now apply IH.
Qed.

(** What [find_closest_taxi] returns, by the scan it performs. *)
Lemma find_closest_taxi_scan st taxis dest :
  in_grid G dest -> Forall (valid_taxi st G) taxis ->
  find_closest_taxi sp st G taxis dest =
  Some (match first_min (within_fuel sp st G dest) taxis with
        | Some (t, _) => taxi_index t
        | None => -1
        end).
Proof.
  intros Hd Hv. unfold find_closest_taxi.
  change (Inf, -1) with (closest_acc None).
  rewrite closest_fold_scan by assumption. unfold first_min.
  now destruct (fold_left _ taxis None) as [[t d]|].
Qed.



End AllocationFacts.

(** ** The allocation round *)

Lemma decide_step_scan p acc b :
  decide_step (Some (decide_acc p acc)) (allocation_message (fst b) p (snd b)) =
  Some (decide_acc p (scan_step bid_cost acc b)).
Proof.
  unfold decide_step, allocation_message, scan_step, bid_cost. cbn [dict_get String.eqb Ascii.eqb Bool.eqb as_int].
  destruct acc as [[b0 m]|]; simpl.
  - now destruct (snd b <? m).
  - reflexivity.
Qed.

Lemma decide_fold_scan p bids : forall acc,
  fold_left decide_step (bids_channel p bids) (Some (decide_acc p acc)) =
  Some (decide_acc p (fold_left (scan_step bid_cost) bids acc)).
Proof.
  induction bids as [|b bids IH]; intros acc; [reflexivity|].
  unfold bids_channel. cbn [map fold_left]. rewrite decide_step_scan. apply IH.
Qed.

(** C9. On a channel that holds bids for one passenger, [decide_assignments]
    appends the passenger to the taxi's assignments exactly when the first
    bid of minimal cost was sent by this taxi, and leaves the channel
    empty. *)
Theorem decide_assignments_first_min t p bids :
  0 <= taxi_index t ->
  communication_channel t = bids_channel p bids ->
  exists t',
    Taxi_decide_assignments t = Some t' /\
    communication_channel t' = [] /\
    taxi_index t' = taxi_index t /\
    actions_queue t' = actions_queue t /\
    ((exists k c, is_first_min bid_cost bids k (taxi_index t, c) c) ->
       assigned_passengers t' = assigned_passengers t ++ [p]) /\
    (~ (exists k c, is_first_min bid_cost bids k (taxi_index t, c) c) ->
       assigned_passengers t' = assigned_passengers t).
Proof.
  intros Hidx Hch. unfold Taxi_decide_assignments. rewrite Hch.
  change (mk_bid_state Inf (VInt (-1)) None) with (decide_acc p None).
  rewrite decide_fold_scan.
  pose proof (first_min_spec bid_cost bids) as Hs. unfold first_min in Hs.
  destruct (fold_left (scan_step bid_cost) bids None) as [[[ti c] d]|]; cbn [decide_acc fst].
  - destruct Hs as [k Hk]. cbn [bs_assigned_taxi bs_passenger_index val_eq_int as_int].
    assert (Hd : c = d).
    { destruct Hk as (_ & Hc & _). unfold bid_cost in Hc. simpl in Hc. congruence. }
    subst d.
    destruct (Z.eqb_spec ti (taxi_index t)) as [->|Hne].
    + eexists. split; [reflexivity|]. cbn. repeat split; auto.
      intros Hn. exfalso. apply Hn. eauto.
    + eexists. split; [reflexivity|]. cbn. repeat split; auto.
      intros (k' & c' & Hk'). exfalso.
      destruct (is_first_min_unique _ _ _ _ _ _ _ _ Hk Hk') as (_ & Heq & _). congruence.
  - cbn [bs_assigned_taxi val_eq_int].
    destruct (Z.eqb_spec (-1) (taxi_index t)) as [E|_]; [lia|].
    eexists. split; [reflexivity|]. cbn. repeat split; auto.
    intros (k & c & (Hk & _)). exfalso.
    specialize (Hs _ (nth_error_In _ _ Hk)). discriminate.
Qed.

(** ** The scan of the grid *)

Lemma nth_error_seq_Some a n i y :
  nth_error (seq a n) i = Some y -> (y = a + i /\ i < n)%nat.
Proof.
  revert a i. induction n as [|n IH]; intros a i; simpl.
  - destruct i; discriminate.
  - destruct i as [|i]; simpl.
    + intros [= <-]. lia.
    + intros H. apply IH in H. lia.
Qed.

Lemma nth_error_range N i x :
  nth_error (range N) i = Some x -> x = Z.of_nat i /\ Z.of_nat i < N.
Proof.
  unfold range. rewrite nth_error_map.
  destruct (nth_error (seq 0 (Z.to_nat N)) i) as [y|] eqn:E; [|discriminate].
  intros [= <-]. apply nth_error_seq_Some in E. lia.
Qed.

Lemma range_length N : List.length (range N) = Z.to_nat N.
Proof. unfold range. now rewrite length_map, length_seq. Qed.

(** In a concatenation of blocks of one length [n], position [k] is
    position [k mod n] of block [k / n]. *)
Lemma nth_error_flat_map_block {A B} (f : A -> list B) (n : nat) l :
  (forall x, In x l -> List.length (f x) = n) ->
  forall k b, nth_error (flat_map f l) k = Some b ->
    n <> 0%nat /\
    exists x, nth_error l (k / n) = Some x /\ nth_error (f x) (k mod n) = Some b.
Proof.
  induction l as [|x l IH]; intros Hlen k b Hk.
  - destruct k; discriminate.
  - simpl in Hk.
    assert (Hx : List.length (f x) = n) by (apply Hlen; now left).
    destruct (Nat.lt_ge_cases k n) as [Hlt|Hge].
    + rewrite nth_error_app1 in Hk by lia.
      split; [lia|]. exists x.
      rewrite Nat.div_small, Nat.mod_small by assumption. auto.
    + rewrite nth_error_app2 in Hk by lia. rewrite Hx in Hk.
      destruct (IH (fun y Hy => Hlen y (or_intror Hy)) _ _ Hk) as (Hn & y & Hy & Hb).
      split; [assumption|]. exists y.
      assert (Hk' : k = (k - n + 1 * n)%nat) by lia.
      rewrite Hk', Nat.div_add, Nat.Div0.mod_add by assumption.
      rewrite Nat.add_1_r. simpl. auto.
Qed.

Lemma all_cells_nth G k c :
  nth_error (all_cells G) k = Some c -> in_grid G c /\ Z.of_nat k = row_major G c.
Proof.
  intros H. unfold all_cells in H.
  apply (nth_error_flat_map_block _ (Z.to_nat (cols G))) in H.
  2:{ intros x _. now rewrite length_map, range_length. }
  destruct H as (Hn & x & Hx & Hc).
  rewrite nth_error_map in Hc.
  destruct (nth_error (range (cols G)) _) as [y|] eqn:Ey; [|discriminate].
  injection Hc as <-.
  apply nth_error_range in Hx, Ey. destruct Hx as [-> Hx], Ey as [-> Hy].
  unfold in_grid, row_major. simpl.
  pose proof (Nat.div_mod_eq k (Z.to_nat (cols G))) as Hdm.
  assert (Hc : Z.of_nat (Z.to_nat (cols G)) = cols G) by lia.
  split; [lia|].
  rewrite Hdm at 1. rewrite Nat2Z.inj_add, Nat2Z.inj_mul, Hc. lia.
Qed.

Lemma in_grid_all_cells G c : in_grid G c -> In c (all_cells G).
Proof.
  destruct c as [r col]. intros [Hr Hc]. simpl in *. unfold all_cells.
  apply in_flat_map. exists r. split; [now apply In_range|].
  apply in_map_iff. exists col. split; [reflexivity | now apply In_range].
Qed.

Lemma all_cells_in_grid G c : In c (all_cells G) -> in_grid G c.
Proof.
  intros H. apply In_nth_error in H. destruct H as [k Hk]. now apply all_cells_nth in Hk.
Qed.

(** ** Heuristic 2: the furthest point the sender reaches *)

Section SenderFacts.

Variable sp : nxGraph -> Z -> Z -> option (list Z).
Variable desc : Desc.
Variable G : EnvGraph.

Hypothesis Hsp : shortest_path_spec sp (graph G).
Hypothesis Hinit : EnvGraph_init desc = Some G.
Hypothesis Hconn : connected G.

Variable st : State.
Variable from_taxi : Taxi.
Variable dest : cors.

Hypothesis Hfrom : valid_taxi st G from_taxi.
Hypothesis Hdest : in_grid G dest.

Let sender := location_of st from_taxi.
Let fs := fuel_of st from_taxi.

Lemma find_transfer_point_h2_index taxis fi pi cells acts :
  py_index taxis fi = Some from_taxi ->
  get_destination_cors st pi = Some dest ->
  get_path sp G sender dest = Some (cells, acts) ->
  let i := Z.max 0 (Z.min (fs - 1) (len acts)) in
  find_transfer_point_h2 sp st G taxis fi pi = nth_error (sender :: cells) (Z.to_nat i) /\
  exists p, nth_error (sender :: cells) (Z.to_nat i) = Some p.
Proof.
  intros Hf Hd Hp i. destruct (valid_taxi_location G _ _ Hfrom) as (Hl & Hg & Hfu).
  unfold find_transfer_point_h2, Taxi_compute_shortest_path. rewrite Hf, Hd.
  unfold Taxi_get_location in Hl. rewrite Hl. fold sender. rewrite Hp.
  unfold Taxi_get_location. rewrite Hl, Hfu. fold sender fs. cbn [fst].
  pose proof (get_path_lengths sp G Hsp _ _ _ _ Hg Hp) as Hlen. fold sender in Hlen.
  rewrite len_cons, Hlen. replace (len acts + 1 - 1) with (len acts) by lia. fold i.
  pose proof (len_nonneg acts).
  rewrite py_index_nonneg by lia. split; [reflexivity|].
  destruct (nth_error (sender :: cells) (Z.to_nat i)) eqn:E; [eauto|].
  apply nth_error_None in E. simpl in E. unfold len in *. lia.
Qed.


(** With fuel for at least the drop-off, the point of heuristic 2 is a cell
    the sender reaches within its fuel minus one. *)
Lemma find_transfer_point_h2_reach taxis fi pi :
  py_index taxis fi = Some from_taxi ->
  get_destination_cors st pi = Some dest ->
  1 <= fs ->
  exists p, find_transfer_point_h2 sp st G taxis fi pi = Some p /\
            in_grid G p /\ cost sp G sender p <= fs - 1.
Proof.
  intros Hf Hd Hfuel. destruct (valid_taxi_location G _ _ Hfrom) as (Hl & Hg & Hfu).
  destruct (get_path_total sp G Hsp Hconn _ _ Hg Hdest) as (cells & acts & Hp & _ & _).
  destruct (find_transfer_point_h2_index _ _ _ _ _ Hf Hd Hp) as [Hh2 [p Hnth]].
  exists p. split; [congruence|].
  destruct (path_point sp desc G Hsp Hinit _ _ _ _ _ _ Hg Hp Hnth) as (Hgp & _ & Hc).
  fold sender in Hc. split; [assumption|]. pose proof (len_nonneg acts). lia.
Qed.

End SenderFacts.

(** ** The exhaustive transfer point *)

(** The first minimum of a score over the scan of the grid. *)
Lemma first_min_all_cells G (score : cors -> option Z) :
  (exists c0, in_grid G c0 /\ score c0 <> None) ->
  exists c d,
    first_min score (all_cells G) = Some (c, d) /\ in_grid G c /\ score c = Some d /\
    forall c' d', in_grid G c' -> score c' = Some d' ->
      d <= d' /\ (d' = d -> row_major G c <= row_major G c').
Proof.
  intros (c0 & Hg0 & Hc0).
  pose proof (first_min_spec score (all_cells G)) as Hs.
  destruct (first_min score (all_cells G)) as [[c d]|].
  - destruct Hs as (k & Hk & Hc & Hmin). exists c, d.
    destruct (all_cells_nth _ _ _ Hk) as [Hg Hpos].
    split; [reflexivity|]. split; [assumption|]. split; [assumption|].
    intros c' d' Hg' Hc'.
    destruct (In_nth_error _ _ (in_grid_all_cells _ _ Hg')) as [j Hj].
    destruct (Hmin _ _ _ Hj Hc') as [H1 H2]. split; [assumption|].
    intros Heq. specialize (H2 Heq).
    destruct (all_cells_nth _ _ _ Hj) as [_ Hpos']. lia.
  - exfalso. apply Hc0, Hs. now apply in_grid_all_cells.
Qed.

Lemma first_min_all_cells_none G (score : cors -> option Z) :
  (forall c, in_grid G c -> score c = None) -> first_min score (all_cells G) = None.
Proof.
  intros Hall. pose proof (first_min_spec score (all_cells G)) as Hs.
  destruct (first_min score (all_cells G)) as [[c d]|]; [|reflexivity].
  exfalso. destruct Hs as (k & Hk & Hc & _).
  apply all_cells_nth in Hk. destruct Hk as [Hg _].
  rewrite (Hall c Hg) in Hc. discriminate.
Qed.

Section TransferFacts.

Variable sp : nxGraph -> Z -> Z -> option (list Z).
Variable desc : Desc.
Variable G : EnvGraph.

Hypothesis Hsp : shortest_path_spec sp (graph G).
Hypothesis Hinit : EnvGraph_init desc = Some G.
Hypothesis Hconn : connected G.

Variable st : State.
Variables from_taxi to_taxi : Taxi.
Variable dest : cors.

Hypothesis Hfrom : valid_taxi st G from_taxi.
Hypothesis Hto : valid_taxi st G to_taxi.
Hypothesis Hdest : in_grid G dest.

Let sender := location_of st from_taxi.
Let receiver := location_of st to_taxi.
Let fs := fuel_of st from_taxi.
Let fr := fuel_of st to_taxi.
Let score := cell_score sp G sender receiver dest fs fr.

Lemma dist_from_dest_at_total c :
  in_grid G c ->
  dist_from_dest_at sp st G from_taxi to_taxi dest c =
  Some (if cost sp G receiver c >? fr - 1 then cost sp G c dest
        else Z.max 0 (cost sp G receiver c + cost sp G c dest - (fr - 1))).
Proof.
  intros Hc. unfold dist_from_dest_at.
  rewrite (Taxi_path_cost_total sp G Hsp Hconn _ _ _ Hto Hc).
  destruct (valid_taxi_location G _ _ Hto) as (_ & _ & ->).
  fold receiver fr.
  rewrite !(Taxi_path_cost_from sp G Hsp Hconn _ _ _ _ Hc Hdest).
  now destruct (_ >? _).
Qed.

Lemma score_dist_from_dest c d :
  in_grid G c -> score c = Some d ->
  dist_from_dest_at sp st G from_taxi to_taxi dest c = Some d.
Proof.
  intros Hc Hs. rewrite (dist_from_dest_at_total c Hc).
  unfold score, cell_score in Hs.
  destruct (cost sp G sender c >? fs - 1); [discriminate|].
  destruct (cost sp G receiver c >? fr - 1); exact Hs.
Qed.

Lemma optimal_step_scan acc c :
  in_grid G c ->
  optimal_step sp st G from_taxi to_taxi dest (Some (optimal_acc acc)) c =
  Some (optimal_acc (scan_step score acc c)).
Proof.
  intros Hc. unfold optimal_step.
  rewrite (Taxi_path_cost_total sp G Hsp Hconn _ _ _ Hfrom Hc).
  destruct (valid_taxi_location G _ _ Hfrom) as (_ & _ & ->).
  rewrite (dist_from_dest_at_total c Hc).
  unfold scan_step, score, cell_score. fold sender fs.
  destruct (cost sp G sender c >? fs - 1); [reflexivity|].
  destruct (cost sp G receiver c >? fr - 1);
    (destruct acc as [[c0 m]|]; simpl; [now destruct (_ <? m) | reflexivity]).
Qed.

Lemma optimal_fold_scan cells : forall acc,
  (forall c, In c cells -> in_grid G c) ->
  fold_left (optimal_step sp st G from_taxi to_taxi dest) cells (Some (optimal_acc acc)) =
  Some (optimal_acc (fold_left (scan_step score) cells acc)).
Proof.
  induction cells as [|c cells IH]; intros acc Hin; [reflexivity|].
  cbn [fold_left]. rewrite optimal_step_scan by (apply Hin; now left).
  apply IH. intros; apply Hin; now right.
Qed.

Lemma find_optimal_first_min taxis fi ti pi :
  py_index taxis fi = Some from_taxi ->
  py_index taxis ti = Some to_taxi ->
  get_destination_cors st pi = Some dest ->
  find_optimal_transfer_point sp st G taxis fi ti pi =
  Some (fst (optimal_acc (first_min score (all_cells G)))).
Proof.
  intros Hf Ht Hd. unfold find_optimal_transfer_point. rewrite Hf, Ht, Hd.
  change ([], Inf) with (optimal_acc None).
  rewrite optimal_fold_scan by apply all_cells_in_grid. reflexivity.
Qed.

Lemma score_reachable c :
  cost sp G sender c <= fs - 1 -> exists d, score c = Some d.
Proof.
  intros H. unfold score, cell_score.
  destruct (Z.gtb_spec (cost sp G sender c) (fs - 1)); [lia|].
  destruct (_ >? _); eauto.
Qed.

Lemma score_unreachable c :
  cost sp G sender c > fs - 1 -> score c = None.
Proof.
  intros H. unfold score, cell_score.
  destruct (Z.gtb_spec (cost sp G sender c) (fs - 1)); [reflexivity | lia].
Qed.

(** C10. When every cell of the grid costs the sending taxi more than its
    fuel minus one, [find_optimal_transfer_point] returns the empty list it
    started with. *)
Theorem find_optimal_transfer_point_unreachable taxis fi ti pi :
  py_index taxis fi = Some from_taxi ->
  py_index taxis ti = Some to_taxi ->
  get_destination_cors st pi = Some dest ->
  (forall c, in_grid G c ->
     cost sp G (location_of st from_taxi) c > fuel_of st from_taxi - 1) ->
  find_optimal_transfer_point sp st G taxis fi ti pi = Some [].
Proof.
  intros Hf Ht Hd Hall. rewrite (find_optimal_first_min _ _ _ _ Hf Ht Hd).
  rewrite first_min_all_cells_none; [reflexivity|].
  intros c Hc. apply score_unreachable. now apply Hall.
Qed.

(** A taxi without fuel reaches no cell: the cost of its own cell, 0, is
    already more than its fuel minus one. *)
Lemma find_optimal_transfer_point_no_fuel taxis fi ti pi :
  py_index taxis fi = Some from_taxi ->
  py_index taxis ti = Some to_taxi ->
  get_destination_cors st pi = Some dest ->
  fuel_of st from_taxi <= 0 ->
  find_optimal_transfer_point sp st G taxis fi ti pi = Some [].
Proof.
  intros Hf Ht Hd Hfuel. rewrite (find_optimal_first_min _ _ _ _ Hf Ht Hd).
  rewrite first_min_all_cells_none; [reflexivity|].
  intros c Hc. apply score_unreachable.
  destruct (valid_taxi_location G _ _ Hfrom) as (_ & Hg & _).
  destruct (path_cost_total sp G Hsp Hconn _ _ Hg Hc) as [_ H]. fold sender in H. fold fs in Hfuel. lia.
Qed.


(** ** Heuristic 1 and the comparison of the three strategies *)

(** One entry of [off_road_distances], when the budget [rem] is not
    negative. *)
Lemma h1_entry_total rem point :
  in_grid G point -> 0 <= rem ->
  h1_entry sp st G from_taxi rem point =
  Some (Z.max 0 (cost sp G sender point - rem),
        if Z.max 0 (cost sp G sender point - rem) >? 0
        then nth (Z.to_nat rem) (sender :: path_cells sp G sender point) sender
        else point).
Proof.
  intros Hpt Hrem. destruct (valid_taxi_location G _ _ Hfrom) as (Hl & Hg & _).
  destruct (get_path_total sp G Hsp Hconn _ _ Hg Hpt) as (cells & acts & Hp & Hcells & Hacts).
  pose proof (get_path_lengths sp G Hsp _ _ _ _ Hg Hp) as Hlen.
  unfold h1_entry, Taxi_compute_shortest_path. rewrite Hl.
  unfold Taxi_get_location in Hl. rewrite Hl. fold sender in Hp, Hcells, Hacts |- *.
  rewrite Hp. cbn [fst snd]. rewrite Hacts, <- Hcells.
  destruct (Z.gtb_spec (Z.max 0 (cost sp G sender point - rem)) 0);
    [|do 2 f_equal; lia].
  replace (Z.min rem (cost sp G sender point)) with rem by lia.
  rewrite py_index_nonneg by assumption.
  rewrite (nth_error_nth' _ sender); [reflexivity|].
  simpl. unfold len in *. lia.
Qed.

(** What heuristic 1 returns when the sender has fuel for at least the
    drop-off: among the receiver's location followed by the cells of its
    shortest path to the destination, the first candidate of least
    shortfall; that candidate when the shortfall is 0, else the cell the
    sender reaches after [fuel - 1] steps towards it. *)
Lemma find_transfer_point_h1_first_min taxis fi ti pi fuel :
  py_index taxis fi = Some from_taxi ->
  py_index taxis ti = Some to_taxi ->
  get_destination_cors st pi = Some dest ->
  py_index (FUELS st) fi = Some fuel ->
  1 <= fuel ->
  exists k c,
    is_first_min (fun c => Some (shortfall sp G sender fuel c))
      (receiver :: path_cells sp G receiver dest) k c (shortfall sp G sender fuel c) /\
    in_grid G c /\
    find_transfer_point_h1 sp st G taxis fi ti pi =
      Some (if shortfall sp G sender fuel c =? 0 then c
            else nth (Z.to_nat (fuel - 1)) (sender :: path_cells sp G sender c) sender).
Proof.
  intros Hf Ht Hd Hfu Hfuel.
  destruct (valid_taxi_location G _ _ Hto) as (Hl & Hg & _).
  destruct (get_path_total sp G Hsp Hconn _ _ Hg Hdest) as (cells & acts & Hp & Hcells & _).
  fold receiver in Hp, Hcells, Hg.
  assert (Hcand : forall c, In c (receiver :: cells) -> in_grid G c).
  { intros c Hin. apply In_nth_error in Hin. destruct Hin as [i Hi].
    now destruct (path_point sp desc G Hsp Hinit _ _ _ _ _ _ Hg Hp Hi). }
  unfold find_transfer_point_h1, Taxi_compute_shortest_path. rewrite Ht, Hd.
  unfold Taxi_get_location in Hl. rewrite Hl. fold receiver. rewrite Hp.
  unfold Taxi_get_location. rewrite Hl. fold receiver. rewrite Hfu, Hf. cbn [fst].
  rewrite (mapM_total _ (fun point =>
             (Z.max 0 (cost sp G sender point - (fuel - 1)),
              if Z.max 0 (cost sp G sender point - (fuel - 1)) >? 0
              then nth (Z.to_nat (fuel - 1)) (sender :: path_cells sp G sender point) sender
              else point))).
  2:{ intros c Hin. apply h1_entry_total; [now apply Hcand | lia]. }
  rewrite py_min_by_map. cbn [fst].
  rewrite <- Hcells.
  pose proof (first_min_spec (fun c => Some (shortfall sp G sender fuel c)) (receiver :: cells)) as Hs.
  unfold shortfall in *.
  destruct (first_min _ (receiver :: cells)) as [[c d]|].
  - destruct Hs as [k Hk]. exists k, c.
    assert (Hd' : d = Z.max 0 (cost sp G sender c - (fuel - 1))).
    { destruct Hk as (_ & Hc & _). congruence. }
    subst d. split; [assumption|].
    split; [apply Hcand; destruct Hk as (Hk & _); eapply nth_error_In; eauto|].
    cbn [option_map fst snd].
    destruct (Z.gtb_spec (Z.max 0 (cost sp G sender c - (fuel - 1))) 0);
      destruct (Z.eqb_spec (Z.max 0 (cost sp G sender c - (fuel - 1))) 0); try lia; reflexivity.
  - specialize (Hs receiver (or_introl eq_refl)). discriminate.
Qed.

(** With fuel for at least the drop-off, the point of heuristic 1 is a cell
    the sender reaches within its fuel minus one. *)
Lemma find_transfer_point_h1_reach taxis fi ti pi :
  py_index taxis fi = Some from_taxi ->
  py_index taxis ti = Some to_taxi ->
  taxi_index from_taxi = fi ->
  get_destination_cors st pi = Some dest ->
  1 <= fs ->
  exists p, find_transfer_point_h1 sp st G taxis fi ti pi = Some p /\
            in_grid G p /\ cost sp G sender p <= fs - 1.
Proof.
  intros Hf Ht Hidx Hd Hfuel.
  destruct (valid_taxi_location G _ _ Hfrom) as (_ & Hg & Hfu).
  unfold Taxi_get_fuel in Hfu. rewrite Hidx in Hfu. fold fs sender in Hfu, Hg.
  destruct (find_transfer_point_h1_first_min _ _ _ _ _ Hf Ht Hd Hfu Hfuel) as (k & c & _ & Hc & ->).
  eexists. split; [reflexivity|]. unfold shortfall.
  destruct (Z.eqb_spec (Z.max 0 (cost sp G sender c - (fs - 1))) 0) as [E|E].
  - split; [assumption | lia].
  - destruct (get_path_total sp G Hsp Hconn _ _ Hg Hc) as (cells & acts & Hp & Hcells & Hacts).
    pose proof (get_path_lengths sp G Hsp _ _ _ _ Hg Hp) as Hlen.
    rewrite <- Hcells.
    assert (Hnth : nth_error (sender :: cells) (Z.to_nat (fs - 1)) =
                   Some (nth (Z.to_nat (fs - 1)) (sender :: cells) sender)).
    { apply nth_error_nth'. simpl. unfold len in *. lia. }
    destruct (path_point sp desc G Hsp Hinit _ _ _ _ _ _ Hg Hp Hnth) as (Hgp & _ & Hcost).
    split; [assumption | lia].
Qed.

(** With fuel for at least the drop-off, the cell of the exhaustive search
    and the points of the two heuristics are cells of the grid that the
    search scores, and the score of the first is the least. *)
Lemma optimal_score_no_worse taxis fi ti pi :
  py_index taxis fi = Some from_taxi ->
  py_index taxis ti = Some to_taxi ->
  taxi_index from_taxi = fi ->
  get_destination_cors st pi = Some dest ->
  1 <= fs ->
  exists c p1 p2 d d1 d2,
    find_optimal_transfer_point sp st G taxis fi ti pi = Some [fst c; snd c] /\
    find_transfer_point_h1 sp st G taxis fi ti pi = Some p1 /\
    find_transfer_point_h2 sp st G taxis fi pi = Some p2 /\
    (in_grid G c /\ in_grid G p1 /\ in_grid G p2) /\
    (score c = Some d /\ score p1 = Some d1 /\ score p2 = Some d2) /\
    d <= d1 /\ d <= d2.
Proof.
  intros Hf Ht Hidx Hd Hfuel.
  destruct (find_transfer_point_h1_reach _ _ _ _ Hf Ht Hidx Hd Hfuel) as (p1 & Hp1 & Hg1 & Hc1).
  destruct (find_transfer_point_h2_reach sp desc G Hsp Hinit Hconn st from_taxi dest Hfrom Hdest
              _ _ _ Hf Hd Hfuel) as (p2 & Hp2 & Hg2 & Hc2).
  destruct (score_reachable _ Hc1) as [d1 Hd1].
  destruct (score_reachable _ Hc2) as [d2 Hd2].
  destruct (first_min_all_cells G score) as (c & d & Hmin & Hg & Hc & Hle).
  { exists p1. split; [assumption | congruence]. }
  exists c, p1, p2, d, d1, d2.
  rewrite (find_optimal_first_min _ _ _ _ Hf Ht Hd), Hmin.
  split; [reflexivity|]. split; [assumption|]. split; [assumption|].
  split; [auto|]. split; [auto|].
  split; [apply (Hle p1 d1 Hg1 Hd1) | apply (Hle p2 d2 Hg2 Hd2)].
Qed.

End TransferFacts.

(** ** Queueing a pickup *)

Section PickupFacts.

Variable sp : nxGraph -> Z -> Z -> option (list Z).
Variable env : TaxiEnv.
Variable G : EnvGraph.
Variable t : Taxi.

(** Without an assigned passenger and without an index, nothing changes. *)
Lemma send_taxi_to_pickup_noop :
  assigned_passengers t = [] ->
  Taxi_send_taxi_to_pickup sp env G t None = Some t.
Proof. intros H. unfold Taxi_send_taxi_to_pickup. now rewrite H. Qed.

(** The path to the chosen passenger and one pickup action are appended. *)
Lemma send_taxi_to_pickup_queue chosen loc cells acts pickup :
  py_index (PASSENGERS_START_LOCATION (state env)) chosen = Some loc ->
  Taxi_compute_shortest_path sp (state env) G t loc None = Some (cells, acts) ->
  dict_get (action_index_dictionary env) "pickup"%string = Some pickup ->
  (chosen <> 0 ->
   Taxi_send_taxi_to_pickup sp env G t (Some chosen) =
   Some (set_actions_queue t (actions_queue t ++ acts ++ [pickup]))) /\
  (forall rest, assigned_passengers t = chosen :: rest ->
   Taxi_send_taxi_to_pickup sp env G t None =
   Some (set_actions_queue t (actions_queue t ++ acts ++ [pickup]))).
Proof.
  intros Hloc Hpath Hpick. split.
  - intros Hne. unfold Taxi_send_taxi_to_pickup, Taxi_send_taxi_to_point.
    destruct (Z.eqb_spec chosen 0); [contradiction|].
    rewrite Hloc, Hpath, Hpick. cbn [snd set_actions_queue actions_queue].
    unfold set_actions_queue. cbn. rewrite <- app_assoc.
    now destruct (assigned_passengers t).
  - intros rest Hassigned. unfold Taxi_send_taxi_to_pickup, Taxi_send_taxi_to_point.
    rewrite Hassigned. cbn [py_index Z.ltb Z.compare Z.to_nat nth_error].
    rewrite Hloc, Hpath, Hpick. unfold set_actions_queue. cbn. now rewrite <- app_assoc.
Qed.

End PickupFacts.

(** ** Replaying the actions of a path *)

Lemma path_cost_same sp G x : path_cost sp G x x = Some 0.
Proof. unfold path_cost, get_path. now rewrite Z.eqb_refl. Qed.

Lemma path_cost_length sp G a b cells acts :
  get_path sp G a b = Some (cells, acts) -> path_cost sp G a b = Some (len acts).
Proof. intros H. unfold path_cost. now rewrite H. Qed.

(** The edges the constructor adds for node [i]: to the node one row below,
    or to the next node when the map has a [:] to the right of the cell. *)
Lemma node_edges_spec desc n_rows n_cols i l x y :
  0 < n_cols ->
  node_edges desc n_rows n_cols i = Some l -> In (x, y) l ->
  x = i /\ 0 <= y < n_rows * n_cols /\
  (y = i + n_cols \/
   (y = i + 1 /\ desc_at desc (i / n_cols + 1) (i mod n_cols * 2 + 2) = Some ":"%char)).
Proof.
  intros Hc. unfold node_edges, node_to_cors.
  destruct (desc_at desc (i / n_cols + 2) _) as [s|]; [|discriminate].
  destruct (desc_at desc (i / n_cols + 1) _) as [e|] eqn:Ee; [|discriminate].
  destruct (forallb _ _) eqn:Hall; [|discriminate].
  intros [= <-] Hin. rewrite forallb_forall in Hall.
  specialize (Hall _ Hin). simpl in Hall.
  apply andb_prop in Hall. destruct Hall as [H0 H1].
  apply Z.leb_le in H0. apply Z.ltb_lt in H1.
  pose proof (Z.div_mod i n_cols ltac:(lia)) as Hdm.
  apply in_app_or in Hin. destruct Hin as [Hin|Hin].
  - destruct (negb _); [|contradiction]. destruct Hin as [[= <- <-]|[]].
    unfold cors_to_node; simpl. split; [reflexivity|]. split; [unfold cors_to_node in *; simpl in *; lia|].
    left. lia.
  - destruct (Ascii.eqb_spec e ":"%char) as [->|]; [|contradiction].
    destruct Hin as [[= <- <-]|[]].
    unfold cors_to_node in *; simpl in *. split; [reflexivity|]. split; [lia|].
    right. split; [lia | reflexivity].
Qed.

Lemma mapM_concat_In {A B} (f : A -> option (list B)) l es b :
  mapM f l = Some es -> In b (concat es) ->
  exists a bs, In a l /\ f a = Some bs /\ In b bs.
Proof.
  intros Hm Hin. apply in_concat in Hin. destruct Hin as (bs & Hbs & Hb).
  destruct (mapM_In _ _ _ Hm _ Hbs) as (a & Ha & Hf). eauto.
Qed.

Section ReplayFacts.

Variable sp : nxGraph -> Z -> Z -> option (list Z).
Variable desc : Desc.
Variable G : EnvGraph.

Hypothesis Hsp : shortest_path_spec sp (graph G).
Hypothesis Hinit : EnvGraph_init desc = Some G.

(** The map has at least two columns, and no [:] on its right border. *)
Hypothesis Hcols : 2 <= cols G.
Hypothesis Hborder :
  forall r, 0 <= r < rows G -> desc_at desc (r + 1) (cols G * 2) <> Some ":"%char.

(** An edge of the graph joins a cell to the one below it or to the one to
    its right. *)
Lemma EnvGraph_init_edge x y :
  In (x, y) (edges (graph G)) ->
  0 <= x < rows G * cols G /\ 0 <= y < rows G * cols G /\
  (y = x + cols G \/ (y = x + 1 /\ x mod cols G + 1 < cols G)).
Proof.
  intros Hin. revert Hinit Hin Hborder Hcols. unfold EnvGraph_init.
  destruct (py_index desc 0) as [first|]; [|discriminate].
  destruct (mapM _ _) as [es|] eqn:Hm; [|discriminate].
  intros [= <-]. simpl. intros Hin Hb Hc.
  destruct (mapM_concat_In _ _ _ _ Hm Hin) as (i & l & Hi & Hl & Hxy).
  apply In_range in Hi.
  assert (Hpos : 0 < len first / 2) by lia.
  destruct (node_edges_spec _ _ _ _ _ _ _ Hpos Hl Hxy) as (-> & Hy & Hcase).
  split; [assumption|]. split; [assumption|].
  destruct Hcase as [E|[E Hd]]; [now left|]. right. split; [assumption|].
  set (n_cols := len first / 2) in *. set (n_rows := len desc - 2) in *.
  pose proof (Z.mod_pos_bound i n_cols ltac:(lia)) as Hm'.
  destruct (Z.eq_dec (i mod n_cols + 1) n_cols) as [Heq|]; [|lia].
  exfalso. apply (Hb (i / n_cols)).
  - split; [apply Z.div_pos; lia|]. apply Z.div_lt_upper_bound; [lia|]. rewrite Z.mul_comm. lia.
  - replace (n_cols * 2) with (i mod n_cols * 2 + 2) by lia. exact Hd.
Qed.

Lemma action_south u :
  0 <= u ->
  apply_action (action_of_delta (cols G) (u + cols G - u)) (node_to_cors (cols G) u)
  = node_to_cors (cols G) (u + cols G).
Proof.
  intros Hu. unfold action_of_delta.
  destruct (Z.eqb_spec (u + cols G - u) (-1)); [lia|].
  destruct (Z.eqb_spec (u + cols G - u) 1); [lia|].
  destruct (Z.eqb_spec (u + cols G - u) (- cols G)); [lia|].
  unfold apply_action, node_to_cors; simpl.
  replace (u + cols G) with (u + 1 * cols G) by lia.
  rewrite Z.div_add, Z.mod_add by lia. reflexivity.
Qed.

Lemma action_north v :
  0 <= v ->
  apply_action (action_of_delta (cols G) (v - (v + cols G))) (node_to_cors (cols G) (v + cols G))
  = node_to_cors (cols G) v.
Proof.
  intros Hv. unfold action_of_delta.
  destruct (Z.eqb_spec (v - (v + cols G)) (-1)); [lia|].
  destruct (Z.eqb_spec (v - (v + cols G)) 1); [lia|].
  destruct (Z.eqb_spec (v - (v + cols G)) (- cols G)); [|lia].
  unfold apply_action, node_to_cors; simpl.
  replace (v + cols G) with (v + 1 * cols G) by lia.
  rewrite Z.div_add, Z.mod_add by lia. f_equal. lia.
Qed.

Lemma node_to_cors_succ u :
  0 <= u -> u mod cols G + 1 < cols G ->
  node_to_cors (cols G) (u + 1) = (u / cols G, u mod cols G + 1).
Proof.
  intros Hu Hm. unfold node_to_cors.
  pose proof (Z.div_mod u (cols G) ltac:(lia)) as Hdm.
  pose proof (Z.mod_pos_bound u (cols G) ltac:(lia)) as Hb.
  assert (Hq : (u + 1) / cols G = u / cols G).
  { symmetry. apply (Z.div_unique_pos _ _ _ (u mod cols G + 1)); lia. }
  assert (Hr : (u + 1) mod cols G = u mod cols G + 1).
  { symmetry. apply (Z.mod_unique_pos _ _ (u / cols G)); lia. }
  now rewrite Hq, Hr.
Qed.

Lemma action_east u :
  0 <= u -> u mod cols G + 1 < cols G ->
  apply_action (action_of_delta (cols G) (u + 1 - u)) (node_to_cors (cols G) u)
  = node_to_cors (cols G) (u + 1).
Proof.
  intros Hu Hm. rewrite node_to_cors_succ by assumption. unfold action_of_delta.
  destruct (Z.eqb_spec (u + 1 - u) (-1)); [lia|].
  destruct (Z.eqb_spec (u + 1 - u) 1); [|lia].
  reflexivity.
Qed.

Lemma action_west v :
  0 <= v -> v mod cols G + 1 < cols G ->
  apply_action (action_of_delta (cols G) (v - (v + 1))) (node_to_cors (cols G) (v + 1))
  = node_to_cors (cols G) v.
Proof.
  intros Hv Hm. rewrite node_to_cors_succ by assumption. unfold action_of_delta.
  destruct (Z.eqb_spec (v - (v + 1)) (-1)); [|lia].
  unfold apply_action, node_to_cors; simpl. f_equal. lia.
Qed.

(** The action [get_path] derives from an edge moves from one end of the
    edge to the other. *)
Lemma action_along_edge u v :
  has_edge (graph G) u v = true ->
  apply_action (action_of_delta (cols G) (v - u)) (node_to_cors (cols G) u)
  = node_to_cors (cols G) v.
Proof.
  unfold has_edge. rewrite existsb_exists. intros ([x y] & Hin & Hxy).
  apply EnvGraph_init_edge in Hin. destruct Hin as (Hx & Hy & Hcase).
  simpl in Hxy. apply orb_prop in Hxy.
  destruct Hxy as [H|H]; apply andb_prop in H; destruct H as [H1 H2];
    apply Z.eqb_eq in H1, H2; subst x y.
  - destruct Hcase as [->|[-> Hm]]; [apply action_south | apply action_east]; lia.
  - destruct Hcase as [->|[-> Hm]]; [apply action_north | apply action_west]; lia.
Qed.

Lemma replay_walk t : forall p s,
  is_walk (graph G) s t p = true ->
  replay (node_to_cors (cols G) s) (path_actions (cols G) p) =
  tl (map (node_to_cors (cols G)) p).
Proof.
  induction p as [|u rest IH]; intros s Hw; [discriminate|].
  destruct (is_walk_cons _ _ _ _ _ Hw) as [-> _].
  destruct rest as [|v r]; [reflexivity|].
  apply is_walk_step in Hw. destruct Hw as (_ & He & Hw).
  change (path_actions (cols G) (s :: v :: r))
    with (action_of_delta (cols G) (v - s) :: path_actions (cols G) (v :: r)).
  cbn [replay]. rewrite (action_along_edge _ _ He).
  rewrite (IH v Hw). reflexivity.
Qed.

(** On a map of at least two columns with a closed right border, the
    actions of a path, applied one at a time from the origin, visit exactly
    the returned cells, the last of which is the target; their number is
    the cost of the path. *)
Lemma get_path_replay a b cells acts :
  in_grid G a -> in_grid G b -> a <> b ->
  get_path sp G a b = Some (cells, acts) ->
  path_cost sp G a b = Some (len acts) /\
  replay a acts = cells /\
  nth_error cells (List.length acts - 1) = Some b /\
  List.length cells = List.length acts.
Proof.
  intros Ha Hb Hne Hp.
  assert (Hn : cors_to_node (cols G) a <> cors_to_node (cols G) b).
  { intros E. apply Hne. eapply cors_to_node_inj; eauto. }
  split; [now apply path_cost_length with cells|].
  destruct (get_path_walk sp G Hsp _ _ _ _ Ha Hn Hp) as (p & Hw & Hc & ->).
  pose proof (replay_walk _ _ _ Hw) as Hr.
  rewrite node_to_cors_to_node in Hr by apply Ha.
  rewrite <- Hc in Hr. simpl in Hr.
  split; [assumption|].
  pose proof (path_end sp G Hsp _ _ _ _ Ha Hb Hp) as He.
  assert (Hl : List.length cells = List.length (path_actions (cols G) p)).
  { rewrite <- Hr. clear. generalize a. induction (path_actions (cols G) p); intros; simpl; auto. }
  split; [|assumption].
  destruct (path_actions (cols G) p) as [|x acts'] eqn:E.
  - simpl in He. congruence.
  - simpl in He |- *. now rewrite Nat.sub_0_r.
Qed.

End ReplayFacts.

(** ** The properties on concrete maps *)

Lemma corridor_in_grid col : 0 <= col < 3 -> in_grid corridor3_graph (0, col).
Proof. intros H. unfold in_grid. simpl. lia. Qed.

Lemma corridor_cells c :
  in_grid corridor3_graph c -> c = (0, 0) \/ c = (0, 1) \/ c = (0, 2).
Proof.
  destruct c as [r col]. unfold in_grid. simpl. intros [Hr Hc].
  assert (r = 0) by lia. subst r.
  assert (H : col = 0 \/ col = 1 \/ col = 2) by lia.
  destruct H as [-> | [-> | ->]]; auto.
Qed.


Lemma decide_assignments_first_min_witness :
  exists t',
    Taxi_decide_assignments (mk_Taxi 1 (bids_channel 0 [(0, 2); (1, 1); (2, 1)]) [] []) = Some t' /\
    communication_channel t' = [] /\
    assigned_passengers t' = [0].
Proof.
  destruct (decide_assignments_first_min
              (mk_Taxi 1 (bids_channel 0 [(0, 2); (1, 1); (2, 1)]) [] []) 0
              [(0, 2); (1, 1); (2, 1)])
    as (t' & Ht & Hc & _ & _ & Hyes & _).
  - simpl. lia.
  - reflexivity.
  - exists t'. split; [exact Ht|]. split; [exact Hc|].
    apply Hyes. exists 1%nat, 1. split; [reflexivity|]. split; [reflexivity|].
    intros j b e Hj Hb. unfold bid_cost in Hb. injection Hb as <-.
    destruct j as [|[|[|j]]]; simpl in Hj; try (injection Hj as <-); simpl; try lia.
    destruct j; discriminate.
Defined.

Lemma find_optimal_transfer_point_unreachable_witness :
  find_optimal_transfer_point search_shortest_path (corridor_state 0 3) corridor3_graph
    two_taxis 0 1 0 = Some [].
Proof.
  apply (find_optimal_transfer_point_unreachable search_shortest_path corridor3_graph
           (search_shortest_path_spec _) corridor3_connected
           (corridor_state 0 3) (mk_Taxi 0 [] [] []) (mk_Taxi 1 [] [] []) (0, 2)).
  - exists (0, 0), 0. repeat split; simpl; lia.
  - exists (0, 2), 3. repeat split; simpl; lia.
  - apply corridor_in_grid. lia.
  - reflexivity.
  - reflexivity.
  - reflexivity.
  - intros c Hc. destruct (corridor_cells c Hc) as [-> | [-> | ->]]; reflexivity.
Defined.




(** C3.  A sender without fuel, at the left end; the receiver stands on the
    destination at the right end, the only candidate.  The budget
    [fuel - 1] is -1, the index [min(-1, 2)] counts from the end of the
    sender's path, and heuristic 1 returns the candidate itself, two steps
    away, instead of a cell the sender reaches. *)
Theorem find_transfer_point_h1_without_fuel :
  find_transfer_point_h1 search_shortest_path (corridor_state 0 3) corridor3_graph
    two_taxis 0 1 0 = Some (0, 2) /\
  h1_entry search_shortest_path (corridor_state 0 3) corridor3_graph
    (mk_Taxi 0 [] [] []) (0 - 1) (0, 2) = Some (3, (0, 2)) /\
  path_cost search_shortest_path corridor3_graph (0, 0) (0, 2) = Some 2.
Proof. repeat split; reflexivity. Qed.

(** C5.  On a map of one column, a step to the next row changes the node
    by 1, which [get_path] reads as a step east: replaying the actions from
    the origin does not visit the returned cells. *)
Theorem get_path_single_column :
  EnvGraph_init column2 = Some column2_graph /\
  get_path search_shortest_path column2_graph (0, 0) (1, 0) = Some ([(1, 0)], [EAST]) /\
  replay (0, 0) [EAST] = [(0, 1)] /\
  get_path search_shortest_path column2_graph (1, 0) (0, 0) = Some ([(0, 0)], [WEST]) /\
  replay (1, 0) [WEST] = [(1, -1)].
Proof. repeat split; reflexivity. Qed.

(** C8.  An explicit passenger index 0 is taken for "no index": without an
    assigned passenger the call raises, and with passenger 1 assigned the
    taxi is sent to passenger 1 (one step east) instead of passenger 0 (two
    steps east).  Index 1 is honoured. *)
Theorem send_taxi_to_pickup_index_zero :
  Taxi_send_taxi_to_pickup search_shortest_path pickup_env corridor3_graph
    (mk_Taxi 0 [] [] []) (Some 0) = None /\
  Taxi_send_taxi_to_pickup search_shortest_path pickup_env corridor3_graph
    (mk_Taxi 0 [] [] [1]) (Some 0) = Some (mk_Taxi 0 [] [EAST; 4] [1]) /\
  Taxi_send_taxi_to_pickup search_shortest_path pickup_env corridor3_graph
    (mk_Taxi 0 [] [] []) (Some 1) = Some (mk_Taxi 0 [] [EAST; 4] []) /\
  get_path search_shortest_path corridor3_graph (0, 0) (0, 2)
    = Some ([(0, 1); (0, 2)], [EAST; EAST]).
Proof. repeat split; reflexivity. Qed.

(** * Further properties of the planner *)

(** ** Walks compose and reverse *)

Lemma has_edge_sym g u v : has_edge g u v = has_edge g v u.
Proof.
  unfold has_edge. apply eq_true_iff_eq. rewrite !existsb_exists.
  split; intros (e & Hin & He); exists e; (split; [assumption|]);
    apply orb_true_iff in He; apply orb_true_iff; tauto.
Qed.

Lemma is_walk_end_node g s t p : is_walk g s t p = true -> has_node g t = true.
Proof.
  intros Hw. apply has_node_In. eapply is_walk_nodes; [exact Hw|].
  eapply nth_error_In, is_walk_last, Hw.
Qed.

Lemma is_walk_app g t : forall p s u q,
  is_walk g s u p = true -> is_walk g u t q = true ->
  is_walk g s t (p ++ tl q) = true.
Proof.
  induction p as [|x rest IH]; intros s u q Hp Hq; [discriminate|].
  destruct (is_walk_cons _ _ _ _ _ Hp) as [-> Hs].
  destruct rest as [|v r].
  - apply is_walk_single in Hp. destruct Hp as [_ ->].
    destruct (is_walk_head _ _ _ _ Hq) as [q' ->]. exact Hq.
  - apply is_walk_step in Hp. destruct Hp as (_ & He & Hp).
    specialize (IH v u q Hp Hq).
    change ((s :: v :: r) ++ tl q) with (s :: (v :: r) ++ tl q).
    simpl app in IH |- *. apply is_walk_step. auto.
Qed.

Lemma is_walk_rev g : forall p s t,
  is_walk g s t p = true -> is_walk g t s (rev p) = true.
Proof.
  induction p as [|x rest IH]; intros s t Hp; [discriminate|].
  destruct (is_walk_cons _ _ _ _ _ Hp) as [-> Hs].
  destruct rest as [|v r].
  - apply is_walk_single in Hp. destruct Hp as [_ ->]. simpl. apply is_walk_single. auto.
  - apply is_walk_step in Hp. destruct Hp as (_ & He & Hp).
    specialize (IH v t Hp).
    change (rev (s :: v :: r)) with (rev (v :: r) ++ tl [v; s]).
    apply (is_walk_app g s _ t v); [assumption|].
    apply is_walk_step. rewrite has_edge_sym. repeat split; auto.
    + now destruct (is_walk_cons _ _ _ _ _ Hp).
    + apply is_walk_single. auto.
Qed.

Lemma is_walk_skipn g t : forall p s i u,
  is_walk g s t p = true -> nth_error p i = Some u ->
  is_walk g u t (skipn i p) = true.
Proof.
  induction p as [|x rest IH]; intros s i u Hw Hi; [discriminate|].
  destruct i as [|i].
  - simpl in Hi. injection Hi as <-. simpl.
    destruct (is_walk_cons _ _ _ _ _ Hw) as [-> _]. exact Hw.
  - destruct (is_walk_cons _ _ _ _ _ Hw) as [-> _].
    destruct rest as [|v r]; [destruct i; discriminate|].
    apply is_walk_step in Hw. destruct Hw as (_ & _ & Hw).
    simpl in Hi |- *. eapply IH; eauto.
Qed.

(** ** The algebra of path costs *)

Section CostFacts.

Variable sp : nxGraph -> Z -> Z -> option (list Z).
Variable desc : Desc.
Variable G : EnvGraph.

Hypothesis Hsp : shortest_path_spec sp (graph G).

(** The number of actions of the path between two different nodes. *)
Lemma path_cost_walk a b :
  cors_to_node (cols G) a <> cors_to_node (cols G) b ->
  path_cost sp G a b =
  option_map (fun p => Z.of_nat (List.length p - 1))
             (sp (graph G) (cors_to_node (cols G) a) (cors_to_node (cols G) b)).
Proof.
  intros Hne. unfold path_cost, get_path.
  destruct (Z.eqb_spec (cors_to_node (cols G) a) (cors_to_node (cols G) b)); [contradiction|].
  destruct (sp _ _ _) as [p|]; [|reflexivity]. simpl.
  unfold len. now rewrite path_actions_length.
Qed.

(** X1. The cost of a path does not depend on its direction; a pair without
    a path has none in either direction. *)
Theorem path_cost_symmetric a b :
  path_cost sp G a b = path_cost sp G b a.
Proof.
  destruct (Z.eq_dec (cors_to_node (cols G) a) (cors_to_node (cols G) b)) as [E|E].
  - unfold path_cost, get_path. now rewrite E, Z.eqb_refl.
  - rewrite !path_cost_walk by congruence.
    destruct Hsp as [Hwalk Hmin].
    destruct (sp (graph G) (cors_to_node (cols G) a) (cors_to_node (cols G) b)) as [p|] eqn:Ep;
      destruct (sp (graph G) (cors_to_node (cols G) b) (cors_to_node (cols G) a)) as [q|] eqn:Eq.
    + pose proof (is_walk_rev _ _ _ _ (Hwalk _ _ _ Ep)) as Hp.
      pose proof (is_walk_rev _ _ _ _ (Hwalk _ _ _ Eq)) as Hq.
      destruct (Hmin _ _ _ Hp) as (q' & Hq' & Hl1).
      destruct (Hmin _ _ _ Hq) as (p' & Hp' & Hl2).
      rewrite length_rev in Hl1, Hl2.
      assert (q' = q) by congruence. assert (p' = p) by congruence. subst.
      simpl. f_equal. lia.
    + pose proof (is_walk_rev _ _ _ _ (Hwalk _ _ _ Ep)) as Hp.
      destruct (Hmin _ _ _ Hp) as (q' & Hq' & _). congruence.
    + pose proof (is_walk_rev _ _ _ _ (Hwalk _ _ _ Eq)) as Hq.
      destruct (Hmin _ _ _ Hq) as (p' & Hp' & _). congruence.
    + reflexivity.
Qed.

(** A walk that realises the cost between two joined cells. *)
Lemma cost_walk a b c :
  in_grid G a -> EnvGraph_init desc = Some G ->
  path_cost sp G a b = Some c ->
  exists w, is_walk (graph G) (cors_to_node (cols G) a) (cors_to_node (cols G) b) w = true /\
            len w = c + 1.
Proof.
  intros Ha Hinit. unfold path_cost, get_path.
  destruct (Z.eqb_spec (cors_to_node (cols G) a) (cors_to_node (cols G) b)) as [E|E].
  - intros [= <-]. exists [cors_to_node (cols G) a]. split; [|reflexivity].
    apply is_walk_single. split; [|assumption].
    apply (EnvGraph_init_has_node _ _ _ Hinit). now apply cors_to_node_range.
  - destruct (sp _ _ _) as [p|] eqn:Ep; [|discriminate].
    simpl. intros [= <-]. exists p. destruct Hsp as [Hwalk _].
    pose proof (Hwalk _ _ _ Ep) as Hw. split; [assumption|].
    unfold len. rewrite path_actions_length.
    destruct p; [discriminate | simpl; lia].
Qed.

Hypothesis Hinit : EnvGraph_init desc = Some G.

Lemma cost_triangle a b c x y :
  in_grid G a -> in_grid G b ->
  path_cost sp G a b = Some x -> path_cost sp G b c = Some y ->
  exists z, path_cost sp G a c = Some z /\ z <= x + y.
Proof.
  intros Ha Hb Hx Hy.
  destruct (cost_walk _ _ _ Ha Hinit Hx) as (w1 & Hw1 & Hl1).
  destruct (cost_walk _ _ _ Hb Hinit Hy) as (w2 & Hw2 & Hl2).
  pose proof (is_walk_app _ _ _ _ _ _ Hw1 Hw2) as Hw.
  destruct (cost_le_walk sp G Hsp _ _ _ Hw) as (z & Hz & _ & Hle).
  exists z. split; [assumption|].
  assert (len (w1 ++ tl w2) = len w1 + len w2 - 1).
  { unfold len. rewrite length_app. destruct w2; [discriminate | simpl; lia]. }
  lia.
Qed.

(** X2. Going through a third cell is never cheaper than the direct path. *)
Theorem path_cost_triangle a b c x y :
  in_grid G a -> in_grid G b ->
  path_cost sp G a b = Some x -> path_cost sp G b c = Some y ->
  exists z, path_cost sp G a c = Some z /\ z <= x + y.
Proof. apply cost_triangle. Qed.

(** X3. The cost is 0 exactly between a cell and itself. *)
Theorem path_cost_zero_iff a b :
  in_grid G a -> in_grid G b ->
  (path_cost sp G a b = Some 0 <-> a = b).
Proof.
  intros Ha Hb. split.
  - intros H.
    destruct (Z.eq_dec (cors_to_node (cols G) a) (cors_to_node (cols G) b)) as [E|E];
      [eapply cors_to_node_inj; eauto|].
    exfalso. rewrite path_cost_walk in H by assumption.
    destruct (sp _ _ _) as [p|] eqn:Ep; [|discriminate]. simpl in H.
    destruct Hsp as [Hwalk _]. pose proof (Hwalk _ _ _ Ep) as Hw.
    destruct p as [|u [|v r]]; [discriminate| |simpl in H; injection H; lia].
    destruct (is_walk_cons _ _ _ _ _ Hw) as [-> _].
    apply is_walk_single in Hw. destruct Hw as [_ Hw]. contradiction.
  - intros ->. apply path_cost_same.
Qed.

Lemma path_split a b cells acts i q :
  in_grid G a -> in_grid G b ->
  get_path sp G a b = Some (cells, acts) ->
  nth_error (a :: cells) i = Some q ->
  path_cost sp G a q = Some (Z.of_nat i) /\
  path_cost sp G q b = Some (len acts - Z.of_nat i).
Proof.
  intros Ha Hb Hp Hi.
  destruct (Z.eq_dec (cors_to_node (cols G) a) (cors_to_node (cols G) b)) as [E|E].
  - unfold get_path in Hp. rewrite E, Z.eqb_refl in Hp. injection Hp as <- <-.
    destruct i as [|[|i]]; try discriminate. injection Hi as <-.
    assert (a = b) by (eapply cors_to_node_inj; eauto). subst b.
    split; apply path_cost_same.
  - destruct (get_path_walk sp G Hsp _ _ _ _ Ha E Hp) as (p & Hw & Hc & Hacts).
    rewrite Hc, nth_error_map in Hi.
    destruct (nth_error p i) as [n|] eqn:En; [|discriminate]. injection Hi as <-.
    destruct (walk_node_in_grid desc G Hinit _ _ _ n Hw (nth_error_In _ _ En)) as [Hg Hn].
    assert (Hi' : (i < List.length p)%nat) by (apply nth_error_Some; congruence).
    assert (Hlen : len acts = Z.of_nat (List.length p) - 1).
    { subst acts. unfold len. rewrite path_actions_length. lia. }
    pose proof (is_walk_prefix _ _ _ _ _ _ Hw En) as Hpre.
    pose proof (is_walk_skipn _ _ _ _ _ _ Hw En) as Hsuf.
    rewrite <- Hn in Hpre, Hsuf.
    destruct (cost_le_walk sp G Hsp _ _ _ Hpre) as (c1 & Hc1 & _ & Hle1).
    destruct (cost_le_walk sp G Hsp _ _ _ Hsuf) as (c2 & Hc2 & _ & Hle2).
    assert (Hl1 : len (firstn (S i) p) = Z.of_nat i + 1).
    { unfold len. rewrite length_firstn. lia. }
    assert (Hl2 : len (skipn i p) = Z.of_nat (List.length p) - Z.of_nat i).
    { unfold len. rewrite length_skipn. lia. }
    destruct (cost_triangle a (node_to_cors (cols G) n) b c1 c2 Ha Hg Hc1 Hc2) as (z & Hz & Hle).
    rewrite (path_cost_length _ _ _ _ _ _ Hp) in Hz. injection Hz as <-.
    assert (c1 = Z.of_nat i) by lia. assert (c2 = len acts - Z.of_nat i) by lia.
    subst. auto.
Qed.

(** X4. The cell at position [i] of a shortest path, counted from the
    origin, costs exactly [i] from the origin and the rest of the path to
    the target: a shortest path is made of shortest paths. *)
Theorem get_path_prefix_suffix a b cells acts i q :
  in_grid G a -> in_grid G b ->
  get_path sp G a b = Some (cells, acts) ->
  nth_error (a :: cells) i = Some q ->
  path_cost sp G a q = Some (Z.of_nat i) /\
  path_cost sp G q b = Some (len acts - Z.of_nat i).
Proof. apply path_split. Qed.

End CostFacts.

(** ** Distances in the graph, the closest taxi and the residual of a
       hand-over *)

Lemma is_distance_unique g s t d e :
  is_distance g s t d -> is_distance g s t e -> d = e.
Proof.
  intros [(w & Hw & Hl) Hmin] [(w' & Hw' & Hl') Hmin'].
  specialize (Hmin _ Hw'). specialize (Hmin' _ Hw). lia.
Qed.

Lemma cell_distance_unique G a b d e :
  cell_distance G a b d -> cell_distance G a b e -> d = e.
Proof. intros (_ & _ & H) (_ & _ & H'). eapply is_distance_unique; eauto. Qed.

Section DistanceFacts.

Variable sp : nxGraph -> Z -> Z -> option (list Z).
Variable desc : Desc.
Variable G : EnvGraph.

Hypothesis Hsp : shortest_path_spec sp (graph G).
Hypothesis Hinit : EnvGraph_init desc = Some G.

(** What [path_cost] returns is the distance in the graph. *)
Lemma path_cost_distance a b c :
  in_grid G a -> in_grid G b -> path_cost sp G a b = Some c -> cell_distance G a b c.
Proof.
  intros Ha Hb Hc. split; [assumption|]. split; [assumption|]. split.
  - exact (cost_walk sp desc G Hsp a b c Ha Hinit Hc).
  - intros w Hw. destruct (cost_le_walk sp G Hsp _ _ _ Hw) as (c' & Hc' & _ & Hle).
    rewrite Hc in Hc'. injection Hc' as <-. lia.
Qed.

Hypothesis Hconn : connected G.

Lemma cost_distance a b :
  in_grid G a -> in_grid G b -> cell_distance G a b (cost sp G a b).
Proof.
  intros Ha Hb. apply path_cost_distance; try assumption.
  now destruct (path_cost_total sp G Hsp Hconn a b Ha Hb).
Qed.

Lemma distance_cost a b d : cell_distance G a b d -> cost sp G a b = d.
Proof.
  intros H. pose proof H as (Ha & Hb & _).
  eapply cell_distance_unique; [apply cost_distance; assumption | exact H].
Qed.

(** The score of the exhaustive search is the residual of the hand-over. *)
Lemma cell_score_residual sender receiver dest fs fr p d :
  in_grid G sender -> in_grid G receiver -> in_grid G dest -> in_grid G p ->
  cell_score sp G sender receiver dest fs fr p = Some d ->
  residual_after_transfer G sender receiver dest fs fr p d.
Proof.
  intros Hs Hr Hd Hp Hsc. unfold cell_score in Hsc.
  destruct (Z.gtb_spec (cost sp G sender p) (fs - 1)) as [|Hreach]; [discriminate|].
  exists (cost sp G sender p), (cost sp G receiver p), (cost sp G p dest).
  split; [now apply cost_distance|]. split; [lia|].
  split; [now apply cost_distance|]. split; [now apply cost_distance|].
  destruct (Z.gtb_spec (cost sp G receiver p) (fr - 1)) as [Hfar|Hnear]; injection Hsc as <-.
  - left. split; [lia | reflexivity].
  - right. split; [lia|].
    destruct (get_path_total sp G Hsp Hconn _ _ Hp Hd) as (cells & acts & Hpath & _ & Hacts).
    pose proof (get_path_lengths sp G Hsp _ _ _ _ Hp Hpath) as Hlen.
    destruct (path_cost_total sp G Hsp Hconn _ _ Hr Hp) as [_ Hr0].
    destruct (path_cost_total sp G Hsp Hconn _ _ Hp Hd) as [_ HD0].
    set (m := Z.min (fr - 1 - cost sp G receiver p) (cost sp G p dest)).
    assert (Hm : 0 <= m <= len acts) by lia.
    destruct (nth_error (p :: cells) (Z.to_nat m)) as [q|] eqn:Eq.
    2:{ apply nth_error_None in Eq. simpl in Eq. unfold len in *. lia. }
    destruct (path_split sp desc G Hsp Hinit _ _ _ _ _ _ Hp Hd Hpath Eq) as [H1 H2].
    destruct (path_point sp desc G Hsp Hinit _ _ _ _ _ _ Hp Hpath Eq) as (Hq & _).
    rewrite Z2Nat.id in H1, H2 by lia.
    exists q, m. split; [reflexivity|].
    split; [now apply path_cost_distance|].
    replace (Z.max 0 (cost sp G receiver p + cost sp G p dest - (fr - 1)))
      with (len acts - m) by lia.
    split; [now apply path_cost_distance | lia].
Qed.

End DistanceFacts.

(** A hand-over has one residual. *)
Lemma residual_after_transfer_unique G sender receiver dest fs fr p d e :
  residual_after_transfer G sender receiver dest fs fr p d ->
  residual_after_transfer G sender receiver dest fs fr p e -> d = e.
Proof.
  intros (ds & dr & D & _ & _ & Hr & HD & Hcase) (ds' & dr' & D' & _ & _ & Hr' & HD' & Hcase').
  pose proof (cell_distance_unique _ _ _ _ _ Hr Hr'). subst dr'.
  pose proof (cell_distance_unique _ _ _ _ _ HD HD'). subst D'.
  destruct Hcase as [[H1 ->] | (H1 & q & m & -> & _ & _ & H2)];
    destruct Hcase' as [[H1' ->] | (H1' & q' & m' & -> & _ & _ & H2')]; lia.
Qed.

Section ClosestFacts.

Variable sp : nxGraph -> Z -> Z -> option (list Z).
Variable desc : Desc.
Variable G : EnvGraph.

Hypothesis Hsp : shortest_path_spec sp (graph G).
Hypothesis Hinit : EnvGraph_init desc = Some G.
Hypothesis Hconn : connected G.

(** C7, as the code has it.  On a connected map, with the taxis and the
    point on the grid, [find_closest_taxi] returns the index of a taxi whose
    distance to the point in the graph is strictly less than its fuel and
    least among the taxis of which this holds, the first one of them in the
    order of the list; when no taxi's distance is strictly less than its
    fuel it returns -1, without raising. *)
Theorem find_closest_taxi_first_min st taxis dest :
  in_grid G dest -> Forall (valid_taxi st G) taxis ->
  (exists k t d,
     nth_error taxis k = Some t /\
     cell_distance G (location_of st t) dest d /\ d < fuel_of st t /\
     (forall j u e, nth_error taxis j = Some u ->
        cell_distance G (location_of st u) dest e -> e < fuel_of st u ->
        d <= e /\ (e = d -> (k <= j)%nat)) /\
     find_closest_taxi sp st G taxis dest = Some (taxi_index t)) \/
  ((forall t e, In t taxis ->
      cell_distance G (location_of st t) dest e -> fuel_of st t <= e) /\
   find_closest_taxi sp st G taxis dest = Some (-1)).
Proof.
  intros Hd Hv. rewrite (find_closest_taxi_scan sp G Hsp Hconn _ _ _ Hd Hv).
  pose proof (first_min_spec (within_fuel sp st G dest) taxis) as Hs.
  destruct (first_min _ taxis) as [[t d]|].
  - left. destruct Hs as (k & Hk & Hw & Hmin). exists k, t, d.
    rewrite Forall_forall in Hv.
    destruct (valid_taxi_location G _ _ (Hv _ (nth_error_In _ _ Hk))) as (_ & Hg & _).
    unfold within_fuel in Hw.
    destruct (Z.ltb_spec (cost sp G (location_of st t) dest) (fuel_of st t)); [|discriminate].
    injection Hw as <-.
    split; [assumption|].
    split; [now apply (cost_distance sp desc G Hsp Hinit Hconn)|].
    split; [assumption|]. split; [|reflexivity].
    intros j u e Hj He Hlt. apply (Hmin j u e Hj). unfold within_fuel.
    rewrite (distance_cost sp desc G Hsp Hinit Hconn _ _ _ He).
    destruct (Z.ltb_spec e (fuel_of st u)); [reflexivity | lia].
  - right. split; [|reflexivity]. intros t e Hin He. specialize (Hs t Hin).
    unfold within_fuel in Hs. rewrite (distance_cost sp desc G Hsp Hinit Hconn _ _ _ He) in Hs.
    destruct (Z.ltb_spec e (fuel_of st t)); [discriminate | assumption].
Qed.

(** A taxi that no walk joins to the point makes [find_closest_taxi]
    raise. *)
Lemma find_closest_taxi_no_walk st t rest dest :
  valid_taxi st G t ->
  (forall w, is_walk (graph G) (cors_to_node (cols G) (location_of st t))
               (cors_to_node (cols G) dest) w = false) ->
  find_closest_taxi sp st G (t :: rest) dest = None.
Proof.
  intros Hv Hno. destruct (valid_taxi_location G _ _ Hv) as (Hl & _ & _).
  unfold find_closest_taxi. cbn [fold_left]. unfold closest_step at 2. rewrite Hl.
  assert (E : path_cost sp G (location_of st t) dest = None).
  { unfold path_cost, get_path.
    destruct (Z.eqb_spec (cors_to_node (cols G) (location_of st t)) (cors_to_node (cols G) dest))
      as [E|E].
    - exfalso. destruct Hv as (loc & fuel & Hloc & Hg & _).
      unfold location_of in *. rewrite Hloc in *.
      specialize (Hno [cors_to_node (cols G) loc]).
      rewrite (proj2 (is_walk_single _ _ _)) in Hno; [discriminate|].
      split; [|assumption].
      apply (EnvGraph_init_has_node _ _ _ Hinit). now apply cors_to_node_range.
    - destruct (sp _ _ _) as [p|] eqn:Ep; [|reflexivity].
      destruct Hsp as [Hwalk _]. pose proof (Hwalk _ _ _ Ep) as Hw.
      rewrite Hno in Hw. discriminate. }
  rewrite E. now rewrite fold_left_None.
Qed.

End ClosestFacts.

Section ResidualFacts.

Variable sp : nxGraph -> Z -> Z -> option (list Z).
Variable desc : Desc.
Variable G : EnvGraph.

Hypothesis Hsp : shortest_path_spec sp (graph G).
Hypothesis Hinit : EnvGraph_init desc = Some G.
Hypothesis Hconn : connected G.

Variable st : State.
Variables from_taxi to_taxi : Taxi.
Variable dest : cors.

Hypothesis Hfrom : valid_taxi st G from_taxi.
Hypothesis Hto : valid_taxi st G to_taxi.
Hypothesis Hdest : in_grid G dest.

(** C2, as the code has it.  When the sending taxi has at least one unit
    of fuel, the exhaustive search and the two heuristics return cells; the
    distance from the destination that the search computes for each of them
    is the residual distance of the hand-over at that cell; and the residual
    at the cell of [find_optimal_transfer_point] is at most the residual at
    the point of heuristic 1 and at most the residual at the point of
    heuristic 2. *)
Theorem optimal_no_worse_than_heuristics taxis fi ti pi :
  py_index taxis fi = Some from_taxi ->
  py_index taxis ti = Some to_taxi ->
  taxi_index from_taxi = fi ->
  get_destination_cors st pi = Some dest ->
  1 <= fuel_of st from_taxi ->
  exists c p1 p2 d d1 d2,
    find_optimal_transfer_point sp st G taxis fi ti pi = Some [fst c; snd c] /\
    find_transfer_point_h1 sp st G taxis fi ti pi = Some p1 /\
    find_transfer_point_h2 sp st G taxis fi pi = Some p2 /\
    dist_from_dest_at sp st G from_taxi to_taxi dest c = Some d /\
    dist_from_dest_at sp st G from_taxi to_taxi dest p1 = Some d1 /\
    dist_from_dest_at sp st G from_taxi to_taxi dest p2 = Some d2 /\
    residual_after_transfer G (location_of st from_taxi) (location_of st to_taxi) dest
      (fuel_of st from_taxi) (fuel_of st to_taxi) c d /\
    residual_after_transfer G (location_of st from_taxi) (location_of st to_taxi) dest
      (fuel_of st from_taxi) (fuel_of st to_taxi) p1 d1 /\
    residual_after_transfer G (location_of st from_taxi) (location_of st to_taxi) dest
      (fuel_of st from_taxi) (fuel_of st to_taxi) p2 d2 /\
    d <= d1 /\ d <= d2.
Proof.
  intros Hf Ht Hidx Hd Hfuel.
  destruct (optimal_score_no_worse sp desc G Hsp Hinit Hconn st from_taxi to_taxi dest
              Hfrom Hto Hdest _ _ _ _ Hf Ht Hidx Hd Hfuel)
    as (c & p1 & p2 & d & d1 & d2 & Ho & H1 & H2 & (Hgc & Hg1 & Hg2) & (Hc & Hs1 & Hs2) & Hle1 & Hle2).
  destruct (valid_taxi_location G _ _ Hfrom) as (_ & Hgs & _).
  destruct (valid_taxi_location G _ _ Hto) as (_ & Hgr & _).
  exists c, p1, p2, d, d1, d2.
  split; [assumption|]. split; [assumption|]. split; [assumption|].
  split; [now apply (score_dist_from_dest sp G Hsp Hconn st from_taxi to_taxi dest Hto Hdest)|].
  split; [now apply (score_dist_from_dest sp G Hsp Hconn st from_taxi to_taxi dest Hto Hdest)|].
  split; [now apply (score_dist_from_dest sp G Hsp Hconn st from_taxi to_taxi dest Hto Hdest)|].
  split; [now apply (cell_score_residual sp desc G Hsp Hinit Hconn)|].
  split; [now apply (cell_score_residual sp desc G Hsp Hinit Hconn)|].
  split; [now apply (cell_score_residual sp desc G Hsp Hinit Hconn)|].
  auto.
Qed.

End ResidualFacts.

(** ** The closest taxi and the comparison of the strategies on concrete
       maps *)

Lemma grid3_init : EnvGraph_init grid3 = Some grid3_graph.
Proof. reflexivity. Qed.

Lemma grid3_connected : connected grid3_graph.
Proof. apply (all_joined_connected grid3); reflexivity. Qed.

Lemma walled3_init : EnvGraph_init walled3 = Some walled3_graph.
Proof. reflexivity. Qed.

Lemma walled3_connected : connected walled3_graph.
Proof. apply (all_joined_connected walled3); reflexivity. Qed.

Lemma walled2_init : EnvGraph_init walled2 = Some walled2_graph.
Proof. reflexivity. Qed.

Lemma walled2_no_walk w : is_walk (graph walled2_graph) 0 1 w = false.
Proof.
  destruct w as [|u [|v r]]; [reflexivity | |].
  - simpl. destruct (Z.eqb_spec u 0) as [->|]; reflexivity.
  - simpl. now rewrite andb_false_r.
Qed.

Lemma corridor_distance a b c :
  in_grid corridor3_graph a -> in_grid corridor3_graph b ->
  path_cost search_shortest_path corridor3_graph a b = Some c ->
  cell_distance corridor3_graph a b c.
Proof.
  apply (path_cost_distance search_shortest_path corridor3 corridor3_graph
           (search_shortest_path_spec _) corridor3_init).
Qed.

Lemma find_closest_taxi_first_min_witness :
  find_closest_taxi search_shortest_path (corridor_state 2 3) corridor3_graph two_taxis (0, 2)
  = Some 1.
Proof.
  destruct (find_closest_taxi_first_min search_shortest_path corridor3 corridor3_graph
              (search_shortest_path_spec _) corridor3_init corridor3_connected
              (corridor_state 2 3) two_taxis (0, 2))
    as [(k & t & d & Hk & Hd & Hlt & _ & Hres) | (Hall & _)].
  - apply corridor_in_grid. lia.
  - apply corridor_valid_taxis.
  - destruct k as [|[|k]].
    + simpl in Hk. injection Hk as <-. exfalso.
      assert (E : d = 2).
      { apply (cell_distance_unique corridor3_graph (0, 0) (0, 2)); [exact Hd|].
        apply corridor_distance; [apply corridor_in_grid; lia | apply corridor_in_grid; lia |].
        reflexivity. }
      subst d. vm_compute in Hlt. discriminate.
    + simpl in Hk. injection Hk as <-. exact Hres.
    + simpl in Hk. destruct k; discriminate.
  - exfalso.
    assert (H : fuel_of (corridor_state 2 3) (mk_Taxi 1 [] [] []) <= 0).
    { apply Hall; [right; left; reflexivity|].
      apply (corridor_distance (0, 2) (0, 2) 0);
        [apply corridor_in_grid; lia | apply corridor_in_grid; lia | reflexivity]. }
    vm_compute in H. apply H. reflexivity.
Defined.

(** C7 as stated fails twice.  On a map with a wall between its two cells
    the taxi has no walk to the point, so no distance of it is below its
    fuel, and [find_closest_taxi] raises instead of returning -1.  On the
    corridor, with the taxis listed as taxi 1 then taxi 0 and both one step
    from the point with fuel 3, it returns 1: the first in the order of the
    list, not in the order of the indices. *)
Lemma find_closest_taxi_claim_fails :
  ((forall d, ~ cell_distance walled2_graph (0, 0) (0, 1) d) /\
   find_closest_taxi search_shortest_path (mk_State [(0, 0)] [5] [] [] []) walled2_graph
     [mk_Taxi 0 [] [] []] (0, 1) = None) /\
  (cell_distance corridor3_graph (0, 0) (0, 1) 1 /\
   cell_distance corridor3_graph (0, 2) (0, 1) 1 /\
   find_closest_taxi search_shortest_path (corridor_state 3 3) corridor3_graph
     [mk_Taxi 1 [] [] []; mk_Taxi 0 [] [] []] (0, 1) = Some 1).
Proof.
  split; split.
  - intros d (_ & _ & (w & Hw & _) & _). change (is_walk (graph walled2_graph) 0 1 w = true) in Hw.
    rewrite walled2_no_walk in Hw. discriminate.
  - apply (find_closest_taxi_no_walk search_shortest_path walled2 walled2_graph
             (search_shortest_path_spec _) walled2_init).
    + exists (0, 0), 5. repeat split; simpl; lia.
    + intros w. apply walled2_no_walk.
  - apply corridor_distance; [apply corridor_in_grid; lia | apply corridor_in_grid; lia | reflexivity].
  - split; [|reflexivity].
    apply corridor_distance; [apply corridor_in_grid; lia | apply corridor_in_grid; lia | reflexivity].
Qed.

Lemma optimal_no_worse_than_heuristics_witness :
  (find_optimal_transfer_point search_shortest_path (pair_state (2, 2) (1, 0) 2 4 (1, 1))
     walled3_graph two_taxis 0 1 0 = Some [2; 1] /\
   find_transfer_point_h1 search_shortest_path (pair_state (2, 2) (1, 0) 2 4 (1, 1))
     walled3_graph two_taxis 0 1 0 = Some (1, 2) /\
   find_transfer_point_h2 search_shortest_path (pair_state (2, 2) (1, 0) 2 4 (1, 1))
     walled3_graph two_taxis 0 0 = Some (1, 2) /\
   residual_after_transfer walled3_graph (2, 2) (1, 0) (1, 1) 2 4 (2, 1) 0 /\
   residual_after_transfer walled3_graph (2, 2) (1, 0) (1, 1) 2 4 (1, 2) 1 /\
   0 <= 1) /\
  (find_optimal_transfer_point search_shortest_path (pair_state (0, 2) (1, 2) 3 3 (2, 0))
     grid3_graph two_taxis 0 1 0 = Some [1; 1] /\
   find_transfer_point_h1 search_shortest_path (pair_state (0, 2) (1, 2) 3 3 (2, 0))
     grid3_graph two_taxis 0 1 0 = Some (1, 2) /\
   find_transfer_point_h2 search_shortest_path (pair_state (0, 2) (1, 2) 3 3 (2, 0))
     grid3_graph two_taxis 0 0 = Some (0, 0) /\
   residual_after_transfer grid3_graph (0, 2) (1, 2) (2, 0) 3 3 (1, 1) 1 /\
   residual_after_transfer grid3_graph (0, 2) (1, 2) (2, 0) 3 3 (1, 2) 1 /\
   residual_after_transfer grid3_graph (0, 2) (1, 2) (2, 0) 3 3 (0, 0) 2 /\
   1 <= 1 /\ 1 <= 2).
Proof.
  split.
  - destruct (optimal_no_worse_than_heuristics search_shortest_path walled3 walled3_graph
                (search_shortest_path_spec _) walled3_init walled3_connected
                (pair_state (2, 2) (1, 0) 2 4 (1, 1)) (mk_Taxi 0 [] [] []) (mk_Taxi 1 [] [] [])
                (1, 1)) with (taxis := two_taxis) (fi := 0) (ti := 1) (pi := 0)
      as (c & p1 & p2 & d & d1 & d2 & Ho & H1 & H2 & Hd & Hd1 & Hd2 & Hr & Hr1 & Hr2 & Hle1 & Hle2).
    + exists (2, 2), 2. repeat split; simpl; lia.
    + exists (1, 0), 4. repeat split; simpl; lia.
    + unfold in_grid. simpl. lia.
    + reflexivity.
    + reflexivity.
    + reflexivity.
    + reflexivity.
    + unfold fuel_of. simpl. lia.
    + destruct c as [cr cc]. vm_compute in Ho. injection Ho as <- <-.
      vm_compute in H1. injection H1 as <-. vm_compute in H2. injection H2 as <-.
      vm_compute in Hd. injection Hd as <-. vm_compute in Hd1. injection Hd1 as <-.
      repeat split; try reflexivity; try assumption.
  - destruct (optimal_no_worse_than_heuristics search_shortest_path grid3 grid3_graph
                (search_shortest_path_spec _) grid3_init grid3_connected
                (pair_state (0, 2) (1, 2) 3 3 (2, 0)) (mk_Taxi 0 [] [] []) (mk_Taxi 1 [] [] [])
                (2, 0)) with (taxis := two_taxis) (fi := 0) (ti := 1) (pi := 0)
      as (c & p1 & p2 & d & d1 & d2 & Ho & H1 & H2 & Hd & Hd1 & Hd2 & Hr & Hr1 & Hr2 & Hle1 & Hle2).
    + exists (0, 2), 3. repeat split; simpl; lia.
    + exists (1, 2), 3. repeat split; simpl; lia.
    + unfold in_grid. simpl. lia.
    + reflexivity.
    + reflexivity.
    + reflexivity.
    + reflexivity.
    + unfold fuel_of. simpl. lia.
    + destruct c as [cr cc]. vm_compute in Ho. injection Ho as <- <-.
      vm_compute in H1. injection H1 as <-. vm_compute in H2. injection H2 as <-.
      vm_compute in Hd. injection Hd as <-. vm_compute in Hd1. injection Hd1 as <-.
      vm_compute in Hd2. injection Hd2 as <-.
      repeat split; try reflexivity; try assumption.
Defined.

(** C2 as stated fails.  A sender without fuel: the exhaustive search
    returns the empty list, so there is no cell of which the residual could
    be compared; nor does a hand-over at any cell have a residual, the
    sender making no move. *)
Lemma optimal_without_fuel_returns_no_cell :
  ~ (exists c p1 p2 d d1 d2,
       find_optimal_transfer_point search_shortest_path (corridor_state 0 3) corridor3_graph
         two_taxis 0 1 0 = Some [fst c; snd c] /\
       find_transfer_point_h1 search_shortest_path (corridor_state 0 3) corridor3_graph
         two_taxis 0 1 0 = Some p1 /\
       find_transfer_point_h2 search_shortest_path (corridor_state 0 3) corridor3_graph
         two_taxis 0 0 = Some p2 /\
       residual_after_transfer corridor3_graph (0, 0) (0, 2) (0, 2) 0 3 c d /\
       residual_after_transfer corridor3_graph (0, 0) (0, 2) (0, 2) 0 3 p1 d1 /\
       residual_after_transfer corridor3_graph (0, 0) (0, 2) (0, 2) 0 3 p2 d2 /\
       d <= d1 /\ d <= d2).
Proof.
  intros (c & p1 & p2 & d & d1 & d2 & Hf & _). vm_compute in Hf. discriminate.
Qed.

(** ** The grid graph *)

Lemma node_to_cors_below n_cols u :
  0 < n_cols -> node_to_cors n_cols (u + n_cols) = (u / n_cols + 1, u mod n_cols).
Proof.
  intros Hc. unfold node_to_cors.
  replace (u + n_cols) with (u + 1 * n_cols) by lia.
  rewrite Z.div_add, Z.mod_add by lia. reflexivity.
Qed.

Lemma node_to_cors_right n_cols u :
  0 < n_cols -> u mod n_cols + 1 < n_cols ->
  node_to_cors n_cols (u + 1) = (u / n_cols, u mod n_cols + 1).
Proof.
  intros Hc Hm. unfold node_to_cors.
  pose proof (Z.div_mod u n_cols ltac:(lia)) as Hdm.
  pose proof (Z.mod_pos_bound u n_cols Hc) as Hb.
  assert (Hq : (u + 1) / n_cols = u / n_cols).
  { symmetry. apply (Z.div_unique_pos _ _ _ (u mod n_cols + 1)); lia. }
  assert (Hr : (u + 1) mod n_cols = u mod n_cols + 1).
  { symmetry. apply (Z.mod_unique_pos _ _ (u / n_cols)); lia. }
  now rewrite Hq, Hr.
Qed.

(** The edges of the graph of a map without [:] on its right border. *)
Lemma init_edge_cells desc G x y :
  EnvGraph_init desc = Some G ->
  (forall r, 0 <= r < rows G -> desc_at desc (r + 1) (cols G * 2) <> Some ":"%char) ->
  In (x, y) (edges (graph G)) ->
  0 < cols G /\ 0 <= x < rows G * cols G /\ 0 <= y < rows G * cols G /\
  (y = x + cols G \/ (y = x + 1 /\ x mod cols G + 1 < cols G)).
Proof.
  intros Hinit Hborder Hin. pose proof (EnvGraph_init_cols _ _ Hinit) as Hc0.
  revert Hinit Hin Hborder Hc0. unfold EnvGraph_init.
  destruct (py_index desc 0) as [first|]; [|discriminate].
  destruct (mapM _ _) as [es|] eqn:Hm; [|discriminate].
  intros [= <-]. simpl. intros Hin Hb Hc0.
  destruct (mapM_concat_In _ _ _ _ Hm Hin) as (i & l & Hi & Hl & Hxy).
  apply In_range in Hi.
  set (n_cols := len first / 2) in *. set (n_rows := len desc - 2) in *.
  assert (Hpos : 0 < n_cols).
  { destruct (Z.eq_dec n_cols 0) as [E|]; [rewrite E, Z.mul_0_r in Hi|]; lia. }
  destruct (node_edges_spec _ _ _ _ _ _ _ Hpos Hl Hxy) as (-> & Hy & Hcase).
  split; [assumption|]. split; [assumption|]. split; [assumption|].
  destruct Hcase as [E|[E Hd]]; [now left|]. right. split; [assumption|].
  pose proof (Z.mod_pos_bound i n_cols Hpos) as Hm'.
  destruct (Z.eq_dec (i mod n_cols + 1) n_cols) as [Heq|]; [|lia].
  exfalso. apply (Hb (i / n_cols)).
  - split; [apply Z.div_pos; lia|]. apply Z.div_lt_upper_bound; [lia|]. rewrite Z.mul_comm. lia.
  - replace (n_cols * 2) with (i mod n_cols * 2 + 2) by lia. exact Hd.
Qed.

(** X5. [node_to_cors] and [cors_to_node] are inverse to each other between
    the cells of the grid and the nodes [0 .. rows * cols - 1] of the
    graph. *)
Theorem node_cors_round_trip desc G :
  EnvGraph_init desc = Some G ->
  (forall p, in_grid G p ->
     has_node (graph G) (cors_to_node (cols G) p) = true /\
     node_to_cors (cols G) (cors_to_node (cols G) p) = p) /\
  (forall n, has_node (graph G) n = true ->
     in_grid G (node_to_cors (cols G) n) /\
     cors_to_node (cols G) (node_to_cors (cols G) n) = n).
Proof.
  intros Hinit. split.
  - intros p Hp. split.
    + apply (EnvGraph_init_has_node _ _ _ Hinit). now apply cors_to_node_range.
    + apply node_to_cors_to_node. apply Hp.
  - intros n Hn. apply node_to_cors_in_grid; [eapply EnvGraph_init_cols; eauto|].
    now apply (EnvGraph_init_has_node _ _ _ Hinit).
Qed.

(** X6. On a map without [:] on its right border, every edge of the graph
    joins two cells of the grid that are next to each other in one row or in
    one column. *)
Theorem EnvGraph_edges_adjacent desc G u v :
  EnvGraph_init desc = Some G ->
  (forall r, 0 <= r < rows G -> desc_at desc (r + 1) (cols G * 2) <> Some ":"%char) ->
  has_edge (graph G) u v = true ->
  let a := node_to_cors (cols G) u in
  let b := node_to_cors (cols G) v in
  in_grid G a /\ in_grid G b /\
  Z.abs (fst a - fst b) + Z.abs (snd a - snd b) = 1.
Proof.
  intros Hinit Hborder He a b.
  pose proof (EnvGraph_init_cols _ _ Hinit) as Hc0.
  unfold has_edge in He. rewrite existsb_exists in He. destruct He as ([x y] & Hin & Hxy).
  destruct (init_edge_cells _ _ _ _ Hinit Hborder Hin) as (Hc & Hx & Hy & Hcase).
  destruct (node_to_cors_in_grid G x Hc0 Hx) as [Hgx _].
  destruct (node_to_cors_in_grid G y Hc0 Hy) as [Hgy _].
  assert (Hd : Z.abs (fst (node_to_cors (cols G) x) - fst (node_to_cors (cols G) y)) +
               Z.abs (snd (node_to_cors (cols G) x) - snd (node_to_cors (cols G) y)) = 1).
  { destruct Hcase as [->|[-> Hm]].
    - rewrite node_to_cors_below by assumption. unfold node_to_cors; simpl. lia.
    - rewrite node_to_cors_right by assumption. unfold node_to_cors; simpl. lia. }
  simpl in Hxy. apply orb_prop in Hxy.
  destruct Hxy as [H|H]; apply andb_prop in H; destruct H as [H1 H2];
    apply Z.eqb_eq in H1, H2; subst x y; subst a b.
  - auto.
  - split; [assumption|]. split; [assumption|]. lia.
Qed.

(** X7. [get_path] returns as many cells as actions, and [path_cost] is
    that number. *)
Theorem get_path_cells_actions sp G a b cells acts :
  shortest_path_spec sp (graph G) -> in_grid G a ->
  get_path sp G a b = Some (cells, acts) ->
  List.length cells = List.length acts /\
  path_cost sp G a b = Some (Z.of_nat (List.length cells)).
Proof.
  intros Hsp Ha Hp. pose proof (get_path_lengths sp G Hsp _ _ _ _ Ha Hp) as Hl.
  unfold len in Hl. split; [lia|].
  rewrite (path_cost_length _ _ _ _ _ _ Hp). unfold len. now rewrite Hl.
Qed.

(** X8. On a map of at least two columns without [:] on its right border,
    the actions of a path, applied one at a time from the origin, visit
    exactly the returned cells, and the last cell is the target. *)
Theorem get_path_actions_replay sp desc G a b cells acts :
  shortest_path_spec sp (graph G) ->
  EnvGraph_init desc = Some G ->
  2 <= cols G ->
  (forall r, 0 <= r < rows G -> desc_at desc (r + 1) (cols G * 2) <> Some ":"%char) ->
  in_grid G a -> in_grid G b -> a <> b ->
  get_path sp G a b = Some (cells, acts) ->
  replay a acts = cells /\ nth_error cells (List.length acts - 1) = Some b.
Proof.
  intros Hsp Hinit Hcols Hborder Ha Hb Hne Hp.
  destruct (get_path_replay sp desc G Hsp Hinit Hcols Hborder _ _ _ _ Ha Hb Hne Hp)
    as (_ & Hr & He & _).
  auto.
Qed.

(** ** Transfer points within the sender's budget *)

Section TransferExtra.

Variable sp : nxGraph -> Z -> Z -> option (list Z).
Variable desc : Desc.
Variable G : EnvGraph.

Hypothesis Hsp : shortest_path_spec sp (graph G).
Hypothesis Hinit : EnvGraph_init desc = Some G.
Hypothesis Hconn : connected G.

Variable st : State.
Variables from_taxi to_taxi : Taxi.
Variable dest : cors.

Hypothesis Hfrom : valid_taxi st G from_taxi.
Hypothesis Hto : valid_taxi st G to_taxi.
Hypothesis Hdest : in_grid G dest.

(** X9. With at least one unit of fuel, heuristic 1 returns, among the
    receiver's location followed by the cells of its shortest path to the
    destination, the point of the first candidate of least shortfall: the
    candidate itself when the shortfall is 0, else the cell the sender
    reaches after [fuel - 1] steps of its shortest path to the candidate. *)
Theorem find_transfer_point_h1_with_fuel taxis fi ti pi fuel :
  py_index taxis fi = Some from_taxi ->
  py_index taxis ti = Some to_taxi ->
  get_destination_cors st pi = Some dest ->
  py_index (FUELS st) fi = Some fuel ->
  1 <= fuel ->
  exists k c,
    is_first_min (fun c => Some (shortfall sp G (location_of st from_taxi) fuel c))
      (location_of st to_taxi :: path_cells sp G (location_of st to_taxi) dest)
      k c (shortfall sp G (location_of st from_taxi) fuel c) /\
    find_transfer_point_h1 sp st G taxis fi ti pi =
      Some (if shortfall sp G (location_of st from_taxi) fuel c =? 0 then c
            else nth (Z.to_nat (fuel - 1))
                     (location_of st from_taxi :: path_cells sp G (location_of st from_taxi) c)
                     (location_of st from_taxi)).
Proof.
  intros Hf Ht Hd Hfu Hfuel.
  destruct (find_transfer_point_h1_first_min sp desc G Hsp Hinit Hconn st from_taxi to_taxi dest
              Hfrom Hto Hdest _ _ _ _ _ Hf Ht Hd Hfu Hfuel) as (k & c & Hk & _ & Hh).
  eauto.
Qed.

(** X10. With at least one unit of fuel, the point of heuristic 1 is a cell
    of the grid that the sender reaches within its fuel minus one. *)
Theorem find_transfer_point_h1_reachable taxis fi ti pi :
  py_index taxis fi = Some from_taxi ->
  py_index taxis ti = Some to_taxi ->
  taxi_index from_taxi = fi ->
  get_destination_cors st pi = Some dest ->
  1 <= fuel_of st from_taxi ->
  exists p c, find_transfer_point_h1 sp st G taxis fi ti pi = Some p /\
    in_grid G p /\
    path_cost sp G (location_of st from_taxi) p = Some c /\ c <= fuel_of st from_taxi - 1.
Proof.
  intros Hf Ht Hidx Hd Hfuel.
  destruct (find_transfer_point_h1_reach sp desc G Hsp Hinit Hconn st from_taxi to_taxi dest
              Hfrom Hto Hdest _ _ _ _ Hf Ht Hidx Hd Hfuel) as (p & Hp & Hg & Hc).
  destruct (valid_taxi_location G _ _ Hfrom) as (_ & Hgl & _).
  destruct (path_cost_total sp G Hsp Hconn _ _ Hgl Hg) as [Hpc _].
  exists p, (cost sp G (location_of st from_taxi) p). auto.
Qed.

(** X11. With at least one unit of fuel, the point of heuristic 2 is a cell
    of the grid that the sender reaches within its fuel minus one. *)
Theorem find_transfer_point_h2_reachable taxis fi pi :
  py_index taxis fi = Some from_taxi ->
  get_destination_cors st pi = Some dest ->
  1 <= fuel_of st from_taxi ->
  exists p c, find_transfer_point_h2 sp st G taxis fi pi = Some p /\
    in_grid G p /\
    path_cost sp G (location_of st from_taxi) p = Some c /\ c <= fuel_of st from_taxi - 1.
Proof.
  intros Hf Hd Hfuel.
  destruct (find_transfer_point_h2_reach sp desc G Hsp Hinit Hconn st from_taxi dest
              Hfrom Hdest _ _ _ Hf Hd Hfuel) as (p & Hp & Hg & Hc).
  destruct (valid_taxi_location G _ _ Hfrom) as (_ & Hgl & _).
  destruct (path_cost_total sp G Hsp Hconn _ _ Hgl Hg) as [Hpc _].
  exists p, (cost sp G (location_of st from_taxi) p). auto.
Qed.

(** The point of heuristic 2 leaves to the destination what the sender's
    budget does not cover. *)
Lemma h2_point_rest taxis fi pi :
  py_index taxis fi = Some from_taxi ->
  get_destination_cors st pi = Some dest ->
  1 <= fuel_of st from_taxi ->
  exists p, in_grid G p /\
    cost sp G (location_of st from_taxi) p <= fuel_of st from_taxi - 1 /\
    cost sp G p dest =
      Z.max 0 (cost sp G (location_of st from_taxi) dest - (fuel_of st from_taxi - 1)).
Proof.
  intros Hf Hd Hfuel. destruct (valid_taxi_location G _ _ Hfrom) as (Hl & Hg & Hfu).
  destruct (get_path_total sp G Hsp Hconn _ _ Hg Hdest) as (cells & acts & Hp & _ & Hacts).
  destruct (find_transfer_point_h2_index sp G Hsp st from_taxi dest Hfrom _ _ _ _ _ Hf Hd Hp)
    as [_ [p Hnth]].
  pose proof (len_nonneg acts) as Hnn.
  destruct (path_split sp desc G Hsp Hinit _ _ _ _ _ _ Hg Hdest Hp Hnth) as [H1 H2].
  destruct (path_point sp desc G Hsp Hinit _ _ _ _ _ _ Hg Hp Hnth) as (Hgp & _ & _).
  exists p. split; [assumption|].
  unfold cost at 1 2. rewrite H1, H2, <- Hacts. lia.
Qed.

(** X12. With at least one unit of fuel, the distance from the destination
    that [find_optimal_transfer_point] computes for the cell it returns is
    at most what the sender would leave on its own,
    max(0, cost to the destination - (fuel - 1)); it is 0 when the sender
    reaches the destination within its fuel minus one. *)
Theorem optimal_no_worse_than_sender_alone taxis fi ti pi :
  py_index taxis fi = Some from_taxi ->
  py_index taxis ti = Some to_taxi ->
  get_destination_cors st pi = Some dest ->
  1 <= fuel_of st from_taxi ->
  exists c d,
    find_optimal_transfer_point sp st G taxis fi ti pi = Some [fst c; snd c] /\
    dist_from_dest_at sp st G from_taxi to_taxi dest c = Some d /\
    0 <= d <= Z.max 0 (cost sp G (location_of st from_taxi) dest - (fuel_of st from_taxi - 1)).
Proof.
  intros Hf Ht Hd Hfuel.
  destruct (h2_point_rest _ _ _ Hf Hd Hfuel) as (p & Hgp & Hreach & Hrest).
  set (score := cell_score sp G (location_of st from_taxi) (location_of st to_taxi) dest
                  (fuel_of st from_taxi) (fuel_of st to_taxi)).
  destruct (score_reachable sp G st from_taxi to_taxi dest p Hreach) as [dp Hdp].
  fold score in Hdp.
  destruct (first_min_all_cells G score) as (c & d & Hmin & Hg & Hc & Hle).
  { exists p. split; [assumption | congruence]. }
  exists c, d.
  rewrite (find_optimal_first_min sp G Hsp Hconn st from_taxi to_taxi dest Hfrom Hto Hdest
             _ _ _ _ Hf Ht Hd).
  fold score. rewrite Hmin. split; [reflexivity|].
  split; [now apply (score_dist_from_dest sp G Hsp Hconn st from_taxi to_taxi dest Hto Hdest)|].
  destruct (Hle p dp Hgp Hdp) as [Hdle _].
  destruct (valid_taxi_location G _ _ Hto) as (_ & Hgl & _).
  destruct (path_cost_total sp G Hsp Hconn _ _ Hgp Hdest) as [_ Hpos].
  destruct (path_cost_total sp G Hsp Hconn _ _ Hg Hdest) as [_ Hpos'].
  destruct (path_cost_total sp G Hsp Hconn _ _ Hgl Hg) as [_ Hpos''].
  assert (Hdp' : dp <= cost sp G p dest).
  { unfold score, cell_score in Hdp.
    destruct (_ >? _) in Hdp; [discriminate|].
    destruct (Z.gtb_spec (cost sp G (location_of st to_taxi) p) (fuel_of st to_taxi - 1));
      injection Hdp as <-; lia. }
  assert (Hd0 : 0 <= d).
  { unfold score, cell_score in Hc.
    destruct (_ >? _) in Hc; [discriminate|].
    destruct (_ >? _) in Hc; injection Hc as <-; lia. }
  lia.
Qed.

End TransferExtra.

(** ** The action queue *)

Lemma drain_queue : forall q t,
  actions_queue t = q ->
  drain (List.length q) t = (q, set_actions_queue t []).
Proof.
  induction q as [|a q IH]; intros t Hq.
  - simpl. destruct t; simpl in *; subst; reflexivity.
  - simpl. unfold Taxi_get_next_step. rewrite Hq.
    rewrite (IH (set_actions_queue t q) eq_refl). reflexivity.
Qed.

(** X13. The queue is first in, first out: as many calls of [get_next_step]
    as the queue holds actions return them in order and leave the queue
    empty, and a call on an empty queue returns [None] and changes
    nothing. *)
Theorem get_next_step_fifo t :
  drain (List.length (actions_queue t)) t = (actions_queue t, set_actions_queue t []) /\
  Taxi_get_next_step (set_actions_queue t []) = (None, set_actions_queue t []).
Proof. split; [now apply drain_queue | reflexivity]. Qed.

Section QueueFacts.

Variable sp : nxGraph -> Z -> Z -> option (list Z).
Variable desc : Desc.
Variable G : EnvGraph.

Hypothesis Hsp : shortest_path_spec sp (graph G).
Hypothesis Hinit : EnvGraph_init desc = Some G.
Hypothesis Hconn : connected G.
Hypothesis Hcols : 2 <= cols G.
Hypothesis Hborder :
  forall r, 0 <= r < rows G -> desc_at desc (r + 1) (cols G * 2) <> Some ":"%char.

(** X14. On a connected map of at least two columns without [:] on its right
    border, the actions [send_taxi_to_point] queues on an empty queue, taken
    one by one with [get_next_step] and applied from the taxi's location,
    end on the point. *)
Theorem send_taxi_to_point_reaches st t point :
  valid_taxi st G t -> in_grid G point ->
  actions_queue t = [] ->
  location_of st t <> point ->
  exists t' acts,
    Taxi_send_taxi_to_point sp st G t point = Some t' /\
    drain (List.length (actions_queue t')) t' = (acts, t) /\
    last (replay (location_of st t) acts) (location_of st t) = point.
Proof.
  intros Hv Hp Hq Hne. destruct (valid_taxi_location G _ _ Hv) as (Hl & Hg & _).
  destruct (get_path_total sp G Hsp Hconn _ _ Hg Hp) as (cells & acts & Hpath & _ & _).
  unfold Taxi_send_taxi_to_point, Taxi_compute_shortest_path.
  unfold Taxi_get_location in Hl. rewrite Hl, Hpath. cbn [snd]. rewrite Hq. cbn [app].
  exists (set_actions_queue t acts), acts. split; [reflexivity|].
  split.
  - rewrite (drain_queue acts) by reflexivity. f_equal.
    destruct t; simpl in *; subst; reflexivity.
  - destruct (get_path_replay sp desc G Hsp Hinit Hcols Hborder _ _ _ _ Hg Hp Hne Hpath)
      as (_ & Hr & He & Hlen).
    rewrite Hr.
    assert (Hc : cells <> []).
    { intros ->. destruct acts; simpl in *; discriminate. }
    rewrite <- Hlen in He.
    clear - He Hc. revert He.
    generalize (location_of st t). induction cells as [|x cells IH]; [contradiction|].
    intros d He. destruct cells as [|y cells].
    + simpl in *. congruence.
    + change (last (x :: y :: cells) d) with (last (y :: cells) d).
      apply IH; [discriminate|]. simpl in *. now rewrite Nat.sub_0_r in *.
Qed.

End QueueFacts.

Section DropoffFacts.

Variable sp : nxGraph -> Z -> Z -> option (list Z).
Variable env : TaxiEnv.
Variable G : EnvGraph.
Variable t : Taxi.

(** Without an assigned passenger [send_taxi_to_dropoff] changes nothing,
    whatever the point. *)
Lemma send_taxi_to_dropoff_noop point :
  assigned_passengers t = [] ->
  Taxi_send_taxi_to_dropoff sp env G t point = Some t.
Proof. intros H. unfold Taxi_send_taxi_to_dropoff. now rewrite H. Qed.

Hypothesis Hsp : shortest_path_spec sp (graph G).
Hypothesis Hconn : connected G.

(** X15. With an assigned passenger, a taxi on a connected grid and a
    destination on the grid, [send_taxi_to_dropoff] returns; it appends to
    the queue a path that starts at the taxi's location in the environment,
    whatever the queue already holds, of the cost of that location to the
    destination, then one drop-off action named after the first assigned
    passenger, and it removes that passenger from the assignments.  The
    destination is the given point, or the passenger's own destination when
    the point is [None] or the empty list. *)
Theorem send_taxi_to_dropoff_effect first rest point destination dropoff :
  valid_taxi (state env) G t ->
  assigned_passengers t = first :: rest ->
  (match point with
   | Some (x :: l) => cors_of_list (x :: l)
   | _ => py_index (PASSENGERS_DESTINATIONS (state env)) first
   end) = Some destination ->
  in_grid G destination ->
  dict_get (action_index_dictionary env) ("dropoff" ++ str_of_int first) = Some dropoff ->
  exists t' acts,
    Taxi_send_taxi_to_dropoff sp env G t point = Some t' /\
    actions_queue t' = actions_queue t ++ acts ++ [dropoff] /\
    len acts = cost sp G (location_of (state env) t) destination /\
    assigned_passengers t' = rest /\
    taxi_index t' = taxi_index t /\
    communication_channel t' = communication_channel t.
Proof.
  intros Hv Ha Hd Hg Hk. destruct (valid_taxi_location G _ _ Hv) as (Hl & Hgl & _).
  destruct (get_path_total sp G Hsp Hconn _ _ Hgl Hg) as (cells & acts & Hp & _ & Hacts).
  unfold Taxi_send_taxi_to_dropoff, Taxi_send_taxi_to_point, Taxi_compute_shortest_path.
  unfold Taxi_get_location in Hl.
  rewrite Ha, Hd, Hl, Hp. cbn [snd set_actions_queue actions_queue]. rewrite Hk.
  eexists _, acts. split; [reflexivity|]. cbn. rewrite <- app_assoc. auto.
Qed.

End DropoffFacts.

(** ** Chained pickups, help requests and the decentralised transfer point *)

Lemma py_index_last {A} (l : list A) (x : A) : py_index (l ++ [x]) (-1) = Some x.
Proof.
  unfold py_index, len. rewrite length_app. cbn [List.length].
  change (-1 <? 0) with true. cbv iota.
  assert (E : -1 + Z.of_nat (List.length l + 1) = Z.of_nat (List.length l)) by lia.
  rewrite E. destruct (Z.ltb_spec (Z.of_nat (List.length l)) 0); [lia|].
  rewrite Nat2Z.id, nth_error_app2, Nat.sub_diag by lia. reflexivity.
Qed.

Section PickupChain.

Variable sp : nxGraph -> Z -> Z -> option (list Z).
Variable env : TaxiEnv.
Variable G : EnvGraph.

(** The loop of [pickup_multiple_passengers] reads nothing of the taxi. *)
Lemma pickup_multiple_step_taxi t t' acc p :
  pickup_multiple_step sp env G t acc p = pickup_multiple_step sp env G t' acc p.
Proof. reflexivity. Qed.

Lemma pickup_multiple_fold_taxi t t' l : forall acc,
  fold_left (pickup_multiple_step sp env G t) l acc =
  fold_left (pickup_multiple_step sp env G t') l acc.
Proof. induction l as [|p l IH]; intros acc; [reflexivity | apply IH]. Qed.

Lemma pickup_multiple_fold_None t l :
  fold_left (pickup_multiple_step sp env G t) l None = None.
Proof. induction l as [|p l IH]; [reflexivity | exact IH]. Qed.

(** After the loop, the origin is the start location of the last passenger. *)
Lemma pickup_multiple_fold_origin t l : forall o q o' q',
  fold_left (pickup_multiple_step sp env G t) l (Some (o, q)) = Some (o', q') ->
  match l with
  | [] => o' = o
  | _ :: _ => exists p, py_index l (-1) = Some p /\
                        py_index (PASSENGERS_START_LOCATION (state env)) p = Some o'
  end.
Proof.
  induction l as [|x l IH] using rev_ind; intros o q o' q' H.
  - simpl in H. congruence.
  - rewrite fold_left_app in H. cbn [fold_left] in H.
    destruct (fold_left _ l (Some (o, q))) as [[o1 q1]|]; [|discriminate].
    unfold pickup_multiple_step in H.
    destruct (py_index _ x) as [loc|] eqn:El; [|discriminate].
    destruct (Taxi_compute_shortest_path _ _ _ _ _ _) as [r|]; [|discriminate].
    destruct (dict_get _ _); [|discriminate]. injection H as <- <-.
    destruct (l ++ [x]) eqn:E; [destruct l; discriminate|]. rewrite <- E.
    exists x. split; [apply py_index_last | assumption].
Qed.

(** X16. Assigning one more passenger extends the plan of
    [pickup_multiple_passengers] by exactly the path that [pickup_cost]
    priced, its cost in moves, followed by one pickup action. *)
Theorem pickup_multiple_passengers_extend t p t1 c pickup :
  Taxi_pickup_multiple_passengers sp env G t = Some t1 ->
  Taxi_pickup_cost sp (state env) G t p = Some c ->
  dict_get (action_index_dictionary env) "pickup"%string = Some pickup ->
  exists acts,
    Taxi_pickup_multiple_passengers sp env G (assign p t) =
      Some (set_actions_queue (assign p t) (actions_queue t1 ++ acts ++ [pickup])) /\
    len acts = c.
Proof.
  unfold Taxi_pickup_multiple_passengers, Taxi_pickup_cost, Taxi_get_location.
  intros H1 Hc Hk. cbn [assign set_assigned_passengers taxi_index assigned_passengers actions_queue].
  destruct (py_index (TAXIS_LOCATIONS (state env)) (taxi_index t)) as [loc|] eqn:El; [|discriminate].
  destruct (fold_left _ (assigned_passengers t) _) as [[o q]|] eqn:Ef; [|discriminate].
  injection H1 as <-. cbn [actions_queue set_actions_queue].
  rewrite fold_left_app. cbn [fold_left].
  rewrite (pickup_multiple_fold_taxi _ t), Ef.
  pose proof (pickup_multiple_fold_origin _ _ _ _ _ _ Ef) as Ho.
  destruct (py_index (PASSENGERS_START_LOCATION (state env)) p) as [ploc|] eqn:Ep; [|discriminate].
  unfold pickup_multiple_step. rewrite Ep. cbn [fst snd].
  unfold Taxi_compute_shortest_path, Taxi_path_cost in *.
  assert (Hg : exists r, get_path sp G o ploc = Some r /\ len (snd r) = c).
  { destruct (assigned_passengers t) as [|a l].
    - subst o. rewrite El in Hc.
      destruct (get_path sp G loc ploc) as [r|]; [|discriminate].
      injection Hc as <-. eauto.
    - destruct Ho as (lastp & Hlast & Hstart). rewrite Hlast, Hstart in Hc.
      destruct (get_path sp G o ploc) as [r|]; [|discriminate].
      injection Hc as <-. eauto. }
  destruct Hg as (r & -> & Hr). rewrite Hk. exists (snd r). split; [reflexivity | assumption].
Qed.

End PickupChain.

Section HelpFacts.

Variable sp : nxGraph -> Z -> Z -> option (list Z).
Variable G : EnvGraph.

Hypothesis Hsp : shortest_path_spec sp (graph G).
Hypothesis Hconn : connected G.

Variable st : State.
Variable t : Taxi.

Hypothesis Ht : valid_taxi st G t.

Lemma request_help_step_total acc p :
  valid_destination st G p ->
  request_help_step sp st G t (Some acc) p =
  Some (if cost sp G (location_of st t) (destination_of st p) >=? fuel_of st t
        then acc ++ [help_request_message (taxi_index t) p]
        else acc).
Proof.
  intros (d & Hd & Hg). unfold request_help_step, destination_of. rewrite Hd.
  rewrite (Taxi_path_cost_total sp G Hsp Hconn _ _ _ Ht Hg).
  destruct (valid_taxi_location G _ _ Ht) as (_ & _ & ->).
  now destruct (_ >=? _).
Qed.

Lemma request_help_fold l : forall acc,
  Forall (valid_destination st G) l ->
  fold_left (request_help_step sp st G t) l (Some acc) =
  Some (acc ++ map (help_request_message (taxi_index t))
                   (filter (fun p => cost sp G (location_of st t) (destination_of st p)
                                     >=? fuel_of st t) l)).
Proof.
  induction l as [|p l IH]; intros acc Hl.
  - simpl. now rewrite app_nil_r.
  - inversion Hl as [|? ? Hp Hrest]; subst.
    cbn [fold_left filter]. rewrite (request_help_step_total _ _ Hp).
    destruct (_ >=? _).
    + rewrite IH by assumption. cbn [map]. now rewrite <- app_assoc.
    + now apply IH.
Qed.

(** X17. [request_help_message] returns one help request, in the order of
    the assignments, for exactly the assigned passengers whose destination
    costs at least the taxi's fuel; it returns none when every destination
    costs less than the fuel. *)
Theorem request_help_message_filter :
  Forall (valid_destination st G) (assigned_passengers t) ->
  Taxi_request_help_message sp st G t =
  Some (map (help_request_message (taxi_index t))
            (filter (fun p => cost sp G (location_of st t) (destination_of st p)
                              >=? fuel_of st t)
                    (assigned_passengers t))).
Proof. intros H. unfold Taxi_request_help_message. now rewrite request_help_fold. Qed.

End HelpFacts.

(** X18. The requesting taxi of the decentralised protocol, given the path
    the helping taxi sent, computes the point that the controller's
    heuristic 1 computes, whatever fuel the helper reports. *)
Theorem find_best_transfer_point_is_h1 sp st G taxis fi ti pi from_taxi to_taxi dest
    path acts to_taxi_fuel :
  py_index taxis fi = Some from_taxi ->
  py_index taxis ti = Some to_taxi ->
  taxi_index from_taxi = fi ->
  taxi_index to_taxi = ti ->
  get_destination_cors st pi = Some dest ->
  Taxi_compute_shortest_path sp st G to_taxi dest None = Some (path, acts) ->
  option_map (fun r => snd (fst r))
    (Taxi_find_best_transfer_point sp st G from_taxi ti pi path to_taxi_fuel) =
  find_transfer_point_h1 sp st G taxis fi ti pi.
Proof.
  intros Hf Ht Hfi Hti Hd Hp.
  unfold Taxi_find_best_transfer_point, find_transfer_point_h1, Taxi_get_location.
  rewrite Ht, Hd, Hp, Hf, Hti, Hfi. cbn [fst].
  destruct (py_index (TAXIS_LOCATIONS st) ti) as [to_loc|]; [|reflexivity].
  destruct (py_index (FUELS st) fi) as [fuel|]; [|reflexivity].
  destruct (mapM _ _) as [off|]; [|reflexivity].
  destruct (py_min_by fst off) as [best|]; reflexivity.
Qed.

(** ** Central allocation *)

Lemma py_update_nth {A} (l : list A) (k : nat) (a : A) (f : A -> A) :
  nth_error l k = Some a ->
  py_update l (Z.of_nat k) f = Some (replace_nth k (f a) l).
Proof.
  intros H. assert (Hk : (k < List.length l)%nat) by (apply nth_error_Some; congruence).
  unfold py_update, replace_nth, len. cbv zeta.
  assert (E1 : (Z.of_nat k <? 0) = false) by (apply Z.ltb_ge; lia).
  assert (E2 : (Z.of_nat (List.length l) <=? Z.of_nat k) = false) by (apply Z.leb_gt; lia).
  rewrite E1. cbv iota. rewrite E1, E2. cbn [orb]. now rewrite Nat2Z.id, H.
Qed.

Lemma py_list_index_first x : forall l k,
  nth_error l k = Some x ->
  (forall j, (j < k)%nat -> nth_error l j <> Some x) ->
  py_list_index x l = Some (Z.of_nat k).
Proof.
  induction l as [|y l IH]; intros k Hk Hfirst; [destruct k; discriminate|].
  simpl. destruct k as [|k].
  - simpl in Hk. injection Hk as ->. now rewrite Z.eqb_refl.
  - destruct (Z.eqb_spec y x) as [->|Hne].
    + exfalso. apply (Hfirst 0%nat); [lia | reflexivity].
    + rewrite (IH k Hk).
      * f_equal. lia.
      * intros j Hj. apply (Hfirst (S j)). lia.
Qed.

Lemma is_first_min_map {A B} (g : A -> B) (score : B -> option Z) l k a d :
  is_first_min (fun x => score (g x)) l k a d ->
  is_first_min score (map g l) k (g a) d.
Proof.
  intros (Hk & Ha & Hmin). split; [now rewrite nth_error_map, Hk|].
  split; [assumption|].
  intros j b e Hj Hb. rewrite nth_error_map in Hj.
  destruct (nth_error l j) as [x|] eqn:Ex; [|discriminate]. injection Hj as <-.
  eauto.
Qed.

(** [min] and [index] find the first position of the least element. *)
Lemma py_min_index costs k m :
  is_first_min (fun c => Some c) costs k m m ->
  py_min costs = Some m /\ py_list_index m costs = Some (Z.of_nat k).
Proof.
  intros H. split.
  - unfold py_min. rewrite py_min_by_first_min. now rewrite (first_min_Some _ _ _ _ _ H).
  - destruct H as (Hk & _ & Hmin). apply py_list_index_first; [assumption|].
    intros j Hj Hnth. destruct (Hmin _ _ _ Hnth eq_refl) as [_ Hle].
    specialize (Hle eq_refl). lia.
Qed.

Lemma replace_nth_length {A} k (a : A) l :
  (k < List.length l)%nat -> List.length (replace_nth k a l) = List.length l.
Proof.
  intros H. unfold replace_nth. rewrite !length_app, length_firstn, length_skipn. simpl. lia.
Qed.

Lemma replace_nth_In {A} k (a x : A) l :
  In x (replace_nth k a l) -> x = a \/ In x l.
Proof.
  unfold replace_nth. intros H. apply in_app_or in H.
  destruct H as [H|[H|H]].
  - right. rewrite <- (firstn_skipn k l). apply in_or_app. now left.
  - now left.
  - right. rewrite <- (firstn_skipn (S k) l). apply in_or_app. now right.
Qed.

Lemma replace_nth_app {A} (a t : A) l2 : forall l1,
  replace_nth (List.length l1) a (l1 ++ t :: l2) = l1 ++ a :: l2.
Proof.
  induction l1 as [|x l1 IH]; [reflexivity|].
  unfold replace_nth in *. cbn [List.length app firstn skipn] in *.
  now rewrite IH.
Qed.

Lemma nth_error_decompose {A} (l : list A) k t :
  nth_error l k = Some t ->
  exists l1 l2, l = l1 ++ t :: l2 /\ List.length l1 = k.
Proof. intros H. destruct (nth_error_split _ _ H) as (l1 & l2 & -> & <-). eauto. Qed.

Lemma mapM_Some_inv {A B} (f : A -> option B) l bs :
  mapM f l = Some bs -> forall a, In a l -> exists b, f a = Some b.
Proof.
  revert bs. induction l as [|x l IH]; intros bs H a Hin; [contradiction|].
  simpl in H. destruct (f x) as [b|] eqn:E; [|discriminate].
  destruct (mapM f l) as [bs0|]; [|discriminate].
  destruct Hin as [<-|Hin]; [eauto | eapply IH; eauto].
Qed.

Lemma mapM_None {A B} (f : A -> option B) l a :
  In a l -> f a = None -> mapM f l = None.
Proof.
  induction l as [|x l IH]; intros Hin Ha; [contradiction|]. simpl.
  destruct Hin as [->|Hin]; [now rewrite Ha|].
  rewrite (IH Hin Ha). now destruct (f x).
Qed.

Section AllocateFacts.

Variable sp : nxGraph -> Z -> Z -> option (list Z).
Variable st : State.
Variable G : EnvGraph.

(** The step of [allocate_passengers] appends the passenger to the taxi at
    the first position of minimal pickup cost. *)
Lemma allocate_step_scan taxis i k t c :
  (forall t, In t taxis -> exists c, Taxi_pickup_cost sp st G t i = Some c) ->
  is_first_min (fun t => Taxi_pickup_cost sp st G t i) taxis k t c ->
  allocate_step sp st G (Some taxis) i = Some (replace_nth k (assign i t) taxis).
Proof.
  intros Hall Hmin.
  set (cost_of := fun t => match Taxi_pickup_cost sp st G t i with Some c => c | None => 0 end).
  assert (Hc : forall t, In t taxis -> Taxi_pickup_cost sp st G t i = Some (cost_of t)).
  { intros t0 Hin. destruct (Hall _ Hin) as [c0 E]. unfold cost_of. now rewrite E. }
  unfold allocate_step. rewrite (mapM_total _ cost_of _ Hc).
  destruct Hmin as (Hk & Ha & Hm).
  assert (Ec : cost_of t = c).
  { pose proof (Hc _ (nth_error_In _ _ Hk)) as E. congruence. }
  assert (Hmin' : is_first_min (fun c => Some c) (map cost_of taxis) k c c).
  { rewrite <- Ec at 1. apply (is_first_min_map cost_of (fun c => Some c)).
    split; [assumption|]. split; [now rewrite Ec|].
    intros j b e Hj He. apply (Hm j b e Hj).
    rewrite (Hc _ (nth_error_In _ _ Hj)). exact He. }
  destruct (py_min_index _ _ _ Hmin') as [-> ->].
  now rewrite (py_update_nth _ _ _ _ Hk).
Qed.

Lemma pickup_cost_first_min taxis i :
  taxis <> [] ->
  (forall t, In t taxis -> exists c, Taxi_pickup_cost sp st G t i = Some c) ->
  exists k t c, is_first_min (fun t => Taxi_pickup_cost sp st G t i) taxis k t c.
Proof.
  intros Hne Hall.
  pose proof (first_min_spec (fun t => Taxi_pickup_cost sp st G t i) taxis) as Hs.
  destruct (first_min _ taxis) as [[t c]|].
  - destruct Hs as [k Hk]. eauto.
  - destruct taxis as [|t0 l]; [congruence|].
    destruct (Hall t0) as [c Hc]; [now left|].
    rewrite (Hs t0) in Hc; [discriminate | now left].
Qed.

(** X19. When every taxi can price the passenger, one step of
    [allocate_passengers] gives the passenger to the first taxi of minimal
    pickup cost and changes no other taxi. *)
Theorem allocate_step_first_min taxis i :
  taxis <> [] ->
  (forall t, In t taxis -> exists c, Taxi_pickup_cost sp st G t i = Some c) ->
  exists k t c,
    is_first_min (fun t => Taxi_pickup_cost sp st G t i) taxis k t c /\
    allocate_step sp st G (Some taxis) i = Some (replace_nth k (assign i t) taxis).
Proof.
  intros Hne Hall. destruct (pickup_cost_first_min _ _ Hne Hall) as (k & t & c & Hmin).
  exists k, t, c. split; [assumption | now apply (allocate_step_scan _ _ _ _ c)].
Qed.

(** The shape of a successful step. *)
Lemma allocate_step_shape taxis i taxis' :
  taxis <> [] ->
  allocate_step sp st G (Some taxis) i = Some taxis' ->
  exists l1 t l2, taxis = l1 ++ t :: l2 /\ taxis' = l1 ++ assign i t :: l2.
Proof.
  intros Hne H.
  destruct (mapM (fun t => Taxi_pickup_cost sp st G t i) taxis) as [costs|] eqn:Em.
  - pose proof (mapM_Some_inv _ _ _ Em) as Hall.
    destruct (pickup_cost_first_min _ _ Hne Hall) as (k & t & c & Hmin).
    rewrite (allocate_step_scan _ _ _ _ _ Hall Hmin) in H. injection H as <-.
    destruct Hmin as (Hk & _).
    destruct (nth_error_decompose _ _ _ Hk) as (l1 & l2 & -> & <-).
    exists l1, t, l2. split; [reflexivity | apply replace_nth_app].
  - unfold allocate_step in H. rewrite Em in H. discriminate.
Qed.

Lemma allocate_step_None i : allocate_step sp st G None i = None.
Proof. reflexivity. Qed.

(** What a run of the loop keeps: the taxis, in their order, and every
    assignment made before; what it adds: each passenger once. *)
Lemma allocate_fold_conservation ps : forall taxis taxis',
  taxis <> [] ->
  fold_left (allocate_step sp st G) ps (Some taxis) = Some taxis' ->
  map taxi_index taxis' = map taxi_index taxis /\
  map actions_queue taxis' = map actions_queue taxis /\
  Permutation (concat (map assigned_passengers taxis'))
              (concat (map assigned_passengers taxis) ++ ps).
Proof.
  induction ps as [|i ps IH]; intros taxis taxis' Hne H.
  - simpl in H. injection H as <-. rewrite app_nil_r. auto.
  - cbn [fold_left] in H.
    destruct (allocate_step sp st G (Some taxis) i) as [taxis1|] eqn:E.
    + destruct (allocate_step_shape _ _ _ Hne E) as (l1 & t & l2 & -> & ->).
      assert (Hne1 : l1 ++ assign i t :: l2 <> []) by now destruct l1.
      destruct (IH _ _ Hne1 H) as (Hi & Hq & Hp).
      rewrite Hi, Hq. rewrite !map_app. cbn [map assign set_assigned_passengers taxi_index actions_queue].
      split; [reflexivity|]. split; [reflexivity|].
      rewrite Hp. rewrite !map_app, !concat_app. cbn [map concat assign set_assigned_passengers assigned_passengers].
      rewrite <- !app_assoc. apply Permutation_app_head. apply Permutation_app_head.
      cbn [app]. apply Permutation_middle.
    + rewrite fold_left_None in H by apply allocate_step_None. discriminate.
Qed.

End AllocateFacts.

Section AllocateTotal.

Variable sp : nxGraph -> Z -> Z -> option (list Z).
Variable G : EnvGraph.

Hypothesis Hsp : shortest_path_spec sp (graph G).
Hypothesis Hconn : connected G.

Variable st : State.

(** A taxi on the grid whose assigned passengers all start on the grid. *)
Let ready (t : Taxi) : Prop :=
  valid_taxi st G t /\ Forall (valid_passenger st G) (assigned_passengers t).

Lemma pickup_cost_total t p :
  valid_taxi st G t -> Forall (valid_passenger st G) (assigned_passengers t) ->
  valid_passenger st G p ->
  exists c, Taxi_pickup_cost sp st G t p = Some c.
Proof.
  intros Hv Ha (loc & Hl & Hg). unfold Taxi_pickup_cost. rewrite Hl.
  destruct (assigned_passengers t) as [|a l] eqn:E.
  - rewrite (Taxi_path_cost_total sp G Hsp Hconn _ _ _ Hv Hg). eauto.
  - destruct (@exists_last _ (a :: l)) as (l' & x & El); [discriminate|].
    rewrite El in *. rewrite py_index_last.
    apply Forall_app in Ha. destruct Ha as [_ Hx].
    inversion Hx as [|? ? (o & Ho & Hog) _]; subst.
    rewrite Ho. rewrite (Taxi_path_cost_from sp G Hsp Hconn _ _ _ _ Hog Hg). eauto.
Qed.

Lemma allocate_fold_total ps : forall taxis,
  taxis <> [] -> Forall ready taxis -> Forall (valid_passenger st G) ps ->
  exists taxis', fold_left (allocate_step sp st G) ps (Some taxis) = Some taxis'.
Proof.
  induction ps as [|i ps IH]; intros taxis Hne Hr Hps; [simpl; eauto|].
  inversion Hps as [|? ? Hi Hrest]; subst. cbn [fold_left].
  assert (Hall : forall t, In t taxis -> exists c, Taxi_pickup_cost sp st G t i = Some c).
  { intros t Hin. rewrite Forall_forall in Hr. destruct (Hr _ Hin) as [Hv Ha].
    now apply pickup_cost_total. }
  destruct (pickup_cost_first_min sp st G _ i Hne Hall) as (k & t & c & Hmin).
  rewrite (allocate_step_scan sp st G _ _ _ _ c Hall Hmin).
  destruct Hmin as (Hk & _).
  destruct (nth_error_decompose _ _ _ Hk) as (l1 & l2 & -> & <-).
  rewrite replace_nth_app. apply IH; [now destruct l1 | | assumption].
  apply Forall_app in Hr. destruct Hr as [Hr1 Hr2].
  inversion Hr2 as [|? ? [Hv Ha] Hr3]; subst.
  apply Forall_app. split; [assumption|]. constructor; [|assumption].
  split; [exact Hv|]. cbn [assign set_assigned_passengers assigned_passengers].
  apply Forall_app. split; [assumption | now constructor].
Qed.

(** X20. With the taxis and the passengers on a connected grid,
    [allocate_passengers] returns; it keeps the taxis, their order, their
    queues and every earlier assignment, and it assigns each of the
    passengers [0 .. num_passengers - 1] to exactly one taxi. *)
Theorem allocate_passengers_conservation taxis n :
  taxis <> [] ->
  Forall (valid_taxi st G) taxis ->
  Forall (fun t => Forall (valid_passenger st G) (assigned_passengers t)) taxis ->
  (forall p, 0 <= p < n -> valid_passenger st G p) ->
  exists taxis',
    allocate_passengers sp st G taxis n = Some taxis' /\
    map taxi_index taxis' = map taxi_index taxis /\
    map actions_queue taxis' = map actions_queue taxis /\
    Permutation (concat (map assigned_passengers taxis'))
                (concat (map assigned_passengers taxis) ++ range n).
Proof.
  intros Hne Hv Ha Hp. unfold allocate_passengers.
  destruct (allocate_fold_total (range n) taxis Hne) as [taxis' H].
  - rewrite Forall_forall in *. intros t Hin. split; [now apply Hv | now apply Ha].
  - apply Forall_forall. intros p Hin. apply Hp. now apply In_range.
  - exists taxis'. split; [assumption|].
    now apply (allocate_fold_conservation sp st G (range n)).
Qed.

End AllocateTotal.

(** ** The decentralised allocation rounds *)

Lemma Taxi_listen_nil t : Taxi_listen t [] = t.
Proof. destruct t. unfold Taxi_listen, set_communication_channel. simpl. now rewrite app_nil_r. Qed.

Lemma Taxi_listen_listen t a b : Taxi_listen (Taxi_listen t a) b = Taxi_listen t (a ++ b).
Proof. unfold Taxi_listen, set_communication_channel. simpl. now rewrite app_assoc. Qed.

Lemma mapM_map {A B C} (f : B -> option C) (h : A -> B) l :
  mapM f (map h l) = mapM (fun x => f (h x)) l.
Proof. induction l as [|a l IH]; [reflexivity|]. simpl. now rewrite IH. Qed.

Lemma mapM_None_inv {A B} (f : A -> option B) l :
  mapM f l = None -> exists a, In a l /\ f a = None.
Proof.
  induction l as [|x l IH]; [discriminate|]. simpl.
  destruct (f x) as [b|] eqn:E; [|exists x; auto].
  destruct (mapM f l); [discriminate|].
  intros _. destruct IH as (a & Hin & Ha); [reflexivity|]. exists a. auto.
Qed.

Lemma concat_map_singleton {A B} (f : A -> B) l : concat (map (fun x => [f x]) l) = map f l.
Proof. induction l as [|a l IH]; [reflexivity|]. simpl. now rewrite IH. Qed.

Lemma nth_error_skipn {A} (l : list A) : forall k t,
  nth_error l k = Some t -> skipn k l = t :: skipn (S k) l.
Proof.
  induction l as [|x l IH]; intros [|k] t H; try discriminate.
  - simpl in H. now injection H as ->.
  - simpl in H. change (skipn (S k) (x :: l)) with (skipn k l). now rewrite (IH _ _ H).
Qed.

Lemma py_update_app {A} (f : A -> A) l1 x l2 :
  py_update (l1 ++ x :: l2) (Z.of_nat (List.length l1)) f = Some (l1 ++ f x :: l2).
Proof.
  rewrite (py_update_nth _ _ x).
  - now rewrite replace_nth_app.
  - rewrite nth_error_app2 by lia. now rewrite Nat.sub_diag.
Qed.

Lemma nth_error_update {A} (f : A -> A) l1 x l2 k t :
  nth_error (l1 ++ x :: l2) k = Some t ->
  exists t', nth_error (l1 ++ f x :: l2) k = Some t' /\ (t' = t \/ t' = f t).
Proof.
  intros H. destruct (Nat.lt_ge_cases k (List.length l1)) as [Hlt|Hge].
  - rewrite nth_error_app1 in * by assumption. eauto.
  - rewrite nth_error_app2 in * by assumption.
    destruct (k - List.length l1)%nat as [|n]; simpl in *.
    + injection H as <-. eauto.
    + eauto.
Qed.

Lemma map_select_NoDup {A} (key : A -> Z) (f : A -> A) l1 x l2 :
  NoDup (map key (l1 ++ x :: l2)) ->
  map (fun t => if key x =? key t then f t else t) (l1 ++ x :: l2) = l1 ++ f x :: l2.
Proof.
  intros Hnd. rewrite map_app in Hnd. cbn [map] in Hnd.
  apply NoDup_remove_2 in Hnd.
  assert (Hid : forall l, (forall t, In t l -> In (key t) (map key l1 ++ map key l2)) ->
                map (fun t => if key x =? key t then f t else t) l = l).
  { intros l Hl. rewrite <- (map_id l) at 2. apply map_ext_in. intros t Hin.
    destruct (Z.eqb_spec (key x) (key t)) as [E|_]; [|reflexivity].
    exfalso. apply Hnd. rewrite E. now apply Hl. }
  rewrite map_app. cbn [map]. rewrite Z.eqb_refl. f_equal; [|f_equal].
  - apply Hid. intros t Hin. apply in_or_app. left. now apply in_map.
  - apply Hid. intros t Hin. apply in_or_app. right. now apply in_map.
Qed.

(** What a taxi decides on a channel of bids for one passenger. *)
Lemma decide_assignments_result t p bids ti c d :
  communication_channel t = bids_channel p bids ->
  first_min bid_cost bids = Some ((ti, c), d) ->
  Taxi_decide_assignments t =
  Some (set_communication_channel (if ti =? taxi_index t then assign p t else t) []).
Proof.
  intros Hch Hmin. unfold Taxi_decide_assignments. rewrite Hch.
  change (mk_bid_state Inf (VInt (-1)) None) with (decide_acc p None).
  rewrite decide_fold_scan. unfold first_min in Hmin. rewrite Hmin.
  cbn [decide_acc fst bs_assigned_taxi bs_passenger_index val_eq_int as_int].
  now destruct (ti =? taxi_index t).
Qed.

Section DecentralFacts.

Variable sp : nxGraph -> Z -> Z -> option (list Z).
Variable st : State.
Variable G : EnvGraph.

Lemma allocation_message_listen t m i :
  Taxi_passenger_allocation_message sp st G (Taxi_listen t m) i =
  Taxi_passenger_allocation_message sp st G t i.
Proof. reflexivity. Qed.

(** One taxi's bid reaches every taxi. *)
Lemma listen_fold i k msg : forall post pre,
  (exists taxi, nth_error (pre ++ post) k = Some taxi /\
                Taxi_passenger_allocation_message sp st G taxi i = Some msg) ->
  fold_left (listen_step sp st G i k)
            (map Z.of_nat (seq (List.length pre) (List.length post))) (Some (pre ++ post)) =
  Some (pre ++ map (fun t => Taxi_listen t msg) post).
Proof.
  induction post as [|x post IH]; intros pre Hk; [reflexivity|].
  cbn [List.length seq map fold_left].
  destruct Hk as (taxi & Hn & Hm).
  unfold listen_step at 2. rewrite Hn, Hm, py_update_app.
  replace (pre ++ Taxi_listen x msg :: post) with ((pre ++ [Taxi_listen x msg]) ++ post)
    by now rewrite <- app_assoc.
  replace (S (List.length pre)) with (List.length (pre ++ [Taxi_listen x msg]))
    by (rewrite length_app; simpl; lia).
  rewrite IH.
  - now rewrite <- app_assoc.
  - rewrite <- app_assoc. cbn [app].
    destruct (nth_error_update (fun t => Taxi_listen t msg) _ _ _ _ _ Hn) as (t' & Hn' & [->| ->]);
      eauto.
Qed.

Lemma broadcast_step_taxi i all k taxi :
  all <> [] -> nth_error all k = Some taxi ->
  broadcast_step sp st G i (Some all) k =
  (msg <- Taxi_passenger_allocation_message sp st G taxi i ;;
   Some (map (fun t => Taxi_listen t msg) all)).
Proof.
  intros Hne Hk. unfold broadcast_step, range, len. rewrite Nat2Z.id.
  destruct (Taxi_passenger_allocation_message sp st G taxi i) as [msg|] eqn:Em.
  - apply (listen_fold i k msg all []). eauto.
  - destruct all as [|x all]; [congruence|]. cbn [List.length seq map fold_left].
    unfold listen_step at 2. rewrite Hk, Em.
    apply fold_left_None. reflexivity.
Qed.

(** Every taxi's bid reaches every taxi, or the first bid that cannot be
    computed stops the round. *)
Lemma broadcast_fold i : forall m a all,
  all <> [] -> (a + m = List.length all)%nat ->
  fold_left (broadcast_step sp st G i) (seq a m) (Some all) =
  (msgs <- mapM (fun t => Taxi_passenger_allocation_message sp st G t i) (skipn a all) ;;
   Some (map (fun t => Taxi_listen t (concat msgs)) all)).
Proof.
  induction m as [|m IH]; intros a all Hne Hlen.
  - rewrite skipn_all2 by lia. simpl. f_equal.
    rewrite <- (map_id all) at 1. apply map_ext. intros t. now rewrite Taxi_listen_nil.
  - cbn [seq fold_left].
    destruct (nth_error all a) as [taxi|] eqn:Ea;
      [|apply nth_error_None in Ea; lia].
    rewrite (broadcast_step_taxi _ _ _ _ Hne Ea), (nth_error_skipn _ _ _ Ea).
    cbn [mapM].
    destruct (Taxi_passenger_allocation_message sp st G taxi i) as [msg|].
    + rewrite IH; [| now destruct all | rewrite length_map; lia].
      rewrite skipn_map, mapM_map.
      destruct (mapM _ (skipn (S a) all)) as [msgs|]; [|reflexivity].
      f_equal. rewrite map_map. apply map_ext. intros t.
      cbn [concat]. apply Taxi_listen_listen.
    + apply fold_left_None. reflexivity.
Qed.

(** A round of the decentralised protocol is a step of the controller's
    loop. *)
Lemma allocation_round_step taxis i :
  taxis <> [] -> NoDup (map taxi_index taxis) ->
  Forall (fun t => communication_channel t = []) taxis ->
  allocation_round sp st G (Some taxis) i = allocate_step sp st G (Some taxis) i.
Proof.
  intros Hne Hnd Hch. unfold allocation_round.
  rewrite (broadcast_fold i (List.length taxis) 0 taxis Hne eq_refl). cbn [skipn].
  destruct (mapM (fun t => Taxi_pickup_cost sp st G t i) taxis) as [costs|] eqn:Em.
  - pose proof (mapM_Some_inv _ _ _ Em) as Hall.
    set (cost_of := fun t => match Taxi_pickup_cost sp st G t i with Some c => c | None => 0 end).
    assert (Hc : forall t, In t taxis -> Taxi_pickup_cost sp st G t i = Some (cost_of t)).
    { intros t0 Hin. destruct (Hall _ Hin) as [c0 E]. unfold cost_of. now rewrite E. }
    rewrite (mapM_total _ (fun t => [allocation_message (taxi_index t) i (cost_of t)])).
    2:{ intros t Hin. unfold Taxi_passenger_allocation_message. now rewrite (Hc _ Hin). }
    rewrite concat_map_singleton.
    set (bids := map (fun t => (taxi_index t, cost_of t)) taxis).
    assert (Eb : map (fun t => allocation_message (taxi_index t) i (cost_of t)) taxis =
                 bids_channel i bids).
    { unfold bids_channel, bids. rewrite map_map. reflexivity. }
    rewrite Eb.
    destruct (pickup_cost_first_min sp st G _ i Hne Hall) as (k & tk & c & Hmin).
    rewrite (allocate_step_scan sp st G _ _ _ _ c Hall Hmin).
    assert (Hfm : first_min bid_cost bids = Some ((taxi_index tk, cost_of tk), c)).
    { apply (first_min_Some _ _ k).
      apply (is_first_min_map (fun t => (taxi_index t, cost_of t)) bid_cost).
      destruct Hmin as (Hk & Ha & Hm). split; [assumption|].
      split; [unfold bid_cost; cbn [snd]; rewrite <- Ha; symmetry;
              apply Hc; eapply nth_error_In; eauto|].
      intros j b e Hj He. apply (Hm j b e Hj).
      rewrite (Hc _ (nth_error_In _ _ Hj)). exact He. }
    rewrite mapM_map.
    rewrite (mapM_total _ (fun t => if taxi_index tk =? taxi_index t then assign i t else t)).
    2:{ intros t Hin. rewrite Forall_forall in Hch. specialize (Hch _ Hin).
        assert (Hx : communication_channel (Taxi_listen t (bids_channel i bids)) =
                     bids_channel i bids) by (simpl; now rewrite Hch).
        rewrite (decide_assignments_result _ i bids _ _ _ Hx Hfm).
        f_equal. destruct t as [ti ch q asg]. simpl in Hch. subst ch.
        cbn [Taxi_listen set_communication_channel taxi_index communication_channel
             actions_queue assigned_passengers app].
        now destruct (taxi_index tk =? ti). }
    f_equal. destruct Hmin as (Hk & _).
    destruct (nth_error_decompose _ _ _ Hk) as (l1 & l2 & -> & <-).
    rewrite replace_nth_app. now apply map_select_NoDup.
  - destruct (mapM_None_inv _ _ Em) as (t & Hin & Ht).
    rewrite (mapM_None _ _ t Hin).
    + unfold allocate_step. now rewrite Em.
    + unfold Taxi_passenger_allocation_message. now rewrite Ht.
Qed.

Lemma allocation_round_None i : allocation_round sp st G None i = None.
Proof. reflexivity. Qed.

Lemma decentralized_fold ps : forall taxis,
  taxis <> [] -> NoDup (map taxi_index taxis) ->
  Forall (fun t => communication_channel t = []) taxis ->
  fold_left (allocation_round sp st G) ps (Some taxis) =
  fold_left (allocate_step sp st G) ps (Some taxis).
Proof.
  induction ps as [|i ps IH]; intros taxis Hne Hnd Hch; [reflexivity|].
  cbn [fold_left]. rewrite (allocation_round_step _ _ Hne Hnd Hch).
  destruct (allocate_step sp st G (Some taxis) i) as [taxis1|] eqn:E.
  - destruct (allocate_step_shape sp st G _ _ _ Hne E) as (l1 & t & l2 & -> & ->).
    apply IH.
    + now destruct l1.
    + rewrite map_app in *. exact Hnd.
    + apply Forall_app in Hch. destruct Hch as [H1 H2].
      inversion H2; subst. apply Forall_app. split; [assumption|].
      constructor; assumption.
  - rewrite !fold_left_None; [reflexivity | apply allocate_step_None | apply allocation_round_None].
Qed.

(** X21. For taxis with distinct indices and empty channels, the bidding
    rounds of the decentralised protocol end in the allocation that the
    controller's [allocate_passengers] computes; they fail when it fails. *)
Theorem decentralized_allocation_is_central taxis n :
  taxis <> [] -> NoDup (map taxi_index taxis) ->
  Forall (fun t => communication_channel t = []) taxis ->
  decentralized_allocation sp st G taxis n = allocate_passengers sp st G taxis n.
Proof. intros Hne Hnd Hch. now apply decentralized_fold. Qed.

End DecentralFacts.

(** ** The collaboration experiment *)

Section CollaborationFacts.

Variable sp : nxGraph -> Z -> Z -> option (list Z).
Variable G : EnvGraph.

Hypothesis Hsp : shortest_path_spec sp (graph G).
Hypothesis Hconn : connected G.

Variable st : State.

Lemma py_update_last {A} (f : A -> A) l x :
  py_update (l ++ [x]) (-1) f = Some (l ++ [f x]).
Proof.
  unfold py_update, len. rewrite length_app. cbn [List.length].
  change (-1 <? 0) with true. cbv iota zeta.
  assert (E : -1 + Z.of_nat (List.length l + 1) = Z.of_nat (List.length l)) by lia.
  rewrite E.
  assert (E1 : (Z.of_nat (List.length l) <? 0) = false) by (apply Z.ltb_ge; lia).
  assert (E2 : (Z.of_nat (List.length l + 1) <=? Z.of_nat (List.length l)) = false)
    by (apply Z.leb_gt; lia).
  rewrite E1, E2. cbn [orb]. rewrite Nat2Z.id.
  rewrite nth_error_app2, Nat.sub_diag by lia. cbn [nth_error].
  rewrite firstn_app, Nat.sub_diag, firstn_all. cbn [firstn].
  rewrite skipn_all2 by (rewrite length_app; simpl; lia).
  now rewrite !app_nil_r.
Qed.

(** X22. When no taxi reaches the passenger on less than its fuel,
    [collaboration_case] reports failure with the passenger's own distance
    to her destination, whatever the heuristic, and the passenger has been
    appended to the assignments of the last taxi of the list. *)
Theorem collaboration_case_no_capable front last p h rest :
  Forall (valid_taxi st G) (front ++ [last]) ->
  valid_passenger st G p -> valid_destination st G p ->
  Forall (fun t => fuel_of st t <= cost sp G (location_of st t) (start_of st p))
         (front ++ [last]) ->
  collaboration_case sp st G (front ++ [last]) p h rest =
  Some (0, cost sp G (start_of st p) (destination_of st p), front ++ [assign p last]).
Proof.
  intros Hv (ploc & Hp & Hpg) (pdest & Hd & Hdg) Hfar.
  unfold collaboration_case, get_passenger_cors, get_destination_cors, start_of,
    destination_of in *. rewrite Hp in *. rewrite Hd.
  rewrite (find_closest_taxi_scan sp G Hsp Hconn _ _ _ Hpg Hv).
  rewrite first_min_none.
  - rewrite py_update_last. cbn [Z.eqb].
    destruct (path_cost_total sp G Hsp Hconn _ _ Hpg Hdg) as [-> _]. reflexivity.
  - intros t Hin. rewrite Forall_forall in Hfar. specialize (Hfar _ Hin).
    unfold within_fuel. destruct (Z.ltb_spec (cost sp G (location_of st t) ploc) (fuel_of st t));
      [lia | reflexivity].
Qed.

(** X23. When the taxis carry their positions as indices and some taxi
    reaches the passenger on less than its fuel, [collaboration_case]
    assigns the passenger to the first taxi of least distance among those
    and goes on with that taxi. *)
Theorem collaboration_case_closest taxis p h rest k t d :
  Forall (valid_taxi st G) taxis ->
  valid_passenger st G p ->
  (forall j u, nth_error taxis j = Some u -> taxi_index u = Z.of_nat j) ->
  is_first_min (within_fuel sp st G (start_of st p)) taxis k t d ->
  collaboration_case sp st G taxis p h rest =
  rest (replace_nth k (assign p t) taxis) (Z.of_nat k).
Proof.
  intros Hv (ploc & Hp & Hpg) Hidx Hmin.
  unfold collaboration_case, get_passenger_cors, start_of in *. rewrite Hp in *.
  rewrite (find_closest_taxi_scan sp G Hsp Hconn _ _ _ Hpg Hv).
  rewrite (first_min_Some _ _ _ _ _ Hmin).
  destruct Hmin as (Hk & _). rewrite (Hidx _ _ Hk).
  rewrite (py_update_nth _ _ _ _ Hk).
  destruct (Z.eqb_spec (Z.of_nat k) (-1)); [lia | reflexivity].
Qed.

End CollaborationFacts.

(** ** Executing the queues *)

Lemma str_of_int_inj a b : str_of_int a = str_of_int b -> a = b.
Proof.
  unfold str_of_int. intros H.
  assert (Hn : forall z, NilZero.int_of_string (NilZero.string_of_int (Z.to_int z)) =
                         Some (Z.to_int z)).
  { intros z. apply NilZero.isi; destruct z; simpl; intros [= E];
      try discriminate; now apply Unsigned.to_uint_nonnil in E. }
  pose proof (Hn a) as Ha. rewrite H, Hn in Ha. injection Ha as Ha.
  symmetry. now apply DecimalZ.to_int_inj.
Qed.

Lemma step_key_inj t t' : step_key t = step_key t' -> taxi_index t = taxi_index t'.
Proof.
  unfold step_key. simpl. intros [= H]. apply str_of_int_inj in H. lia.
Qed.

Lemma dict_set_fresh {V} (d : list (string * V)) key v :
  ~ In key (map fst d) -> dict_set d key v = d ++ [(key, v)].
Proof.
  induction d as [|[k v'] d IH]; intros Hn; [reflexivity|]. simpl.
  destruct (String.eqb_spec k key) as [->|_].
  - exfalso. apply Hn. now left.
  - rewrite IH; [reflexivity|]. intros Hin. apply Hn. now right.
Qed.

Lemma dict_set_fold {S V} (kf : S -> string) (vf : S -> V) l : forall d,
  NoDup (map fst d ++ map kf l) ->
  fold_left (fun d s => dict_set d (kf s) (vf s)) l d = d ++ map (fun s => (kf s, vf s)) l.
Proof.
  induction l as [|s l IH]; intros d Hnd; [simpl; now rewrite app_nil_r|].
  cbn [fold_left map] in *.
  rewrite dict_set_fresh.
  - rewrite IH.
    + now rewrite <- app_assoc.
    + rewrite map_app. cbn [map fst]. rewrite <- app_assoc. exact Hnd.
  - apply NoDup_remove_2 in Hnd. intros Hin. apply Hnd. apply in_or_app. now left.
Qed.

Lemma set_actions_queue_empty t : actions_queue t = [] -> set_actions_queue t [] = t.
Proof. destruct t. simpl. now intros ->. Qed.

Lemma any_actions_left_depth taxis : any_actions_left taxis = negb (depth taxis =? 0)%nat.
Proof.
  unfold any_actions_left, depth. induction taxis as [|t taxis IH]; [reflexivity|].
  cbn [existsb map list_max fold_right]. fold (list_max (map (fun t => List.length (actions_queue t)) taxis)).
  rewrite IH. destruct (actions_queue t); cbn [List.length]; [reflexivity|].
  cbn [orb]. destruct (list_max _); reflexivity.
Qed.

Lemma depth_pop taxis :
  depth (map (fun t => snd (Taxi_get_next_step t)) taxis) = Nat.pred (depth taxis).
Proof.
  unfold depth. induction taxis as [|t taxis IH]; [reflexivity|].
  cbn [map list_max fold_right] in *.
  fold (list_max (map (fun t => List.length (actions_queue t)) taxis)).
  fold (list_max (map (fun t => List.length (actions_queue t))
                      (map (fun t => snd (Taxi_get_next_step t)) taxis))).
  rewrite IH. unfold Taxi_get_next_step.
  destruct (actions_queue t) as [|a q] eqn:E; cbn [snd set_actions_queue actions_queue List.length].
  - rewrite E. simpl. lia.
  - lia.
Qed.

Lemma step_at_pop r taxis :
  step_at r (map (fun t => snd (Taxi_get_next_step t)) taxis) = step_at (S r) taxis.
Proof.
  unfold step_at. induction taxis as [|t taxis IH]; [reflexivity|].
  cbn [map flat_map]. rewrite IH. f_equal.
  unfold Taxi_get_next_step. destruct (actions_queue t) as [|a q] eqn:E; cbn [snd].
  - rewrite E. now destruct r.
  - reflexivity.
Qed.

Lemma step_at_nonempty taxis : any_actions_left taxis = true -> step_at 0 taxis <> [].
Proof.
  unfold any_actions_left, step_at. induction taxis as [|t taxis IH]; [discriminate|].
  cbn [existsb flat_map]. destruct (actions_queue t); cbn [nth_error orb app].
  - exact IH.
  - discriminate.
Qed.

(** With distinct indices no key of the dictionary is written twice. *)
Lemma step_dict_distinct taxis :
  NoDup (map taxi_index taxis) ->
  flat_map (fun item : string * option Z =>
              match snd item with
              | Some a => [(fst item, a)]
              | None => []
              end)
    (fold_left (fun d (s : Z * (option Z * Taxi)) =>
                  dict_set d ("taxi_" ++ str_of_int (fst s + 1)) (fst (snd s)))
       (map (fun t => (taxi_index t, Taxi_get_next_step t)) taxis) []) =
  step_at 0 taxis.
Proof.
  intros Hnd.
  rewrite (dict_set_fold (fun s : Z * (option Z * Taxi) => ("taxi_" ++ str_of_int (fst s + 1))%string)
                         (fun s => fst (snd s))).
  - cbn [app]. rewrite map_map. cbn [fst snd]. unfold step_at.
    clear Hnd. induction taxis as [|t taxis IH]; [reflexivity|].
    cbn [map flat_map fst snd]. rewrite IH. f_equal.
    unfold Taxi_get_next_step, step_key. now destruct (actions_queue t).
  - cbn [map app]. rewrite map_map. cbn [fst].
    change (NoDup (map step_key taxis)).
    clear -Hnd. induction taxis as [|t taxis IH]; [constructor|].
    cbn [map] in *. inversion Hnd as [|? ? Hn Hr]; subst. constructor; [|now apply IH].
    intros Hin. apply Hn. apply in_map_iff in Hin. destruct Hin as (t' & Hk & Hin).
    apply step_key_inj in Hk. rewrite <- Hk. now apply in_map.
Qed.

Lemma Controller_get_next_step_distinct taxis :
  NoDup (map taxi_index taxis) ->
  Controller_get_next_step taxis =
  if any_actions_left taxis
  then (Some (step_at 0 taxis), map (fun t => snd (Taxi_get_next_step t)) taxis)
  else (None, taxis).
Proof.
  intros Hnd. unfold Controller_get_next_step.
  destruct (any_actions_left taxis); [|reflexivity].
  rewrite map_map. cbn [snd]. now rewrite (step_dict_distinct _ Hnd).
Qed.

Lemma pop_indices taxis :
  map taxi_index (map (fun t => snd (Taxi_get_next_step t)) taxis) = map taxi_index taxis.
Proof.
  rewrite map_map. apply map_ext. intros t. unfold Taxi_get_next_step.
  now destruct (actions_queue t).
Qed.

Section ExecutionFacts.

Variable Env : Type.
Variable env_step : Env -> list (string * Z) -> Env.

Lemma execute_all_actions_steps : forall fuel env taxis,
  NoDup (map taxi_index taxis) -> (depth taxis <= fuel)%nat ->
  execute_all_actions Env env_step fuel env taxis =
  Some (fold_left env_step (map (fun r => step_at r taxis) (seq 0 (depth taxis))) env,
        map (fun t => set_actions_queue t []) taxis).
Proof.
  induction fuel as [|fuel IH]; intros env taxis Hnd Hd.
  - assert (E : depth taxis = 0%nat) by lia.
    pose proof (any_actions_left_depth taxis) as Ha. rewrite E in Ha. simpl in Ha.
    cbn [execute_all_actions]. rewrite (Controller_get_next_step_distinct _ Hnd), Ha, E.
    cbn [seq map fold_left]. f_equal. f_equal.
    rewrite <- (map_id taxis) at 1. apply map_ext_in. intros t Hin.
    symmetry. apply set_actions_queue_empty.
    unfold depth in E. pose proof (list_max_le (map (fun t => List.length (actions_queue t)) taxis) 0) as [Hle _].
    specialize (Hle ltac:(lia)). rewrite Forall_forall in Hle.
    specialize (Hle _ (in_map (fun t => List.length (actions_queue t)) _ _ Hin)).
    destruct (actions_queue t); [reflexivity | simpl in Hle; lia].
  - cbn [execute_all_actions]. rewrite (Controller_get_next_step_distinct _ Hnd).
    pose proof (any_actions_left_depth taxis) as Ha.
    destruct (any_actions_left taxis) eqn:Ea.
    + pose proof (step_at_nonempty _ Ea) as Hne.
      destruct (step_at 0 taxis) as [|item items] eqn:Es; [congruence|].
      rewrite IH.
      * rewrite depth_pop. destruct (depth taxis) as [|d] eqn:Ed; [discriminate|].
        cbn [Nat.pred seq map fold_left]. rewrite Es. f_equal. f_equal.
        -- f_equal. rewrite <- seq_shift, !map_map. apply map_ext. intros r.
           apply step_at_pop.
        -- rewrite map_map. apply map_ext. intros t. unfold Taxi_get_next_step.
           now destruct (actions_queue t).
      * rewrite map_map.
        replace (map (fun t => taxi_index (snd (Taxi_get_next_step t))) taxis)
          with (map taxi_index taxis); [assumption|].
        apply map_ext. intros t. unfold Taxi_get_next_step.
        now destruct (actions_queue t).
      * rewrite depth_pop. lia.
    + assert (E : depth taxis = 0%nat) by (destruct (depth taxis); [reflexivity | discriminate]).
      rewrite E. cbn [seq map fold_left]. f_equal. f_equal.
      rewrite <- (map_id taxis) at 1. apply map_ext_in. intros t Hin.
      symmetry. apply set_actions_queue_empty.
      unfold depth in E. pose proof (list_max_le (map (fun t => List.length (actions_queue t)) taxis) 0) as [Hle _].
      specialize (Hle ltac:(lia)). rewrite Forall_forall in Hle.
      specialize (Hle _ (in_map (fun t => List.length (actions_queue t)) _ _ Hin)).
      destruct (actions_queue t); [reflexivity | simpl in Hle; lia].
Qed.

(** X24. With distinct taxi indices, [execute_all_actions] steps the
    environment once for every position of the longest queue, the step at
    a position carrying the action each taxi holds there, and leaves every
    queue empty. *)
Theorem execute_all_actions_drains fuel env taxis :
  NoDup (map taxi_index taxis) -> (depth taxis <= fuel)%nat ->
  exists env' taxis',
    execute_all_actions Env env_step fuel env taxis = Some (env', taxis') /\
    env' = fold_left env_step (map (fun r => step_at r taxis) (seq 0 (depth taxis))) env /\
    map taxi_index taxis' = map taxi_index taxis /\
    map assigned_passengers taxis' = map assigned_passengers taxis /\
    Forall (fun t => actions_queue t = []) taxis'.
Proof.
  intros Hnd Hd. rewrite (execute_all_actions_steps fuel env taxis Hnd Hd).
  eexists _, _. split; [reflexivity|]. split; [reflexivity|].
  rewrite !map_map. cbn [set_actions_queue taxi_index assigned_passengers].
  split; [reflexivity|]. split; [reflexivity|].
  apply Forall_forall. intros t Hin. apply in_map_iff in Hin.
  destruct Hin as (t0 & <- & _). reflexivity.
Qed.

(** X25. For taxis with pairwise distinct indices, the loop of the
    decentralised example and the controller's [execute_all_actions] step
    the environment with the same dictionaries and leave the same taxis. *)
Theorem example_execute_all_actions_agrees : forall fuel env taxis,
  NoDup (map taxi_index taxis) ->
  example_execute_all_actions Env env_step fuel env taxis =
  execute_all_actions Env env_step fuel env taxis.
Proof.
  induction fuel as [|fuel IH]; intros env taxis Hnd.
  - cbn [example_execute_all_actions execute_all_actions].
    rewrite (Controller_get_next_step_distinct _ Hnd). unfold any_actions_left.
    destruct (existsb _ taxis) eqn:Ea; [|reflexivity].
    pose proof (step_at_nonempty _ Ea) as Hne.
    now destruct (step_at 0 taxis).
  - cbn [example_execute_all_actions execute_all_actions].
    rewrite (Controller_get_next_step_distinct _ Hnd). unfold any_actions_left.
    destruct (existsb _ taxis) eqn:Ea; [|reflexivity].
    pose proof (step_at_nonempty _ Ea) as Hne.
    cbv zeta. rewrite (step_dict_distinct _ Hnd), map_map. cbn [snd].
    destruct (step_at 0 taxis) as [|item items]; [congruence|].
    apply IH. now rewrite pop_indices.
Qed.

End ExecutionFacts.

(** ** The further properties on concrete maps *)

Lemma corridor3_border r :
  0 <= r < rows corridor3_graph ->
  desc_at corridor3 (r + 1) (cols corridor3_graph * 2) <> Some ":"%char.
Proof.
  simpl. intros Hr. assert (r = 0) by lia. subst r. vm_compute. discriminate.
Qed.

Lemma shared_valid_taxis : Forall (valid_taxi shared_state corridor3_graph) two_taxis.
Proof.
  repeat constructor.
  - exists (0, 0), 5. repeat split; simpl; lia.
  - exists (0, 2), 5. repeat split; simpl; lia.
Qed.

Lemma shared_valid_passenger p : 0 <= p < 2 -> valid_passenger shared_state corridor3_graph p.
Proof.
  intros H. assert (E : p = 0 \/ p = 1) by lia. destruct E as [-> | ->].
  - exists (0, 2). split; [reflexivity | apply corridor_in_grid; lia].
  - exists (0, 1). split; [reflexivity | apply corridor_in_grid; lia].
Qed.

Lemma two_taxis_distinct : NoDup (map taxi_index two_taxis).
Proof.
  simpl. constructor; [simpl; intros [H|[]]; discriminate|].
  constructor; [intros []|constructor].
Qed.

Lemma path_cost_symmetric_witness :
  path_cost search_shortest_path corridor3_graph (0, 0) (0, 2) =
  path_cost search_shortest_path corridor3_graph (0, 2) (0, 0).
Proof.
  apply (path_cost_symmetric search_shortest_path corridor3_graph (search_shortest_path_spec _)).
Defined.

Lemma path_cost_triangle_witness :
  exists z, path_cost search_shortest_path corridor3_graph (0, 0) (0, 2) = Some z /\ z <= 1 + 1.
Proof.
  apply (path_cost_triangle search_shortest_path corridor3 corridor3_graph
           (search_shortest_path_spec _) corridor3_init (0, 0) (0, 1) (0, 2) 1 1).
  - apply corridor_in_grid. lia.
  - apply corridor_in_grid. lia.
  - reflexivity.
  - reflexivity.
Defined.

Lemma path_cost_zero_iff_witness :
  path_cost search_shortest_path corridor3_graph (0, 0) (0, 2) = Some 0 <-> (0, 0) = (0, 2).
Proof.
  apply (path_cost_zero_iff search_shortest_path corridor3_graph (search_shortest_path_spec _)).
  - apply corridor_in_grid. lia.
  - apply corridor_in_grid. lia.
Defined.

Lemma get_path_prefix_suffix_witness :
  path_cost search_shortest_path corridor3_graph (0, 0) (0, 1) = Some (Z.of_nat 1) /\
  path_cost search_shortest_path corridor3_graph (0, 1) (0, 2) = Some (len [2; 2] - Z.of_nat 1).
Proof.
  apply (get_path_prefix_suffix search_shortest_path corridor3 corridor3_graph
           (search_shortest_path_spec _) corridor3_init (0, 0) (0, 2) [(0, 1); (0, 2)] [2; 2]
           1%nat (0, 1)).
  - apply corridor_in_grid. lia.
  - apply corridor_in_grid. lia.
  - reflexivity.
  - reflexivity.
Defined.

Lemma node_cors_round_trip_witness :
  (forall p, in_grid corridor3_graph p ->
     has_node (graph corridor3_graph) (cors_to_node (cols corridor3_graph) p) = true /\
     node_to_cors (cols corridor3_graph) (cors_to_node (cols corridor3_graph) p) = p) /\
  (forall n, has_node (graph corridor3_graph) n = true ->
     in_grid corridor3_graph (node_to_cors (cols corridor3_graph) n) /\
     cors_to_node (cols corridor3_graph) (node_to_cors (cols corridor3_graph) n) = n).
Proof. apply (node_cors_round_trip corridor3 corridor3_graph). reflexivity. Defined.

Lemma EnvGraph_edges_adjacent_witness :
  in_grid corridor3_graph (node_to_cors (cols corridor3_graph) 2) /\
  in_grid corridor3_graph (node_to_cors (cols corridor3_graph) 1) /\
  Z.abs (fst (node_to_cors (cols corridor3_graph) 2) - fst (node_to_cors (cols corridor3_graph) 1)) +
  Z.abs (snd (node_to_cors (cols corridor3_graph) 2) - snd (node_to_cors (cols corridor3_graph) 1)) = 1.
Proof.
  apply (EnvGraph_edges_adjacent corridor3 corridor3_graph 2 1).
  - reflexivity.
  - apply corridor3_border.
  - reflexivity.
Defined.

Lemma get_path_cells_actions_witness :
  List.length [(0, 1); (0, 2)] = List.length [2; 2] /\
  path_cost search_shortest_path corridor3_graph (0, 0) (0, 2) =
    Some (Z.of_nat (List.length [(0, 1); (0, 2)])).
Proof.
  apply (get_path_cells_actions search_shortest_path corridor3_graph (0, 0) (0, 2)
           [(0, 1); (0, 2)] [2; 2]).
  - apply search_shortest_path_spec.
  - apply corridor_in_grid. lia.
  - reflexivity.
Defined.

Lemma get_path_actions_replay_witness :
  replay (0, 2) [3; 3] = [(0, 1); (0, 0)] /\
  nth_error [(0, 1); (0, 0)] (List.length [3; 3] - 1) = Some (0, 0).
Proof.
  apply (get_path_actions_replay search_shortest_path corridor3 corridor3_graph (0, 2) (0, 0)
           [(0, 1); (0, 0)] [3; 3]).
  - apply search_shortest_path_spec.
  - reflexivity.
  - simpl. lia.
  - apply corridor3_border.
  - apply corridor_in_grid. lia.
  - apply corridor_in_grid. lia.
  - discriminate.
  - reflexivity.
Defined.

Lemma find_transfer_point_h1_with_fuel_witness :
  exists k,
    is_first_min
      (fun c => Some (shortfall search_shortest_path grid3_graph (1, 1) 2 c))
      [(0, 0); (0, 1); (0, 2); (1, 2); (2, 2)] k (0, 1) 0 /\
    map (shortfall search_shortest_path grid3_graph (1, 1) 2)
      [(0, 0); (0, 1); (0, 2); (1, 2); (2, 2)] = [1; 0; 1; 0; 1] /\
    find_transfer_point_h1 search_shortest_path (pair_state (1, 1) (0, 0) 2 3 (2, 2))
      grid3_graph two_taxis 0 1 0 = Some (0, 1).
Proof.
  destruct (find_transfer_point_h1_with_fuel search_shortest_path grid3 grid3_graph
              (search_shortest_path_spec _) grid3_init grid3_connected
              (pair_state (1, 1) (0, 0) 2 3 (2, 2)) (mk_Taxi 0 [] [] []) (mk_Taxi 1 [] [] [])
              (2, 2)) with (taxis := two_taxis) (fi := 0) (ti := 1) (pi := 0) (fuel := 2)
    as (k & c & Hmin & Hres).
  - exists (1, 1), 2. repeat split; simpl; lia.
  - exists (0, 0), 3. repeat split; simpl; lia.
  - unfold in_grid. simpl. lia.
  - reflexivity.
  - reflexivity.
  - reflexivity.
  - reflexivity.
  - lia.
  - pose proof (first_min_Some _ _ _ _ _ Hmin) as E.
    assert (E' : first_min
                   (fun c => Some (shortfall search_shortest_path grid3_graph
                                     (location_of (pair_state (1, 1) (0, 0) 2 3 (2, 2))
                                        (mk_Taxi 0 [] [] [])) 2 c))
                   (location_of (pair_state (1, 1) (0, 0) 2 3 (2, 2)) (mk_Taxi 1 [] [] []) ::
                    path_cells search_shortest_path grid3_graph
                      (location_of (pair_state (1, 1) (0, 0) 2 3 (2, 2)) (mk_Taxi 1 [] [] []))
                      (2, 2)) = Some ((0, 1), 0)) by (vm_compute; reflexivity).
    rewrite E' in E. injection E as <- _.
    assert (Ec : path_cells search_shortest_path grid3_graph
                   (location_of (pair_state (1, 1) (0, 0) 2 3 (2, 2)) (mk_Taxi 1 [] [] []))
                   (2, 2) = [(0, 1); (0, 2); (1, 2); (2, 2)]) by (vm_compute; reflexivity).
    assert (Es : shortfall search_shortest_path grid3_graph
                   (location_of (pair_state (1, 1) (0, 0) 2 3 (2, 2)) (mk_Taxi 0 [] [] []))
                   2 (0, 1) = 0) by (vm_compute; reflexivity).
    rewrite Ec, Es in Hmin. rewrite Es in Hres. cbn [Z.eqb] in Hres.
    exists k. split; [exact Hmin|]. split; [vm_compute; reflexivity|]. exact Hres.
Defined.

Lemma find_transfer_point_h1_reachable_witness :
  exists p c,
    find_transfer_point_h1 search_shortest_path (corridor_state 2 3) corridor3_graph
      two_taxis 0 1 0 = Some p /\
    in_grid corridor3_graph p /\
    path_cost search_shortest_path corridor3_graph
      (location_of (corridor_state 2 3) (mk_Taxi 0 [] [] [])) p = Some c /\
    c <= fuel_of (corridor_state 2 3) (mk_Taxi 0 [] [] []) - 1.
Proof.
  apply (find_transfer_point_h1_reachable search_shortest_path corridor3 corridor3_graph
           (search_shortest_path_spec _) corridor3_init corridor3_connected
           (corridor_state 2 3) (mk_Taxi 0 [] [] []) (mk_Taxi 1 [] [] []) (0, 2)).
  - exists (0, 0), 2. repeat split; simpl; lia.
  - exists (0, 2), 3. repeat split; simpl; lia.
  - apply corridor_in_grid. lia.
  - reflexivity.
  - reflexivity.
  - reflexivity.
  - reflexivity.
  - unfold fuel_of. simpl. lia.
Defined.

Lemma find_transfer_point_h2_reachable_witness :
  exists p c,
    find_transfer_point_h2 search_shortest_path (corridor_state 2 3) corridor3_graph
      two_taxis 0 0 = Some p /\
    in_grid corridor3_graph p /\
    path_cost search_shortest_path corridor3_graph
      (location_of (corridor_state 2 3) (mk_Taxi 0 [] [] [])) p = Some c /\
    c <= fuel_of (corridor_state 2 3) (mk_Taxi 0 [] [] []) - 1.
Proof.
  apply (find_transfer_point_h2_reachable search_shortest_path corridor3 corridor3_graph
           (search_shortest_path_spec _) corridor3_init corridor3_connected
           (corridor_state 2 3) (mk_Taxi 0 [] [] []) (0, 2)).
  - exists (0, 0), 2. repeat split; simpl; lia.
  - apply corridor_in_grid. lia.
  - reflexivity.
  - reflexivity.
  - unfold fuel_of. simpl. lia.
Defined.

Lemma optimal_no_worse_than_sender_alone_witness :
  exists c d,
    find_optimal_transfer_point search_shortest_path (corridor_state 2 3) corridor3_graph
      two_taxis 0 1 0 = Some [fst c; snd c] /\
    dist_from_dest_at search_shortest_path (corridor_state 2 3) corridor3_graph
      (mk_Taxi 0 [] [] []) (mk_Taxi 1 [] [] []) (0, 2) c = Some d /\
    0 <= d <= Z.max 0 (cost search_shortest_path corridor3_graph
                         (location_of (corridor_state 2 3) (mk_Taxi 0 [] [] [])) (0, 2) -
                       (fuel_of (corridor_state 2 3) (mk_Taxi 0 [] [] []) - 1)).
Proof.
  apply (optimal_no_worse_than_sender_alone search_shortest_path corridor3 corridor3_graph
           (search_shortest_path_spec _) corridor3_init corridor3_connected
           (corridor_state 2 3) (mk_Taxi 0 [] [] []) (mk_Taxi 1 [] [] []) (0, 2)).
  - exists (0, 0), 2. repeat split; simpl; lia.
  - exists (0, 2), 3. repeat split; simpl; lia.
  - apply corridor_in_grid. lia.
  - reflexivity.
  - reflexivity.
  - reflexivity.
  - unfold fuel_of. simpl. lia.
Defined.

Lemma send_taxi_to_point_reaches_witness :
  exists t' acts,
    Taxi_send_taxi_to_point search_shortest_path (corridor_state 5 5) corridor3_graph
      (mk_Taxi 0 [] [] []) (0, 2) = Some t' /\
    drain (List.length (actions_queue t')) t' = (acts, mk_Taxi 0 [] [] []) /\
    last (replay (location_of (corridor_state 5 5) (mk_Taxi 0 [] [] [])) acts)
         (location_of (corridor_state 5 5) (mk_Taxi 0 [] [] [])) = (0, 2).
Proof.
  apply (send_taxi_to_point_reaches search_shortest_path corridor3 corridor3_graph
           (search_shortest_path_spec _) corridor3_init corridor3_connected).
  - simpl. lia.
  - apply corridor3_border.
  - exists (0, 0), 5. repeat split; simpl; lia.
  - apply corridor_in_grid. lia.
  - reflexivity.
  - discriminate.
Defined.

Lemma send_taxi_to_dropoff_effect_witness :
  exists t' acts,
    Taxi_send_taxi_to_dropoff search_shortest_path dropoff_env corridor3_graph
      (mk_Taxi 0 [] [7] [0]) None = Some t' /\
    actions_queue t' = [7] ++ acts ++ [5] /\
    len acts = cost search_shortest_path corridor3_graph
                 (location_of (state dropoff_env) (mk_Taxi 0 [] [7] [0])) (0, 2) /\
    assigned_passengers t' = [] /\
    taxi_index t' = 0 /\
    communication_channel t' = [].
Proof.
  apply (send_taxi_to_dropoff_effect search_shortest_path dropoff_env corridor3_graph
           (mk_Taxi 0 [] [7] [0]) (search_shortest_path_spec _) corridor3_connected
           0 [] None (0, 2) 5).
  - exists (0, 0), 5. repeat split; simpl; lia.
  - reflexivity.
  - reflexivity.
  - apply corridor_in_grid. lia.
  - reflexivity.
Defined.

Lemma pickup_multiple_passengers_extend_witness :
  exists acts,
    Taxi_pickup_multiple_passengers search_shortest_path pickup_env corridor3_graph
      (assign 1 (mk_Taxi 0 [] [] [0])) =
      Some (set_actions_queue (assign 1 (mk_Taxi 0 [] [] [0])) ([2; 2; 4] ++ acts ++ [4])) /\
    len acts = 1.
Proof.
  apply (pickup_multiple_passengers_extend search_shortest_path pickup_env corridor3_graph
           (mk_Taxi 0 [] [] [0]) 1 (mk_Taxi 0 [] [2; 2; 4] [0]) 1 4).
  - reflexivity.
  - reflexivity.
  - reflexivity.
Defined.

Lemma request_help_message_filter_witness :
  Taxi_request_help_message search_shortest_path (corridor_state 2 3) corridor3_graph
    (mk_Taxi 0 [] [] [0]) =
  Some (map (help_request_message 0)
            (filter (fun p => cost search_shortest_path corridor3_graph
                                (location_of (corridor_state 2 3) (mk_Taxi 0 [] [] [0]))
                                (destination_of (corridor_state 2 3) p)
                              >=? fuel_of (corridor_state 2 3) (mk_Taxi 0 [] [] [0]))
                    [0])).
Proof.
  apply (request_help_message_filter search_shortest_path corridor3_graph
           (search_shortest_path_spec _) corridor3_connected (corridor_state 2 3)
           (mk_Taxi 0 [] [] [0])).
  - exists (0, 0), 2. repeat split; simpl; lia.
  - repeat constructor. exists (0, 2). split; [reflexivity | apply corridor_in_grid; lia].
Defined.

Lemma find_best_transfer_point_is_h1_witness :
  option_map (fun r => snd (fst r))
    (Taxi_find_best_transfer_point search_shortest_path (pair_state (1, 1) (0, 0) 2 3 (2, 2))
       grid3_graph (mk_Taxi 0 [] [] []) 1 0 [(0, 1); (0, 2); (1, 2); (2, 2)] 3) =
  find_transfer_point_h1 search_shortest_path (pair_state (1, 1) (0, 0) 2 3 (2, 2))
    grid3_graph two_taxis 0 1 0 /\
  find_transfer_point_h1 search_shortest_path (pair_state (1, 1) (0, 0) 2 3 (2, 2))
    grid3_graph two_taxis 0 1 0 = Some (0, 1).
Proof.
  split; [|reflexivity].
  apply (find_best_transfer_point_is_h1 search_shortest_path (pair_state (1, 1) (0, 0) 2 3 (2, 2))
           grid3_graph two_taxis 0 1 0 (mk_Taxi 0 [] [] []) (mk_Taxi 1 [] [] []) (2, 2)
           [(0, 1); (0, 2); (1, 2); (2, 2)] [2; 2; 0; 0]).
  - reflexivity.
  - reflexivity.
  - reflexivity.
  - reflexivity.
  - reflexivity.
  - reflexivity.
Defined.

Lemma allocate_step_first_min_witness :
  exists k t c,
    is_first_min (fun t => Taxi_pickup_cost search_shortest_path shared_state corridor3_graph t 1)
      two_taxis k t c /\
    allocate_step search_shortest_path shared_state corridor3_graph (Some two_taxis) 1 =
      Some (replace_nth k (assign 1 t) two_taxis).
Proof.
  apply (allocate_step_first_min search_shortest_path shared_state corridor3_graph two_taxis 1).
  - discriminate.
  - intros t [<- | [<- | []]]; eexists; reflexivity.
Defined.

Lemma allocate_passengers_conservation_witness :
  exists taxis',
    allocate_passengers search_shortest_path shared_state corridor3_graph two_taxis 2 =
      Some taxis' /\
    map taxi_index taxis' = map taxi_index two_taxis /\
    map actions_queue taxis' = map actions_queue two_taxis /\
    Permutation (concat (map assigned_passengers taxis'))
                (concat (map assigned_passengers two_taxis) ++ range 2).
Proof.
  apply (allocate_passengers_conservation search_shortest_path corridor3_graph
           (search_shortest_path_spec _) corridor3_connected shared_state two_taxis 2).
  - discriminate.
  - apply shared_valid_taxis.
  - repeat constructor.
  - apply shared_valid_passenger.
Defined.

Lemma decentralized_allocation_is_central_witness :
  decentralized_allocation search_shortest_path shared_state corridor3_graph two_taxis 2 =
  allocate_passengers search_shortest_path shared_state corridor3_graph two_taxis 2.
Proof.
  apply (decentralized_allocation_is_central search_shortest_path shared_state corridor3_graph
           two_taxis 2).
  - discriminate.
  - apply two_taxis_distinct.
  - repeat constructor.
Defined.

Lemma collaboration_case_no_capable_witness :
  collaboration_case search_shortest_path (corridor_state 0 2) corridor3_graph
    ([mk_Taxi 0 [] [] []] ++ [mk_Taxi 1 [] [] []]) 0 1 (fun _ _ => None) =
  Some (0,
        cost search_shortest_path corridor3_graph
          (start_of (corridor_state 0 2) 0) (destination_of (corridor_state 0 2) 0),
        [mk_Taxi 0 [] [] []] ++ [assign 0 (mk_Taxi 1 [] [] [])]).
Proof.
  apply (collaboration_case_no_capable search_shortest_path corridor3_graph
           (search_shortest_path_spec _) corridor3_connected (corridor_state 0 2)).
  - apply (corridor_valid_taxis 0 2).
  - exists (0, 0). split; [reflexivity | apply corridor_in_grid; lia].
  - exists (0, 2). split; [reflexivity | apply corridor_in_grid; lia].
  - repeat constructor; vm_compute; discriminate.
Defined.

Lemma collaboration_case_closest_witness :
  collaboration_case search_shortest_path (corridor_state 2 3) corridor3_graph
    two_taxis 0 1 (fun taxis k => Some (k, 0, taxis)) =
  Some (Z.of_nat 0, 0, replace_nth 0 (assign 0 (mk_Taxi 0 [] [] [])) two_taxis).
Proof.
  apply (collaboration_case_closest search_shortest_path corridor3_graph
           (search_shortest_path_spec _) corridor3_connected (corridor_state 2 3)
           two_taxis 0 1 (fun taxis k => Some (k, 0, taxis)) 0%nat (mk_Taxi 0 [] [] []) 0).
  - apply corridor_valid_taxis.
  - exists (0, 0). split; [reflexivity | apply corridor_in_grid; lia].
  - intros [|[|j]] u H; simpl in H; try (injection H as <-; reflexivity).
    destruct j; discriminate.
  - split; [reflexivity|]. split; [reflexivity|].
    intros [|[|j]] b e Hj Hb; simpl in Hj.
    + injection Hj as <-. vm_compute in Hb. injection Hb as <-. lia.
    + injection Hj as <-. vm_compute in Hb. injection Hb as <-. lia.
    + destruct j; discriminate.
Defined.

Lemma execute_all_actions_drains_witness :
  exists env' taxis',
    execute_all_actions (list (list (string * Z))) (fun log d => log ++ [d]) 2 [] queued_taxis =
      Some (env', taxis') /\
    env' = fold_left (fun log d => log ++ [d])
             (map (fun r => step_at r queued_taxis) (seq 0 (depth queued_taxis))) [] /\
    map taxi_index taxis' = map taxi_index queued_taxis /\
    map assigned_passengers taxis' = map assigned_passengers queued_taxis /\
    Forall (fun t => actions_queue t = []) taxis'.
Proof.
  apply (execute_all_actions_drains (list (list (string * Z))) (fun log d => log ++ [d])
           2 [] queued_taxis).
  - simpl. constructor; [simpl; intros [H|[]]; discriminate|].
    constructor; [intros []|constructor].
  - vm_compute. lia.
Defined.

Lemma example_execute_all_actions_agrees_witness :
  example_execute_all_actions (list (list (string * Z))) (fun log d => log ++ [d]) 2 []
    queued_taxis =
  execute_all_actions (list (list (string * Z))) (fun log d => log ++ [d]) 2 [] queued_taxis.
Proof.
  apply (example_execute_all_actions_agrees (list (list (string * Z)))
           (fun log d => log ++ [d]) 2 [] queued_taxis).
  simpl. constructor; [simpl; intros [H|[]]; discriminate|].
  constructor; [intros []|constructor].
Defined.
